(** * gdiv: fisheye pixel indexing, Reinhart solid angles and symmetry clusters

    A shallow embedding of the algorithmic core of the gdiv scripts:

    - [gdivmeas_fullres.py]: [alpha], [segArea], [chordLen], [vwRay],
      [pix2Idx], [idx2Pix];
    - [reinhartSolidAngles.py]: [reinhartSolidAngles];
    - [gdivsymm.py]: [SymmetryBase.clusterCoeffs] and the [clusters] methods
      of the five symmetry classes, together with [ReinhartSymmetry.patches];
    - [gdivmeas_fullres.py], further: [pixOmega], [doItBabee] and
      [getCoeffs];
    - [gdivsim-reinhart.py]: the arithmetic of [getCoeffs];
    - [gdivclust.py]: the main program.

    Conventions of the embedding.

    - Python [int] values are [Z].  Where the code calls [sin], [cos],
      [arccos], [sqrt] or uses [pi], Python and numpy floats are exact real
      numbers ([R]), and rationals ([Q]) in the arithmetic of [patches];
      rounding is not part of the model there, and the only special values
      kept are the results of the division by zero that ends [getCoeffs].
    - [clusterCoeffs] reads arbitrary numbers from a file, adds them up and
      divides: there the floats are binary64 values with their signed
      zeros, infinities and not-a-number, and [+] and [/] are the exact
      result rounded to the nearest value, to the even one on a tie, with
      overflow and gradual underflow.
    - [loadtxt] is given the numbers of the file, one per line: it returns
      an array of one dimension, but of no dimension for a single number,
      and [len] of that raises a TypeError.
    - [ndarray.sum] of numpy is not part of the repository and the order
      of its additions depends on the length of the array and on the
      version of the library; [clusterCoeffs] takes it as a parameter, and
      the properties hold for every [sum] that adds the entries up in some
      order and with some bracketing.
    - An exception is a value [Raise e] of the type [result]; code that may
      raise lives in the error monad below.
    - numpy arrays and Python lists are [list]s; reading and writing an
      element goes through [getitem] and [setitem], which raise [IndexError]
      out of range and wrap negative indices as numpy does.
    - The attributes of the symmetry classes ([_resolution], [_numCoeff],
      [_clusters] and the [_numCoeffs] that the curve symmetry creates) are
      explicit state: [patches] and a [clusters] method take the object and
      return the object they leave behind, also when they raise.
    - [scipy.optimize.newton] is not part of the repository; [idx2Pix] takes
      the solver as a parameter.
    - The external commands and the files are not part of the model.  A
      function that runs commands returns the events it causes; a function
      that reads the output of a command or a file takes what it reads as
      an argument, and returns what it writes. *)

From Stdlib Require Import String.
From Stdlib Require Import Reals ZArith QArith Qround Qabs Qpower List Bool.
From Stdlib Require Import Lia Lqa Lra Permutation Sorting.Sorted.
Import ListNotations.

Close Scope Q_scope.
Close Scope R_scope.
Open Scope Z_scope.

(* ------------------------------------------------------------------------ *)
(** * Python and numpy primitives *)

Module Py.

Inductive exn : Type :=
| ValueError (msg : string)
| IndexError (msg : string)
| TypeError (msg : string).

Inductive result (A : Type) : Type :=
| Ok (a : A)
| Raise (e : exn).

Arguments Ok {A} a.
Arguments Raise {A} e.

Definition bind {A B : Type} (m : result A) (k : A -> result B) : result B :=
  match m with
  | Ok a => k a
  | Raise e => Raise e
  end.

Definition len {A : Type} (l : list A) : Z := Z.of_nat (length l).

(** [range(lo, hi)] *)
Definition range (lo hi : Z) : list Z :=
  map (fun k => (lo + Z.of_nat k)%Z) (seq 0 (Z.to_nat (hi - lo))).

(** [zeros(n)] for an array of integers. *)
Definition zeros (n : Z) : list Z := repeat 0%Z (Z.to_nat n).

(** [a[i]]: negative indices count from the end, anything else out of
    range raises. *)
Definition getitem {A : Type} (a : list A) (i : Z) : result A :=
  let j := if (i <? 0)%Z then (i + len a)%Z else i in
  if (j <? 0)%Z then Raise (IndexError "index out of bounds")
  else match nth_error a (Z.to_nat j) with
       | Some x => Ok x
       | None => Raise (IndexError "index out of bounds")
       end.

Fixpoint update {A : Type} (a : list A) (n : nat) (x : A) : list A :=
  match a, n with
  | [], _ => []
  | _ :: t, O => x :: t
  | h :: t, S m => h :: update t m x
  end.

(** [a[i] = x] *)
Definition setitem {A : Type} (a : list A) (i : Z) (x : A) : result (list A) :=
  let j := if (i <? 0)%Z then (i + len a)%Z else i in
  if ((j <? 0) || (len a <=? j))%Z then Raise (IndexError "index out of bounds")
  else Ok (update a (Z.to_nat j) x).

(** [for i in idxs: acc = body(i, acc)], stopping at the first exception. *)
Fixpoint for_each {I S : Type} (idxs : list I) (acc : S)
         (body : I -> S -> result S) : result S :=
  match idxs with
  | [] => Ok acc
  | i :: rest => bind (body i acc) (fun acc' => for_each rest acc' body)
  end.

(** [enumerate(l)] *)
Definition enumerate {A : Type} (l : list A) : list (Z * A) :=
  combine (range 0 (len l)) l.

(** [int(x)] of a float: truncation towards zero. *)
Definition int (x : R) : Z :=
  if Rle_dec 0 x then Int_part x else (- Int_part (- x))%Z.

(** [int(q)] for a rational. *)
Definition intQ (q : Q) : Z :=
  if Qle_bool 0 q then Qfloor q else Qceiling q.

(** Decidable comparisons of reals as booleans. *)
Definition Rgtb (x y : R) : bool := if Rgt_dec x y then true else false.
Definition Rltb (x y : R) : bool := if Rlt_dec x y then true else false.

End Py.

Import Py.

Declare Scope py_scope.
Delimit Scope py_scope with py.
Notation "x <- m ;; k" := (bind m (fun x => k))
  (at level 61, m at next level, right associativity) : py_scope.
Notation "' pat <- m ;; k" :=
  (bind m (fun x => match x with pat => k end))
  (at level 61, pat pattern, m at next level, right associativity) : py_scope.
Open Scope py_scope.

(* ------------------------------------------------------------------------ *)
(** * gdivmeas_fullres.py: pixel <-> index mapping *)

Module Fisheye.

Local Open Scope R_scope.

(** Compensation for FP roundoff *)
Definition EPSILON : R := 1e-6.

(** [alpha = lambda v, r: 2 * arccos(v / r) if v <= r else 0] *)
Definition alpha (v r : R) : R :=
  if Rle_dec v r then 2 * acos (v / r) else 0.

(** [segArea = lambda v, r: 0.5 * r**2 * (alpha(v, r) - sin(alpha(v, r)))] *)
Definition segArea (v r : R) : R :=
  0.5 * r ^ 2 * (alpha v r - sin (alpha v r)).

(** [chordLen = lambda v, r: 2 * sqrt(r**2 - v**2) if v <= r else 0] *)
Definition chordLen (v r : R) : R :=
  if Rle_dec v r then 2 * sqrt (r ^ 2 - v ^ 2) else 0.

(** [vwRay(npix)] *)
Definition vwRay (npix : R * R) : R * R * R :=
  let '(rx, ry) := npix in
  let rx := 2 * rx - 1 in
  let ry := 2 * ry - 1 in
  let dr := sqrt (rx ^ 2 + ry ^ 2) in
  let Dz := cos (0.5 * PI * dr) in
  let pz := if Rgt_dec dr EPSILON then sqrt (1 - Dz ^ 2) / dr else 0 in
  let Dx := rx * pz in
  let Dy := ry * pz in
  (Dx, Dy, Dz).

(** [pix2Idx(pix, radius)]; the pixel and the radius are integers. *)
Definition pix2Idx (pix : Z * Z) (radius : Z) : Z :=
  let '(u, v) := pix in
  let u := (u - radius)%Z in
  let v := (v - radius)%Z in
  if Rgt_dec (IZR (u ^ 2 + v ^ 2) + EPSILON) (IZR (radius ^ 2)) then (-1)%Z
  else
    (int (segArea (IZR (v + 1)) (IZR radius) + 0.5) +
     int (0.5 * chordLen (IZR (v + 1)) (IZR radius) + IZR u + 1.5))%Z.

Section Solver.

(** [newton(f, x0, fprime)] of scipy.optimize, with [args] already
    applied to [f] and [fprime].  The solver is a parameter: nothing is
    assumed of the value it returns. *)
Variable newton : (R -> R) -> R -> (R -> R) -> R.

(** [idx2Pix(idx, radius)]; [None] is Python's [None]. *)
Definition idx2Pix (idx radius : Z) : option (Z * Z) :=
  if (idx <? 0)%Z || Rgtb (IZR idx) (PI * IZR (radius ^ 2)) then None
  else
    let f := fun (alpha idx radius : R) =>
               2 * idx / radius ^ 2 + sin alpha - alpha in
    let df := fun (alpha idx radius : R) => cos alpha - 1 in
    let alpha0 := PI in
    let alphaOpt :=
      newton (fun a => f a (IZR (idx - 1)) (IZR radius)) alpha0
             (fun a => df a (IZR (idx - 1)) (IZR radius)) in
    let v := int (IZR radius * cos (alphaOpt / 2)) in
    let v := (v + (if Rlt_dec alphaOpt PI then 1 else 0))%Z in
    let u := (idx - 1 -
              int (segArea (IZR v) (IZR radius) + 0.5) -
              int (0.5 * chordLen (IZR v) (IZR radius) + 0.5))%Z in
    Some ((u + radius)%Z, (v + radius - 1)%Z).

End Solver.

(** Size of the bin arrays preallocated in [getCoeffs]:
    [numIdx = int(pi * rad**2 + 0.5)]. *)
Definition numIdx (rad : Z) : Z := int (PI * IZR (rad ^ 2) + 0.5).

End Fisheye.

(* ------------------------------------------------------------------------ *)
(** * binary64: the floats of Python and numpy *)

Module Float.

(** A binary64 value: a zero with its sign, a nonzero number, an
    infinity with its sign, or not-a-number. *)
Inductive float : Type :=
| Zero (negative : bool)
| Finite (q : Q)
| Inf (negative : bool)
| NaN.

(** [2 ^ e] *)
Definition pow2 (e : Z) : Q := Qpower 2 e.

(** The exponent of a nonzero number: [2^e <= |q| < 2^(e+1)]. *)
Definition exponent (q : Q) : Z :=
  let c := Z.log2 (Z.abs (Qnum q)) - Z.log2 (Zpos (Qden q)) in
  if Qle_bool (pow2 c) (Qabs q) then c else c - 1.

(** The nearest integer, the even one on a tie. *)
Definition rint (x : Q) : Z :=
  let f := Qfloor x in
  match (x - inject_Z f ?= 1 # 2)%Q with
  | Lt => f
  | Gt => f + 1
  | Eq => if Z.even f then f else f + 1
  end.

Definition negative (q : Q) : bool := negb (Qle_bool 0 q).

(** Rounding of a nonzero exact result to binary64, to the nearest value
    and to the even significand on a tie: 53 bits of significand above
    [2^-1022], multiples of [2^-1074] below (gradual underflow, down to a
    signed zero), an infinity from [2^1024] on. *)
Definition round (q : Q) : float :=
  let e := Z.max (exponent q) (-1022) - 52 in
  let m := rint (q / pow2 e) in
  if m =? 0 then Zero (negative q)
  else if Qle_bool (pow2 1024) (Qabs (inject_Z m * pow2 e)) then
         Inf (negative q)
       else Finite (Qred (inject_Z m * pow2 e)).

(** [x + y] *)
Definition add (x y : float) : float :=
  match x, y with
  | NaN, _ | _, NaN => NaN
  | Inf s, Inf t => if Bool.eqb s t then Inf s else NaN
  | Inf s, _ => Inf s
  | _, Inf t => Inf t
  | Zero s, Zero t => Zero (s && t)
  | Zero _, Finite b => Finite b
  | Finite a, Zero _ => Finite a
  | Finite a, Finite b =>
      if Qeq_bool (a + b) 0 then Zero false else round (a + b)
  end.

(** [x / y] of numpy: a zero divisor raises nothing. *)
Definition div (x y : float) : float :=
  match x, y with
  | NaN, _ | _, NaN => NaN
  | Inf _, Inf _ => NaN
  | Zero _, Zero _ => NaN
  | Inf s, Zero t => Inf (xorb s t)
  | Inf s, Finite b => Inf (xorb s (negative b))
  | Zero s, Inf t => Zero (xorb s t)
  | Finite a, Inf t => Zero (xorb (negative a) t)
  | Finite a, Zero t => Inf (xorb (negative a) t)
  | Zero s, Finite b => Zero (xorb s (negative b))
  | Finite a, Finite b => round (a / b)
  end.

(** The number that a finite value stands for. *)
Definition value (x : float) : Q :=
  match x with
  | Finite q => q
  | _ => 0%Q
  end.

(** A value of the format: a nonzero number has to be one that rounding
    leaves as it is. *)
Definition is_float (x : float) : bool :=
  match x with
  | Finite q =>
      match round q with
      | Finite r => Qeq_bool r q
      | _ => false
      end
  | _ => true
  end.

End Float.

(* ------------------------------------------------------------------------ *)
(** * gdivsymm.py: symmetry classes *)

Module Symm.

(** A cluster is a list of bin numbers, a partition a list of clusters. *)
Definition Clusters : Type := list (list Z).

(** What [_resolution] holds once it is set: an [int], or the float
    that [round(sqrt(.))] returns, an integral number or [nan]
    ([None]). *)
Inductive resolution : Type :=
| as_int (n : Z)
| as_float (x : option Z).

(** The attributes of a [SymmetryBase] object; [None] is Python's [None],
    and for [_numCoeffs], which only [ReinhartCurveSymmetry] creates, an
    attribute that does not exist yet. *)
Record SymmetryBase : Type := mkSymmetry {
  _resolution : option resolution;
  _numCoeff : option Z;
  _clusters : option Clusters;
  _numCoeffs : option Z
}.

(** A newly created object: the attributes of the class are [None]. *)
Definition new : SymmetryBase :=
  {| _resolution := None; _numCoeff := None; _clusters := None;
     _numCoeffs := None |}.

(** What a [clusters] method is: it returns a partition or raises, and
    leaves the object behind. *)
Definition method : Type := SymmetryBase -> Z -> result Clusters * SymmetryBase.

(** The guard of every [clusters] method, negated:
    [not (self._clusters is None or self._numCoeff != numCoeff)];
    on a hit the method goes straight to [return self._clusters]. *)
Definition cached (self : SymmetryBase) (numCoeff : Z) : option Clusters :=
  match _clusters self, _numCoeff self with
  | Some c, Some n => if n =? numCoeff then Some c else None
  | _, _ => None
  end.

(** ** SymmetryBase.clusterCoeffs *)

Import Float.

(** What [loadtxt] makes of a file of numbers, one per line: an array
    of one dimension, but of no dimension when there is one number
    only. *)
Inductive ndarray : Type :=
| Array0 (x : float)
| Array1 (a : list float).

Definition loadtxt (coeffFile : list float) : ndarray :=
  match coeffFile with
  | [x] => Array0 x
  | _ => Array1 coeffFile
  end.

(** [zeros(n)] for an array of floats. *)
Definition zerosF (n : Z) : list float := repeat (Zero false) (Z.to_nat n).

(** [coeffIdx in c] *)
Definition contains (c : list Z) (x : Z) : bool := existsb (Z.eqb x) c.

Section Sum.

(** [a.sum()] of numpy: the order in which it adds the entries depends
    on the length of the array and on the version of the library. *)
Variable sum : list float -> float.

(** [clusterCoeffs(self, coeffFile)], for the numbers that the file
    holds. *)
Definition clusterCoeffs (clusters : method) (self : SymmetryBase)
           (coeffFile : list float) : result (list float) * SymmetryBase :=
  match loadtxt coeffFile with
  | Array0 _ => (Raise (TypeError "len() of unsized object"), self)
  | Array1 coeffs =>
  let numCoeff := len coeffs in
  if numCoeff =? 0 then
    (Raise (ValueError "failed reading coefficients"), self)
  else
    match clusters self numCoeff with
    | (Raise e, self) => (Raise e, self)
    | (Ok clustList, self) =>
        let numClust := len clustList in
        let clustCoeffs := zerosF numClust in
        let accumulated :=
          for_each (enumerate coeffs) clustCoeffs
            (fun '(coeffIdx, coeff) clustCoeffs =>
               let clustIdx :=
                 map fst (filter (fun '(i, c) => contains c coeffIdx)
                                 (enumerate clustList)) in
               match clustIdx with
               | [] => Raise (ValueError "bin not found")
               | [i] =>
                   x <- getitem clustCoeffs i ;;
                   setitem clustCoeffs i (add x coeff)
               | _ :: _ :: _ =>
                   Raise (ValueError "bin assigned to mutiple clusters")
               end) in
        match accumulated with
        | Raise e => (Raise e, self)
        | Ok clustCoeffs =>
            (Ok (map (fun c => div c (sum clustCoeffs)) clustCoeffs), self)
        end
    end
  end.

End Sum.

(** ** KlemsSymmetry *)

Definition KlemsSymmetry_clusters : method := fun self numCoeff =>
  match cached self numCoeff with
  | Some c => (Ok c, self)
  | None =>
      if negb (numCoeff =? 145) then
        (Raise (ValueError "Invalid number of Klems coefficients"), self)
      else
        let CLUST0 := [0] in
        let CLUST30 := range 1 45 in
        let CLUST45 := range 45 93 in
        let CLUST60 := range 93 145 in
        let clusters := [CLUST0; CLUST30; CLUST45; CLUST60] in
        (Ok clusters,
         {| _resolution := Some (as_int 1); _numCoeff := Some numCoeff;
            _clusters := Some clusters; _numCoeffs := _numCoeffs self |})
  end.

(** ** ReinhartSymmetry *)

(** [round(sqrt(p / q))] of numpy for integers [p] and [q > 0], computed
    exactly: the integer nearest to the square root, the even one on a
    tie.  [None] stands for [nan], the square root of a negative number.
    With [m] the integer part of the root, the root is compared with
    [m + 1/2] through the squares, [4 p] against [q (2 m + 1)^2]. *)
Definition round_sqrt (p q : Z) : option Z :=
  if p <? 0 then None
  else
    let m := Z.sqrt (p / q) in
    match 4 * p ?= q * (2 * m + 1) ^ 2 with
    | Lt => Some m
    | Gt => Some (m + 1)
    | Eq => Some (if Z.even m then m else m + 1)
    end.

(** [patches(self, numCoeff)], returning [(r_row, rnaz, racc)].  The
    subdivision factor is stored in [_resolution] before it is checked;
    when it is [nan] the check fails and so does the formatting of the
    message of the [ValueError], with a [ValueError] of its own. *)
Definition patches (self : SymmetryBase) (numCoeff : Z)
  : result (Z * list Z * list Z) * SymmetryBase :=
  let MF := round_sqrt (numCoeff - 1) 144 in
  let self :=
    {| _resolution := Some (as_float MF); _numCoeff := _numCoeff self;
       _clusters := _clusters self; _numCoeffs := _numCoeffs self |} in
  (match MF with
   | None => Raise (ValueError "cannot convert float NaN to integer")
   | Some MF =>
      if negb (MF ^ 2 * 144 + 1 =? numCoeff) then
        Raise (ValueError "Invalid number of Reinhart coefficients")
      else
        let r_alt := 90%Q in
        let alpha := (90 / (inject_Z MF * 7 + 0.5))%Q in
        let r_row := intQ (r_alt / alpha)%Q in
        let tnaz := [30; 30; 24; 24; 18; 12; 6] in
        let rnaz := zeros r_row in
        rnaz <- for_each (range 0 r_row) rnaz
                  (fun r rnaz =>
                     t <- getitem tnaz
                            (Qfloor ((inject_Z r + 0.5) / inject_Z MF)%Q) ;;
                     setitem rnaz r (MF * t)) ;;
        let racc := zeros (r_row + 1) in
        x <- getitem rnaz 0 ;;
        racc <- setitem racc 0 x ;;
        racc <- for_each (range 1 r_row) racc
                  (fun r racc =>
                     a <- getitem racc (r - 1) ;;
                     b <- getitem rnaz r ;;
                     setitem racc r (a + b)) ;;
        a <- getitem racc (r_row - 1) ;;
        racc <- setitem racc r_row (a + 1) ;;
        Ok (r_row, rnaz, racc)
   end, self).

(** The first lines that [ReinhartCurveSymmetry.clusters] and
    [ReinhartRotSymmetry.clusters] have in common: one list of bins per
    row, the rows in reverse order.  The array [clust] is created
    without contents; every cell is written before it is read, the empty
    list stands for a cell not written yet. *)
Definition rows (self : SymmetryBase) (numCoeff : Z)
  : result (Z * Clusters) * SymmetryBase :=
  let '(patched, self) := patches self numCoeff in
  ('(r_row, rnaz, racc) <- patched ;;
   let clust : Clusters := repeat [] (Z.to_nat (r_row + 1)) in
   a <- getitem racc 0 ;;
   clust <- setitem clust r_row (range 0 a) ;;
   clust <- for_each (range 1 (r_row + 1)) clust
              (fun i clust =>
                 lo <- getitem racc (i - 1) ;;
                 hi <- getitem racc i ;;
                 setitem clust (r_row - i) (range lo hi)) ;;
   Ok (r_row, clust), self).

(** [C = []; for i in range(lo, hi): for j in range(len(clust[i])):
    C.append(clust[i][j])] *)
Definition gather (clust : Clusters) (lo hi : Z) : result (list Z) :=
  for_each (range lo hi) []
    (fun i C =>
       row <- getitem clust i ;;
       for_each (range 0 (len row)) C
         (fun j C =>
            ci <- getitem clust i ;;
            x <- getitem ci j ;;
            Ok (C ++ [x]))).

Definition ReinhartCurveSymmetry_clusters : method := fun self numCoeff =>
  match cached self numCoeff with
  | Some c => (Ok c, self)
  | None =>
      let '(rowed, self) := rows self numCoeff in
      let init :=
        '(r_row, clust) <- rowed ;;
        CLUST0 <- getitem clust 0 ;;
        CLUST3 <- getitem clust 1 ;;
        CLUST6 <- getitem clust 2 ;;
        CLUST9 <- getitem clust 3 ;;
        CLUST10 <- gather clust 4 5 ;;
        CLUST20 <- gather clust 5 8 ;;
        CLUST30 <- gather clust 8 11 ;;
        CLUST40 <- gather clust 11 14 ;;
        CLUST44 <- getitem clust 14 ;;
        CLUST47 <- getitem clust 15 ;;
        CLUST50 <- getitem clust 16 ;;
        CLUST53 <- getitem clust 17 ;;
        CLUST56 <- getitem clust 18 ;;
        CLUST60 <- gather clust 19 21 ;;
        CLUST70 <- gather clust 21 29 ;;
        Ok [CLUST0; CLUST3; CLUST6; CLUST9; CLUST10; CLUST20; CLUST30;
            CLUST40; CLUST44; CLUST47; CLUST50; CLUST53; CLUST56; CLUST60;
            CLUST70] in
      match init with
      | Raise e => (Raise e, self)
      | Ok clusters =>
          (* the method stores the size in [_numCoeffs], an attribute that
             nothing reads; [_numCoeff] keeps its value *)
          (Ok clusters,
           {| _resolution := _resolution self; _numCoeff := _numCoeff self;
              _clusters := Some clusters; _numCoeffs := Some numCoeff |})
      end
  end.

Definition ReinhartRotSymmetry_clusters : method := fun self numCoeff =>
  match cached self numCoeff with
  | Some c => (Ok c, self)
  | None =>
      match rows self numCoeff with
      | (Raise e, self) => (Raise e, self)
      | (Ok (r_row, clust), self) =>
          (Ok clust,
           {| _resolution := _resolution self; _numCoeff := Some numCoeff;
              _clusters := Some clust; _numCoeffs := _numCoeffs self |})
      end
  end.

(** The bins of the thirteen clusters that
    [ReinhartProfSymmetry.clusters] writes out, [CLUST1] to [CLUST13]. *)
Definition ReinhartProfSymmetry_table : Clusters :=
  let CLUST1 :=
    [86; 87; 88; 89; 90; 207; 208; 209] in
  let CLUST2 :=
    [81; 82; 83; 84; 85; 91; 92; 93; 94; 95; 201; 202; 203; 204; 205;
     206; 210; 211; 212; 213; 214; 215; 322; 323; 324; 325; 326; 327;
     328; 329; 330; 331; 332; 333; 334; 442; 443; 444; 445; 446; 447;
     448; 449; 450; 451; 452; 453; 454; 563; 564; 565; 566; 567; 568;
     569; 570; 571; 572; 573; 684; 685; 686; 687; 688; 689; 690; 691;
     692; 807; 808; 809] in
  let CLUST3 :=
    [76; 77; 78; 79; 80; 96; 97; 98; 99; 100; 196; 197; 198; 199; 200;
     216; 217; 218; 219; 220; 316; 317; 318; 319; 320; 321; 335; 336;
     337; 338; 339; 340; 436; 437; 438; 439; 440; 441; 455; 456; 457;
     458; 459; 460; 557; 558; 559; 560; 561; 562; 574; 575; 576; 577;
     578; 579; 677; 678; 679; 680; 681; 682; 683; 693; 694; 695; 696;
     697; 698; 699; 797; 798; 799; 800; 801; 802; 803; 804; 805; 806;
     810; 811; 812; 813; 814; 815; 816; 817; 818; 819; 918; 919; 920;
     921; 922; 923; 924; 925; 926; 927; 928; 929; 930; 931; 932; 933;
     934; 935; 936; 937; 938; 1023; 1024; 1025; 1026; 1027; 1028;
     1029; 1030; 1031; 1032; 1033; 1034; 1035; 1036; 1037; 1038; 1120;
     1121; 1122; 1123; 1124; 1125; 1126; 1127; 1128; 1129; 1130; 1131;
     1132; 1218; 1219; 1220; 1221; 1222; 1223; 1224; 1225; 1226; 1227] in
  let CLUST4 :=
    [71; 72; 73; 74; 75; 101; 102; 103; 104; 105; 191; 192; 193; 194;
     195; 221; 222; 223; 224; 225; 311; 312; 313; 314; 315; 341; 342;
     343; 344; 345; 431; 432; 433; 434; 435; 461; 462; 463; 464; 465;
     551; 552; 553; 554; 555; 556; 580; 581; 582; 583; 584; 585; 671;
     672; 673; 674; 675; 676; 700; 701; 702; 703; 704; 705; 791; 792;
     793; 794; 795; 796; 820; 821; 822; 823; 824; 825; 912; 913; 914;
     915; 916; 917; 939; 940; 941; 942; 943; 944; 1018; 1019; 1020;
     1021; 1022; 1039; 1040; 1041; 1042; 1043; 1114; 1115; 1116; 1117;
     1118; 1119; 1133; 1134; 1135; 1136; 1137; 1138; 1139; 1210; 1211;
     1212; 1213; 1214; 1215; 1216; 1217; 1228; 1229; 1230; 1231; 1232;
     1233; 1234; 1235; 1307; 1308; 1309; 1310; 1311; 1312; 1313; 1314;
     1315; 1316; 1317; 1318; 1319; 1320; 1321; 1322; 1323; 1324; 1325;
     1326; 1327; 1328; 1329; 1330; 1403; 1404; 1405; 1406; 1407; 1408;
     1409; 1410; 1411; 1412; 1413; 1414; 1415; 1416; 1417; 1418; 1419;
     1420; 1421; 1422; 1423; 1424; 1425; 1426; 1500; 1501; 1502; 1503;
     1504; 1505; 1506; 1507; 1508; 1509; 1510; 1511; 1512; 1513; 1514;
     1515; 1516; 1517; 1518; 1519; 1520; 1521; 1597; 1598; 1599; 1600;
     1601; 1602; 1603; 1604; 1605; 1606; 1607; 1608; 1609; 1610; 1611;
     1612; 1613; 1614; 1615; 1696; 1697; 1698; 1699; 1700; 1701; 1702;
     1703; 1704; 1705; 1706; 1707; 1708; 1709] in
  let CLUST5 :=
    [66; 67; 68; 69; 70; 106; 107; 108; 109; 110; 186; 187; 188; 189;
     190; 226; 227; 228; 229; 230; 306; 307; 308; 309; 310; 346; 347;
     348; 349; 350; 426; 427; 428; 429; 430; 466; 467; 468; 469; 470;
     546; 547; 548; 549; 550; 586; 587; 588; 589; 590; 666; 667; 668;
     669; 670; 706; 707; 708; 709; 710; 786; 787; 788; 789; 790; 826;
     827; 828; 829; 830; 906; 907; 908; 909; 910; 911; 945; 946; 947;
     948; 949; 950; 1013; 1014; 1015; 1016; 1017; 1044; 1045; 1046;
     1047; 1048; 1109; 1110; 1111; 1112; 1113; 1140; 1141; 1142; 1143;
     1144; 1205; 1206; 1207; 1208; 1209; 1236; 1237; 1238; 1239; 1240;
     1301; 1302; 1303; 1304; 1305; 1306; 1331; 1332; 1333; 1334; 1335;
     1336; 1397; 1398; 1399; 1400; 1401; 1402; 1427; 1428; 1429; 1430;
     1431; 1432; 1493; 1494; 1495; 1496; 1497; 1498; 1499; 1522; 1523;
     1524; 1525; 1526; 1527; 1590; 1591; 1592; 1593; 1594; 1595; 1596;
     1616; 1617; 1618; 1619; 1620; 1621; 1622; 1623; 1686; 1687; 1688;
     1689; 1690; 1691; 1692; 1693; 1694; 1695; 1710; 1711; 1712; 1713;
     1714; 1715; 1716; 1717; 1718; 1719; 1769; 1770; 1771; 1772; 1773;
     1774; 1775; 1776; 1777; 1778; 1779; 1780; 1781; 1782; 1783; 1784;
     1785; 1786; 1787; 1788; 1789; 1790; 1791; 1792; 1793; 1841; 1842;
     1843; 1844; 1845; 1846; 1847; 1848; 1849; 1850; 1851; 1852; 1853;
     1854; 1855; 1856; 1857; 1858; 1859; 1860; 1861; 1862; 1863; 1864;
     1865; 1913; 1914; 1915; 1916; 1917; 1918; 1919; 1920; 1921; 1922;
     1923; 1924; 1925; 1926; 1927; 1928; 1929; 1930; 1931; 1932; 1933;
     1934; 1935; 1936; 1986; 1987; 1988; 1989; 1990; 1991; 1992; 1993;
     1994; 1995; 1996; 1997; 1998; 1999; 2000; 2001; 2002; 2003; 2004;
     2005; 2006; 2007; 2047; 2048; 2049; 2050; 2051; 2052; 2053; 2054;
     2055; 2056] in
  let CLUST6 :=
    [61; 62; 63; 64; 65; 111; 112; 113; 114; 115; 181; 182; 183; 184;
     185; 231; 232; 233; 234; 235; 301; 302; 303; 304; 305; 351; 352;
     353; 354; 355; 421; 422; 423; 424; 425; 471; 472; 473; 474; 475;
     541; 542; 543; 544; 545; 591; 592; 593; 594; 595; 661; 662; 663;
     664; 665; 711; 712; 713; 714; 715; 781; 782; 783; 784; 785; 831;
     832; 833; 834; 835; 901; 902; 903; 904; 905; 951; 952; 953; 954;
     955; 1009; 1010; 1011; 1012; 1049; 1050; 1051; 1052; 1105; 1106;
     1107; 1108; 1145; 1146; 1147; 1148; 1201; 1202; 1203; 1204; 1241;
     1242; 1243; 1244; 1297; 1298; 1299; 1300; 1337; 1338; 1339; 1340;
     1393; 1394; 1395; 1396; 1433; 1434; 1435; 1436; 1489; 1490; 1491;
     1492; 1528; 1529; 1530; 1531; 1532; 1585; 1586; 1587; 1588; 1589;
     1624; 1625; 1626; 1627; 1628; 1681; 1682; 1683; 1684; 1685; 1720;
     1721; 1722; 1723; 1724; 1765; 1766; 1767; 1768; 1794; 1795; 1796;
     1797; 1837; 1838; 1839; 1840; 1866; 1867; 1868; 1869; 1909; 1910;
     1911; 1912; 1937; 1938; 1939; 1940; 1941; 1981; 1982; 1983; 1984;
     1985; 2008; 2009; 2010; 2011; 2012; 2013; 2041; 2042; 2043; 2044;
     2045; 2046; 2057; 2058; 2059; 2060; 2061; 2062; 2089; 2090; 2091;
     2092; 2093; 2094; 2095; 2096; 2097; 2098; 2099; 2100; 2101; 2102;
     2103; 2104; 2105; 2106; 2107; 2108; 2109; 2110; 2137; 2138; 2139;
     2140; 2141; 2142; 2143; 2144; 2145; 2146; 2147; 2148; 2149; 2150;
     2151; 2152; 2153; 2154; 2155; 2156; 2157; 2158; 2185; 2186; 2187;
     2188; 2189; 2190; 2191; 2192; 2193; 2194; 2195; 2196; 2197; 2198;
     2199; 2200; 2201; 2202; 2203; 2204; 2205; 2206; 2221; 2222; 2223;
     2224; 2225; 2226; 2227; 2228; 2229; 2230; 2246; 2247; 2248; 2249;
     2250; 2251; 2252; 2253; 2254] in
  let CLUST7 :=
    [0; 56; 57; 58; 59; 60; 116; 117; 118; 119; 120; 176; 177; 178;
     179; 180; 236; 237; 238; 239; 240; 296; 297; 298; 299; 300; 356;
     357; 358; 359; 360; 416; 417; 418; 419; 420; 476; 477; 478; 479;
     480; 536; 537; 538; 539; 540; 596; 597; 598; 599; 600; 656; 657;
     658; 659; 660; 716; 717; 718; 719; 720; 776; 777; 778; 779; 780;
     836; 837; 838; 839; 840; 896; 897; 898; 899; 900; 956; 957; 958;
     959; 960; 1005; 1006; 1007; 1008; 1053; 1054; 1055; 1056; 1101;
     1102; 1103; 1104; 1149; 1150; 1151; 1152; 1197; 1198; 1199; 1200;
     1245; 1246; 1247; 1248; 1293; 1294; 1295; 1296; 1341; 1342; 1343;
     1344; 1389; 1390; 1391; 1392; 1437; 1438; 1439; 1440; 1485; 1486;
     1487; 1488; 1533; 1534; 1535; 1536; 1581; 1582; 1583; 1584; 1629;
     1630; 1631; 1632; 1677; 1678; 1679; 1680; 1725; 1726; 1727; 1728;
     1762; 1763; 1764; 1798; 1799; 1800; 1834; 1835; 1836; 1870; 1871;
     1872; 1906; 1907; 1908; 1942; 1943; 1944; 1978; 1979; 1980; 2014;
     2015; 2016; 2039; 2040; 2063; 2064; 2087; 2088; 2111; 2112; 2135;
     2136; 2159; 2160; 2183; 2184; 2207; 2208; 2219; 2220; 2231; 2232;
     2233; 2243; 2244; 2245; 2255; 2256; 2257; 2258; 2259; 2260; 2261;
     2262; 2263; 2264; 2265; 2266; 2267; 2268; 2269; 2270; 2271; 2272;
     2273; 2274; 2275; 2276; 2277; 2278; 2279; 2280; 2281; 2282; 2283;
     2284; 2285; 2286; 2287; 2288; 2289; 2290; 2291; 2292; 2293; 2294;
     2295; 2296; 2297; 2298; 2299; 2300; 2301; 2302; 2303; 2304] in
  let CLUST8 :=
    [1; 2; 3; 4; 5; 51; 52; 53; 54; 55; 121; 122; 123; 124; 125; 171;
     172; 173; 174; 175; 241; 242; 243; 244; 245; 291; 292; 293; 294;
     295; 361; 362; 363; 364; 365; 411; 412; 413; 414; 415; 481; 482;
     483; 484; 485; 531; 532; 533; 534; 535; 601; 602; 603; 604; 605;
     651; 652; 653; 654; 655; 721; 722; 723; 724; 725; 771; 772; 773;
     774; 775; 841; 842; 843; 844; 845; 891; 892; 893; 894; 895; 961;
     962; 963; 964; 1001; 1002; 1003; 1004; 1057; 1058; 1059; 1060;
     1097; 1098; 1099; 1100; 1153; 1154; 1155; 1156; 1193; 1194; 1195;
     1196; 1249; 1250; 1251; 1252; 1289; 1290; 1291; 1292; 1345; 1346;
     1347; 1348; 1385; 1386; 1387; 1388; 1441; 1442; 1443; 1444; 1480;
     1481; 1482; 1483; 1484; 1537; 1538; 1539; 1540; 1541; 1576; 1577;
     1578; 1579; 1580; 1633; 1634; 1635; 1636; 1637; 1672; 1673; 1674;
     1675; 1676; 1729; 1730; 1731; 1732; 1758; 1759; 1760; 1761; 1801;
     1802; 1803; 1804; 1830; 1831; 1832; 1833; 1873; 1874; 1875; 1876;
     1901; 1902; 1903; 1904; 1905; 1945; 1946; 1947; 1948; 1949; 1972;
     1973; 1974; 1975; 1976; 1977; 2017; 2018; 2019; 2020; 2021; 2022;
     2033; 2034; 2035; 2036; 2037; 2038; 2065; 2066; 2067; 2068; 2069;
     2070; 2071; 2072; 2073; 2074; 2075; 2076; 2077; 2078; 2079; 2080;
     2081; 2082; 2083; 2084; 2085; 2086; 2113; 2114; 2115; 2116; 2117;
     2118; 2119; 2120; 2121; 2122; 2123; 2124; 2125; 2126; 2127; 2128;
     2129; 2130; 2131; 2132; 2133; 2134; 2161; 2162; 2163; 2164; 2165;
     2166; 2167; 2168; 2169; 2170; 2171; 2172; 2173; 2174; 2175; 2176;
     2177; 2178; 2179; 2180; 2181; 2182; 2209; 2210; 2211; 2212; 2213;
     2214; 2215; 2216; 2217; 2218; 2234; 2235; 2236; 2237; 2238; 2239;
     2240; 2241; 2242] in
  let CLUST9 :=
    [6; 7; 8; 9; 10; 46; 47; 48; 49; 50; 126; 127; 128; 129; 130; 166;
     167; 168; 169; 170; 246; 247; 248; 249; 250; 286; 287; 288; 289;
     290; 366; 367; 368; 369; 370; 406; 407; 408; 409; 410; 486; 487;
     488; 489; 490; 526; 527; 528; 529; 530; 606; 607; 608; 609; 610;
     646; 647; 648; 649; 650; 726; 727; 728; 729; 730; 766; 767; 768;
     769; 770; 846; 847; 848; 849; 850; 851; 885; 886; 887; 888; 889;
     890; 965; 966; 967; 968; 969; 996; 997; 998; 999; 1000; 1061;
     1062; 1063; 1064; 1065; 1092; 1093; 1094; 1095; 1096; 1157; 1158;
     1159; 1160; 1161; 1188; 1189; 1190; 1191; 1192; 1253; 1254; 1255;
     1256; 1257; 1258; 1283; 1284; 1285; 1286; 1287; 1288; 1349; 1350;
     1351; 1352; 1353; 1354; 1379; 1380; 1381; 1382; 1383; 1384; 1445;
     1446; 1447; 1448; 1449; 1450; 1451; 1474; 1475; 1476; 1477; 1478;
     1479; 1542; 1543; 1544; 1545; 1546; 1547; 1548; 1568; 1569; 1570;
     1571; 1572; 1573; 1574; 1575; 1638; 1639; 1640; 1641; 1642; 1643;
     1644; 1645; 1646; 1647; 1662; 1663; 1664; 1665; 1666; 1667; 1668;
     1669; 1670; 1671; 1733; 1734; 1735; 1736; 1737; 1738; 1739; 1740;
     1741; 1742; 1743; 1744; 1745; 1746; 1747; 1748; 1749; 1750; 1751;
     1752; 1753; 1754; 1755; 1756; 1757; 1805; 1806; 1807; 1808; 1809;
     1810; 1811; 1812; 1813; 1814; 1815; 1816; 1817; 1818; 1819; 1820;
     1821; 1822; 1823; 1824; 1825; 1826; 1827; 1828; 1829; 1877; 1878;
     1879; 1880; 1881; 1882; 1883; 1884; 1885; 1886; 1887; 1888; 1889;
     1890; 1891; 1892; 1893; 1894; 1895; 1896; 1897; 1898; 1899; 1900;
     1950; 1951; 1952; 1953; 1954; 1955; 1956; 1957; 1958; 1959; 1960;
     1961; 1962; 1963; 1964; 1965; 1966; 1967; 1968; 1969; 1970; 1971;
     2023; 2024; 2025; 2026; 2027; 2028; 2029; 2030; 2031; 2032] in
  let CLUST10 :=
    [11; 12; 13; 14; 15; 41; 42; 43; 44; 45; 131; 132; 133; 134; 135;
     161; 162; 163; 164; 165; 251; 252; 253; 254; 255; 281; 282; 283;
     284; 285; 371; 372; 373; 374; 375; 401; 402; 403; 404; 405; 491;
     492; 493; 494; 495; 496; 520; 521; 522; 523; 524; 525; 611; 612;
     613; 614; 615; 616; 640; 641; 642; 643; 644; 645; 731; 732; 733;
     734; 735; 736; 760; 761; 762; 763; 764; 765; 852; 853; 854; 855;
     856; 857; 879; 880; 881; 882; 883; 884; 970; 971; 972; 973; 974;
     991; 992; 993; 994; 995; 1066; 1067; 1068; 1069; 1070; 1071;
     1085; 1086; 1087; 1088; 1089; 1090; 1091; 1162; 1163; 1164; 1165;
     1166; 1167; 1168; 1169; 1180; 1181; 1182; 1183; 1184; 1185; 1186;
     1187; 1259; 1260; 1261; 1262; 1263; 1264; 1265; 1266; 1267; 1268;
     1269; 1270; 1271; 1272; 1273; 1274; 1275; 1276; 1277; 1278; 1279;
     1280; 1281; 1282; 1355; 1356; 1357; 1358; 1359; 1360; 1361; 1362;
     1363; 1364; 1365; 1366; 1367; 1368; 1369; 1370; 1371; 1372; 1373;
     1374; 1375; 1376; 1377; 1378; 1452; 1453; 1454; 1455; 1456; 1457;
     1458; 1459; 1460; 1461; 1462; 1463; 1464; 1465; 1466; 1467; 1468;
     1469; 1470; 1471; 1472; 1473; 1549; 1550; 1551; 1552; 1553; 1554;
     1555; 1556; 1557; 1558; 1559; 1560; 1561; 1562; 1563; 1564; 1565;
     1566; 1567; 1648; 1649; 1650; 1651; 1652; 1653; 1654; 1655; 1656;
     1657; 1658; 1659; 1660; 1661] in
  let CLUST11 :=
    [16; 17; 18; 19; 20; 36; 37; 38; 39; 40; 136; 137; 138; 139; 140;
     156; 157; 158; 159; 160; 256; 257; 258; 259; 260; 261; 275; 276;
     277; 278; 279; 280; 376; 377; 378; 379; 380; 381; 395; 396; 397;
     398; 399; 400; 497; 498; 499; 500; 501; 502; 514; 515; 516; 517;
     518; 519; 617; 618; 619; 620; 621; 622; 623; 633; 634; 635; 636;
     637; 638; 639; 737; 738; 739; 740; 741; 742; 743; 744; 745; 746;
     750; 751; 752; 753; 754; 755; 756; 757; 758; 759; 858; 859; 860;
     861; 862; 863; 864; 865; 866; 867; 868; 869; 870; 871; 872; 873;
     874; 875; 876; 877; 878; 975; 976; 977; 978; 979; 980; 981; 982;
     983; 984; 985; 986; 987; 988; 989; 990; 1072; 1073; 1074; 1075;
     1076; 1077; 1078; 1079; 1080; 1081; 1082; 1083; 1084; 1170; 1171;
     1172; 1173; 1174; 1175; 1176; 1177; 1178; 1179] in
  let CLUST12 :=
    [21; 22; 23; 24; 25; 31; 32; 33; 34; 35; 141; 142; 143; 144; 145;
     146; 150; 151; 152; 153; 154; 155; 262; 263; 264; 265; 266; 267;
     268; 269; 270; 271; 272; 273; 274; 382; 383; 384; 385; 386; 387;
     388; 389; 390; 391; 392; 393; 394; 503; 504; 505; 506; 507; 508;
     509; 510; 511; 512; 513; 624; 625; 626; 627; 628; 629; 630; 631;
     632; 747; 748; 749] in
  let CLUST13 :=
    [26; 27; 28; 29; 30; 147; 148; 149] in
  [CLUST1; CLUST2; CLUST3; CLUST4; CLUST5; CLUST6; CLUST7; CLUST8;
   CLUST9; CLUST10; CLUST11; CLUST12; CLUST13].

Definition ReinhartProfSymmetry_clusters : method := fun self numCoeff =>
  match cached self numCoeff with
  | Some c => (Ok c, self)
  | None =>
      let clusters := ReinhartProfSymmetry_table in
      (Ok clusters,
       {| _resolution := _resolution self; _numCoeff := Some numCoeff;
          _clusters := Some clusters; _numCoeffs := _numCoeffs self |})
  end.

(** ** FullResSymmetry *)

Section Solver.

Import Fisheye.

(** The solver that [idx2Pix] calls. *)
Variable newton : (R -> R) -> R -> (R -> R) -> R.

(** [radians(x)] *)
Definition radians (x : R) : R := (x * (PI / 180))%R.

(** [digitize(x, bins)] for one value and increasing bins: the number
    of the first bin edge above [x], the number of edges if there is
    none. *)
Fixpoint digitize (x : R) (bins : list R) : Z :=
  match bins with
  | [] => 0
  | b :: rest => if Rlt_dec x b then 0 else 1 + digitize x rest
  end.

(** [flatnonzero(a)]: the positions of the true entries. *)
Definition flatnonzero (a : list bool) : list Z :=
  map fst (filter snd (enumerate a)).

Definition zerosR (n : Z) : list R := repeat 0%R (Z.to_nat n).

Definition FullResSymmetry_clusters : method := fun self numCoeff =>
  match cached self numCoeff with
  | Some c => (Ok c, self)
  | None =>
      let CLUSTTHETAS := map (fun i => radians (IZR i)) (range 0 80) in
      if numCoeff <? 0 then
        (Raise (ValueError "negative dimensions are not allowed"), self)
      else
        let coeffThetas := zerosR numCoeff in
        let rad := int (sqrt (IZR numCoeff / PI) + 1) in
        let self :=
          {| _resolution := Some (as_int rad); _numCoeff := _numCoeff self;
             _clusters := _clusters self; _numCoeffs := _numCoeffs self |} in
        let init :=
          coeffThetas <- for_each (range 0 numCoeff) coeffThetas
            (fun idx coeffThetas =>
               match idx2Pix newton idx rad with
               | None => Raise (TypeError "unsupported operand type")
               | Some (x, y) =>
                   let '(_, _, Dz) :=
                     vwRay (0.5 * IZR x / IZR rad, 0.5 * IZR y / IZR rad)%R in
                   setitem coeffThetas idx (acos Dz)
               end) ;;
          let thetaBins :=
            map (fun t => digitize t CLUSTTHETAS - 1) coeffThetas in
          for_each (range 0 (len CLUSTTHETAS)) []
            (fun i clusters =>
               Ok (clusters ++
                   [flatnonzero (map (fun b => b =? i) thetaBins)])) in
        match init with
        | Raise e => (Raise e, self)
        | Ok clusters =>
            (Ok clusters,
             {| _resolution := _resolution self; _numCoeff := Some numCoeff;
                _clusters := Some clusters; _numCoeffs := _numCoeffs self |})
        end
  end.

End Solver.

End Symm.

(* ------------------------------------------------------------------------ *)
(** * reinhartSolidAngles.py *)

Module SolidAngles.

Local Open Scope R_scope.

(** [linspace(start, stop, num, retstep = True)]: the samples and the
    step between them. *)
Definition linspace (start stop : R) (num : Z) : result (list R * R) :=
  if (num <? 0)%Z then
    Raise (ValueError "Number of samples must be non-negative")
  else
    let step := (stop - start) / IZR (num - 1) in
    Ok (map (fun k => start + IZR k * step) (range 0 num), step).

Definition zeros (n : Z) : list R := repeat 0 (Z.to_nat n).

(** [a[1:-1]] *)
Definition inner {A : Type} (a : list A) : list A := removelast (tl a).

(** [a[1:] = v]: the shapes have to agree, a single value is broadcast. *)
Definition setitem_from1 {A : Type} (a v : list A) : result (list A) :=
  let n := length (tl a) in
  if Nat.eqb (length v) n then Ok (firstn 1 a ++ v)
  else
    match v with
    | [x] => Ok (firstn 1 a ++ repeat x n)
    | _ => Raise (ValueError "could not broadcast input array")
    end.

(** [reinhartSolidAngles(MF)], returning [(dOmega, cosOmega)]. *)
Definition reinhartSolidAngles (MF : Z) : result (list R * list R) :=
  let nBins := (MF ^ 2 * 144 + 1)%Z in
  '(polarAngles, alpha) <-
    linspace (-0.5 * PI) (0.5 * PI) (2 * MF * 7 + 2) ;;
  let polarAngles := zeros 1 ++ filter (fun a => Rgtb a 0) polarAngles in
  let nPolar := len polarAngles in
  let azimuthDivs :=
    [1%Z] ++ flat_map (fun i => map (fun r => (MF * i)%Z) (range 0 MF))
                      [6; 12; 18; 24; 24; 30; 30]%Z in
  let polarAngM := zeros (nPolar - 1) in
  polarAngM <-
    setitem_from1 polarAngM
      (map (fun '(a, b) => 0.5 * (a + b))
           (combine (inner polarAngles) (skipn 2 polarAngles))) ;;
  let dOmega := zeros nBins in
  let cosOmega := zeros nBins in
  theta1 <- getitem polarAngles 1 ;;
  dOmega <- setitem dOmega 0 (2 * PI * (1 - cos theta1)) ;;
  dOmega0 <- getitem dOmega 0 ;;
  cosOmega <- setitem cosOmega 0 (PI * (1 - cos theta1 ^ 2) / dOmega0) ;;
  rest <- for_each (range 1 (nPolar - 1)) []
            (fun t rest =>
               n <- getitem azimuthDivs t ;;
               for_each (range 0 n) rest
                 (fun p rest =>
                    m <- getitem polarAngM t ;;
                    d <- getitem azimuthDivs t ;;
                    Ok (rest ++ [sin m * alpha * 2 * PI / IZR d]))) ;;
  dOmega <- setitem_from1 dOmega rest ;;
  rest <- for_each (range 1 (nPolar - 1)) []
            (fun t rest =>
               n <- getitem azimuthDivs t ;;
               for_each (range 0 n) rest
                 (fun p rest =>
                    m <- getitem polarAngM t ;;
                    Ok (rest ++ [cos m]))) ;;
  cosOmega <- setitem_from1 cosOmega rest ;;
  Ok (rev dOmega, rev cosOmega).

(** [a.sum()] and [(a * b).sum()] of the caller. *)
Definition sum (a : list R) : R := fold_left Rplus a 0.

Definition mul (a b : list R) : list R :=
  map (fun '(x, y) => x * y) (combine a b).

(** The two sums that the script prints for a subdivision factor:
    [dOmega.sum()] and [(dOmega * cosOmega).sum()]. *)
Definition sums (MF : Z) : result (R * R) :=
  '(dOmega, cosOmega) <- reinhartSolidAngles MF ;;
  Ok (sum dOmega, sum (mul dOmega cosOmega)).

End SolidAngles.

(* ------------------------------------------------------------------------ *)
(** * gdivmeas_fullres.py: running the external commands *)

Module Shell.

(** What [doItBabee] does to the outside world, in the order it does
    it: a line printed ([Echo]), a command started with [os.popen] or run with
    [os.system], a file opened. *)
Inductive event : Type :=
| Echo (line : string)
| Popen (command : string)
| System (command : string)
| Open (path : string).

(** What the variable [ret] holds: the file object of a pipe or of an
    opened file, or an exit status. *)
Inductive value : Type :=
| Pipe (command : string)
| File (path : string)
| Status (n : Z).

(** How the call ends: a value is returned, or [return ret] finds [ret]
    unbound. *)
Inductive outcome : Type :=
| Return (v : value)
| UnboundLocalError.

(** [sep.join(l)] *)
Fixpoint join (sep : string) (l : list string) : string :=
  match l with
  | [] => EmptyString
  | [x] => x
  | x :: t => (x ++ sep ++ join sep t)%string
  end.

(** The separator [' |\n']. *)
Definition pipe_separator : string :=
  (" |" ++ String (Ascii.ascii_of_nat 10) EmptyString)%string.

(** One iteration of the loop of [doItBabee] on the command [c]; the
    exit status that [os.system] returns is given by [system], from what
    has happened so far and the command. *)
Definition step (system : list event -> string -> Z)
           (echo dummy pipe : bool)
           (state : list event * option value) (c : string)
  : list event * option value :=
  let '(log, ret) := state in
  let log := if echo || dummy then log ++ [Echo c] else log in
  if negb dummy then
    if pipe then (log ++ [Popen c], Some (Pipe c))
    else (log ++ [System c], Some (Status (system log c)))
  else
    if pipe then (log ++ [Open "/dev/null"], Some (File "/dev/null"))
    else (log, Some (Status 0)).

(** [doItBabee(commands, echo, dummy, pipe)]: the events and the
    outcome. *)
Definition doItBabee (system : list event -> string -> Z)
           (commands : list string) (echo dummy pipe : bool)
  : list event * outcome :=
  let cList := if pipe then [join pipe_separator commands] else commands in
  let '(log, ret) := fold_left (step system echo dummy pipe) cList ([], None) in
  (log,
   match ret with
   | Some v => Return v
   | None => UnboundLocalError
   end).

(** The commands that a sequence of events has handed to the shell. *)
Definition executed (log : list event) : list string :=
  flat_map (fun e => match e with
                     | Popen c => [c]
                     | System c => [c]
                     | _ => []
                     end) log.

(** The lines that a sequence of events has printed. *)
Definition printed (log : list event) : list string :=
  flat_map (fun e => match e with Echo c => [c] | _ => [] end) log.

End Shell.

(* ------------------------------------------------------------------------ *)
(** * numpy on arrays of floats *)

Module Numpy.

Local Open Scope R_scope.

(** A float that a division of numpy returns: a number, an infinity or
    not-a-number. *)
Inductive npreal : Type :=
| Number (x : R)
| Infinity (negative : bool)
| NotANumber.

(** [x / t] of numpy for finite [x] and [t]. *)
Definition divide (x t : R) : npreal :=
  if Req_dec_T t 0 then
    if Req_dec_T x 0 then NotANumber else Infinity (Rltb x 0)
  else Number (x / t).

(** [a.any()] *)
Definition any (a : list R) : bool :=
  existsb (fun x => if Req_dec_T x 0 then false else true) a.

End Numpy.

(* ------------------------------------------------------------------------ *)
(** * gdivsim-reinhart.py: from radiance contributions to coefficients *)

Module Simulate.

Import SolidAngles Numpy.
Local Open Scope R_scope.

(** Reinhart subdivision factor of the script. *)
Definition MF : Z := 4.

(** How [getCoeffs] can fail after the contributions are read: with the
    exception it raises itself, or with one that numpy raises. *)
Inductive failure : Type :=
| Exception (msg : string)
| Numpy (e : exn).

Inductive outcome (A : Type) : Type :=
| Done (a : A)
| Failed (f : failure).

Arguments Done {A} a.
Arguments Failed {A} f.

(** [getCoeffs], from the point where the radiance contributions have
    been read from the pipe: what is written to the three files, the
    normalised radiance contributions, the irradiance and the
    coefficients.  The two divisors of the first division, [dOmega.sum()]
    and the entries of [dOmega / dOmega.sum()], are positive for the
    subdivision factor of the script, so that this division is the
    division of real numbers. *)
Definition getCoeffs (radContrib : list R)
  : outcome (list R * R * list npreal) :=
  if negb (any radContrib) then Failed (Exception "zero contributions")
  else
    match reinhartSolidAngles MF with
    | Raise e => Failed (Numpy e)
    | Ok (dOmega, cosOmega) =>
        let weights := map (fun d => d / sum dOmega) dOmega in
        if negb (len radContrib =? len weights)%Z then
          Failed (Numpy (ValueError "operands could not be broadcast together"))
        else
          let radContrib :=
            map (fun '(x, w) => x / w) (combine radContrib weights) in
          let irradContrib := mul (mul radContrib dOmega) cosOmega in
          let irrad := sum irradContrib in
          let coeffs := map (fun x => divide x irrad) irradContrib in
          Done (radContrib, irrad, coeffs)
    end.

End Simulate.

(* ------------------------------------------------------------------------ *)
(** * gdivclust.py: one clustered vector per coefficient file *)

Module Cluster.

Import Float Symm.

(** How the script ends: with the usage message, because the output file
    exists, with an exception that nothing catches (the first call of
    [clusterCoeffs], outside the [try]), with the error message of the
    [except] clause, or with the array that it saves. *)
Inductive outcome : Type :=
| Usage
| Output_exists
| Uncaught (e : exn)
| Error (e : exn)
| Saved (clustArr : list (list float)).

Section Script.

(** [a.sum()] of numpy. *)
Variable sum : list float -> float.

(** The solver that [idx2Pix] calls. *)
Variable newton : (R -> R) -> R -> (R -> R) -> R.

(** [symm = FullResSymmetry()]: the class of the object that the script
    creates. *)
Definition symm : method := FullResSymmetry_clusters newton.

(** The main program, for the numbers that the files [argv[1:-1]] hold
    and for what [os.path.exists] answers for the output file
    [argv[-1]]. *)
Definition main (output_exists : bool) (coeffFiles : list (list float))
  : outcome :=
  match coeffFiles with
  | [] => Usage
  | first :: _ =>
      if output_exists then Output_exists
      else
        let numCoeffFiles := len coeffFiles in
        match clusterCoeffs sum symm new first with
        | (Raise e, _) => Uncaught e
        | (Ok clustVec, self) =>
            let numClust := len clustVec in
            let clustArr :=
              repeat (repeat (Zero false) (Z.to_nat numClust))
                     (Z.to_nat numCoeffFiles) in
            let filled :=
              for_each (enumerate coeffFiles) (self, clustArr)
                (fun '(i, coeffFile) '(self, clustArr) =>
                   match clusterCoeffs sum symm self coeffFile with
                   | (Raise e, _) => Raise e
                   | (Ok clustVec, self) =>
                       if negb (numClust =? len clustVec) then
                         Raise (ValueError
                                  "Cluster dimensions don't match coefficient files")
                       else
                         clustArr <- setitem clustArr i clustVec ;;
                         Ok (self, clustArr)
                   end) in
            match filled with
            | Raise e => Error e
            | Ok (_, clustArr) => Saved clustArr
            end
        end
  end.

End Script.

End Cluster.

(* ------------------------------------------------------------------------ *)
(** * gdivmeas_fullres.py: from the pixels of the image to coefficients *)

Module Measure.

Import Fisheye Numpy.
Local Open Scope R_scope.

(** How [pixOmega] and [getCoeffs] can fail: with the exception that
    [getCoeffs] raises itself, with an exception of an array access, or
    with a division by the integer zero. *)
Inductive failure : Type :=
| Exception (msg : string)
| Python (e : exn)
| ZeroDivisionError.

Inductive outcome (A : Type) : Type :=
| Done (a : A)
| Failed (f : failure).

Arguments Done {A} a.
Arguments Failed {A} f.

Definition vec : Type := (R * R * R)%type.

(** [a - b], [cross(a, b)], [sum(a * b)], [norm(a)] and [a / n] for rows
    of three floats. *)
Definition sub (a b : vec) : vec :=
  let '(a1, a2, a3) := a in
  let '(b1, b2, b3) := b in
  (a1 - b1, a2 - b2, a3 - b3).

Definition cross (a b : vec) : vec :=
  let '(a1, a2, a3) := a in
  let '(b1, b2, b3) := b in
  (a2 * b3 - a3 * b2, a3 * b1 - a1 * b3, a1 * b2 - a2 * b1).

Definition dot (a b : vec) : R :=
  let '(a1, a2, a3) := a in
  let '(b1, b2, b3) := b in
  a1 * b1 + a2 * b2 + a3 * b3.

Definition norm (a : vec) : R := sqrt (dot a a).

Definition over (a : vec) (n : R) : vec :=
  let '(a1, a2, a3) := a in (a1 / n, a2 / n, a3 / n).

(** [roll(a, shift = -1, axis = 0)]: the rows move up by one, the first
    row becomes the last. *)
Definition roll {A : Type} (a : list A) : list A := tl a ++ firstn 1 a.

(** Operations row by row. *)
Definition rowwise {A B C : Type} (f : A -> B -> C) (a : list A) (b : list B)
  : list C :=
  map (fun '(x, y) => f x y) (combine a b).

(** [pixOmega(pix, radius)] *)
Definition pixOmega (pix : Z * Z) (radius : Z) : outcome R :=
  let '(x, y) := pix in
  let res := (2 * radius)%Z in
  if (res =? 0)%Z then Failed ZeroDivisionError
  else
    let x1 := (IZR x - 0.5) / IZR res in
    let y1 := (IZR y - 0.5) / IZR res in
    let x2 := (IZR x + 0.5) / IZR res in
    let y2 := (IZR y + 0.5) / IZR res in
    let pixVerts := [(x1, y1); (x2, y1); (x2, y2); (x1, y2)] in
    let pixEdges := map vwRay pixVerts in
    let pixEdges2 := rowwise sub (roll pixEdges) pixEdges in
    let pixNormals := rowwise cross pixEdges pixEdges2 in
    let pixNorms := map norm pixNormals in
    if existsb (fun n => Rltb n EPSILON) pixNorms then Done 0
    else
      let pixNormals := rowwise over pixNormals pixNorms in
      let omega :=
        SolidAngles.sum
          (map acos (rowwise dot pixNormals (roll pixNormals))) - 2 * PI in
      Done (Rabs omega).

(** The image radius that [getCoeffs] derives from the resolution that
    [getinfo -d] prints; [None] stands for an empty answer. *)
Definition image_radius (resolution : option (Z * Z)) : Z :=
  match resolution with
  | Some (ny, nx) => int (0.5 * IZR (Z.min ny nx))
  | None => 0%Z
  end.

(** The body of the loop of [getCoeffs] over the lines of [pvalue]: one
    pixel with its radiance contribution, and the two arrays of bins. *)
Definition record : Type := (Z * Z * R)%type.

Definition bin (rad : Z) (rec : record) (bins : list R * list R)
  : outcome (list R * list R) :=
  let '(radContribs, omegas) := bins in
  let '(x, y, contrib) := rec in
  let pix := (x, y) in
  let idx := pix2Idx pix rad in
  if (0 <=? idx)%Z then
    match setitem radContribs idx contrib with
    | Raise e => Failed (Python e)
    | Ok radContribs =>
        let '(_, _, Dz) := vwRay (0.5 * IZR x / IZR rad, 0.5 * IZR y / IZR rad) in
        if Rlt_dec Dz 0 then Failed (Exception "Valid index outside FoV")
        else
          match pixOmega pix rad with
          | Failed f => Failed f
          | Done omega =>
              match setitem omegas idx (omega * Dz) with
              | Raise e => Failed (Python e)
              | Ok omegas => Done (radContribs, omegas)
              end
          end
    end
  else Done bins.

Fixpoint bins_of (rad : Z) (records : list record) (bins : list R * list R)
  : outcome (list R * list R) :=
  match records with
  | [] => Done bins
  | rec :: rest =>
      match bin rad rec bins with
      | Failed f => Failed f
      | Done bins => bins_of rad rest bins
      end
  end.

(** [getCoeffs], from the resolution and the lines that the two external
    commands print: [None] when it returns without writing ('no
    output'), or what it writes to the three files, the radiance
    contributions, the irradiance and the coefficients. *)
Definition getCoeffs (resolution : option (Z * Z)) (records : list record)
  : outcome (option (list R * R * list npreal)) :=
  let rad := image_radius resolution in
  let numIdx := int (PI * IZR (rad ^ 2) + 0.5) in
  let radContribs := repeat (-1) (Z.to_nat numIdx) in
  let omegas := repeat (-1) (Z.to_nat numIdx) in
  match bins_of rad records (radContribs, omegas) with
  | Failed f => Failed f
  | Done (radContribs, omegas) =>
      let nonEmpty := map (fun c => if Rle_dec 0 c then true else false)
                          radContribs in
      let keep := fun (a : list R) =>
                    map fst (filter snd (combine a nonEmpty)) in
      let radContribs := keep radContribs in
      let omegas := keep omegas in
      if (len radContribs =? 0)%Z then Done None
      else
        let irradContribs := SolidAngles.mul radContribs omegas in
        let irrad := SolidAngles.sum irradContribs in
        let coeffs := map (fun x => divide x irrad) irradContribs in
        Done (Some (radContribs, irrad, coeffs))
  end.

End Measure.

(* ------------------------------------------------------------------------ *)
(** * Vocabulary of the properties *)

Module Spec.

Import Fisheye Float Symm.

(** The clusters [cl] partition the bins [0 .. n-1]: no bin is listed
    twice, neither inside a cluster nor in two clusters, and the bins
    listed are exactly those of [0 .. n-1]. *)
Definition Partition (cl : Clusters) (n : Z) : Prop :=
  NoDup (concat cl) /\ forall x, In x (concat cl) <-> 0 <= x < n.

(** The same, as a test that evaluates. *)
Fixpoint nodupb (l : list Z) : bool :=
  match l with
  | [] => true
  | x :: t => negb (contains t x) && nodupb t
  end.

Definition partitionb (cl : Clusters) (n : Z) : bool :=
  let l := concat cl in
  (len l =? n) && forallb (fun x => (0 <=? x) && (x <? n)) l && nodupb l.

(** The cache of an object is consistent for the method [m] when a hit
    returns what a new object computes for the same size. *)
Definition consistent (m : method) (self : SymmetryBase) : Prop :=
  forall n c, cached self n = Some c -> fst (m new n) = Ok c.

(** The objects that calls of the method [m] can produce from a new
    one. *)
Inductive reachable (m : method) : SymmetryBase -> Prop :=
| reachable_new : reachable m new
| reachable_call (self : SymmetryBase) (n : Z) :
    reachable m self -> reachable m (snd (m self n)).

(** The five symmetry classes. *)
Inductive policy : Type :=
| Klems
| ReinhartRotational
| ReinhartCurve
| ReinhartProfile
| FullResolution.

Definition clusters (newton : (R -> R) -> R -> (R -> R) -> R)
           (p : policy) : method :=
  match p with
  | Klems => KlemsSymmetry_clusters
  | ReinhartRotational => ReinhartRotSymmetry_clusters
  | ReinhartCurve => ReinhartCurveSymmetry_clusters
  | ReinhartProfile => ReinhartProfSymmetry_clusters
  | FullResolution => FullResSymmetry_clusters newton
  end.

(** The sizes for which each class is written: 145 bins for Klems, any
    Reinhart size [144 MF^2 + 1] with [MF >= 1] for the rotational
    symmetry, the Reinhart size of [MF = 4] for the two hand-made ones,
    any number of pixels for the full resolution. *)
Definition supported (p : policy) (n : Z) : Prop :=
  match p with
  | Klems => n = 145
  | ReinhartRotational => exists MF, 1 <= MF /\ n = 144 * MF ^ 2 + 1
  | ReinhartCurve => n = 2305
  | ReinhartProfile => n = 2305
  | FullResolution => 0 <= n
  end.

(** ** The Reinhart rows in closed form *)

(** [tnaz[j]], zero beyond the table. *)
Definition tnaz_at (j : nat) : Z := nth j [30; 30; 24; 24; 18; 12; 6] 0.

(** The sum of [g 0 .. g (k-1)]. *)
Fixpoint psum (g : nat -> Z) (k : nat) : Z :=
  match k with
  | O => 0
  | S k' => psum g k' + g k'
  end.

(** The patches of row [k]: [MF * tnaz[k // MF]]. *)
Definition rnaz_at (MF : Z) (k : nat) : Z := MF * tnaz_at (k / Z.to_nat MF).

(** The first bin of row [i]; one bin past the last row lies the single
    bin of the zenith. *)
Definition bound (MF : Z) (i : nat) : Z :=
  if (i <=? 7 * Z.to_nat MF)%nat then psum (rnaz_at MF) i
  else psum (rnaz_at MF) (7 * Z.to_nat MF) + 1.

(** ** The full resolution clusters in closed form *)

(** The image radius that [FullResSymmetry.clusters] derives from the
    number of pixels. *)
Definition radius (numCoeff : Z) : Z := int (sqrt (IZR numCoeff / PI) + 1).

(** The polar angle of bin [idx]: the pixel of the bin by [idx2Pix], its
    view ray by [vwRay], the arc cosine of the ray's Z component. *)
Definition pixTheta (newton : (R -> R) -> R -> (R -> R) -> R)
           (rad idx : Z) : R :=
  match idx2Pix newton idx rad with
  | Some (x, y) =>
      let '(_, _, Dz) :=
        vwRay (0.5 * IZR x / IZR rad, 0.5 * IZR y / IZR rad)%R in
      acos Dz
  | None => 0%R
  end.

(** An angle in degrees, and the integer below a real number. *)
Definition degrees (x : R) : R := (x * (180 / PI))%R.

Definition floorZ (x : R) : Z := Int_part x.

(** The cluster edges [CLUSTTHETAS]. *)
Definition CLUSTTHETAS : list R := map (fun i => radians (IZR i)) (range 0 80).

(** The equation that [idx2Pix] hands to the solver, and a solver that
    answers the call for bin [idx] at radius [rad] with a root of it. *)
Definition segment_equation (idx rad : Z) (a : R) : R :=
  (2 * IZR (idx - 1) / IZR rad ^ 2 + sin a - a)%R.

Definition solves (newton : (R -> R) -> R -> (R -> R) -> R) (idx rad : Z) : Prop :=
  segment_equation idx rad
    (newton (segment_equation idx rad) PI (fun a => cos a - 1)%R) = 0%R.

(** ** The clustered vector in closed form *)

(** A multiple of [2^-1074], the spacing of the smallest values. *)
Definition on_grid (q : Q) : Prop :=
  exists k : Z, (q == inject_Z k * pow2 (-1074))%Q.

(** A zero or a nonzero number, as opposed to an infinity or
    not-a-number. *)
Definition finite (x : float) : bool :=
  match x with
  | Zero _ | Finite _ => true
  | Inf _ | NaN => false
  end.

(** A value that is not negative: a zero, a positive number of the
    grid, or the positive infinity. *)
Definition nonneg (x : float) : Prop :=
  match x with
  | Zero _ => True
  | Finite q => (0 < q)%Q /\ on_grid q
  | Inf s => s = false
  | NaN => False
  end.

(** The sum of the entries that the additions of the format produce in
    some order and with some bracketing, with or without a zero to start
    from. *)
Inductive summation : list float -> float -> Prop :=
| summation_nil (s : bool) : summation [] (Zero s)
| summation_one (x : float) : summation [x] x
| summation_add (a b : list float) (x y : float) :
    summation a x -> summation b y -> summation (a ++ b) (add x y)
| summation_perm (a b : list float) (x : float) :
    Permutation a b -> summation a x -> summation b x.

(** The exact total of the numbers in a list. *)
Definition total (a : list float) : Q :=
  fold_right (fun x s => (value x + s)%Q) 0%Q a.

(** The number of entries, as a rational. *)
Definition count (l : list float) : Q := inject_Z (Z.of_nat (length l)).

(** The unit roundoff. *)
Definition u : Q := pow2 (-53).

(** The sequential sum, from a positive zero: one of the sums that
    [summation] describes. *)
Definition sum_left (a : list float) : float := fold_left add a (Zero false).

(** [sum] adds the entries up, in an order and with a bracketing of its
    own. *)
Definition adds_up (sum : list float -> float) : Prop :=
  forall a, summation a (sum a).

(** A coefficient that a file can hold: a zero or a positive value of
    the format. *)
Definition coefficient (x : float) : bool :=
  match x with
  | Zero _ => true
  | Finite q => Qle_bool 0 q && is_float x
  | Inf _ | NaN => false
  end.

(** A coefficient that is not zero. *)
Definition nonzero (x : float) : bool :=
  match x with
  | Finite _ => true
  | _ => false
  end.

(** What the accumulation loop leaves in the entry of the cluster [c]:
    the coefficients of the bins [lo, lo+1, ...] that belong to [c],
    added one after the other to [acc]. *)
Fixpoint member_sum_from (c : list Z) (lo : Z) (acc : float)
         (coeffs : list float) : float :=
  match coeffs with
  | [] => acc
  | x :: t =>
      member_sum_from c (lo + 1) (if contains c lo then add acc x else acc) t
  end.

Definition member_sum (c : list Z) (coeffs : list float) : float :=
  member_sum_from c 0 (Zero false) coeffs.

(** The accumulated vector: one such sum per cluster. *)
Definition member_sums (cl : Clusters) (coeffs : list float) : list float :=
  map (fun c => member_sum c coeffs) cl.

(** ** The Reinhart solid angles in closed form *)

(** The polar increment for the subdivision factor [MF]. *)
Definition polar_step (MF : Z) : R := (PI / IZR (14 * MF + 1))%R.

(** The azimuth divisions of row [t], for [t] from 1 to [7 MF]. *)
Definition azimuth_at (MF : Z) (t : Z) : Z :=
  MF * nth (Z.to_nat ((t - 1) / MF)) [6; 12; 18; 24; 24; 30; 30] 0.

(** The solid angle of one bin of row [t] and its cosine. *)
Definition row_dOmega (MF : Z) (t : Z) : R :=
  (sin (IZR t * polar_step MF) * polar_step MF * 2 * PI / IZR (azimuth_at MF t))%R.

Definition row_cosOmega (MF : Z) (t : Z) : R := cos (IZR t * polar_step MF).

(** The solid angle of the polar cap and its cosine entry. *)
Definition cap_dOmega (MF : Z) : R := (2 * PI * (1 - cos (polar_step MF / 2)))%R.

Definition cap_cosOmega (MF : Z) : R :=
  (PI * (1 - cos (polar_step MF / 2) ^ 2) / cap_dOmega MF)%R.

(** The arrays before the final reversal: the cap, then the rows from
    the zenith to the horizon, each bin of a row repeated for every
    azimuth division. *)
Definition rows_of (MF : Z) (f : Z -> R) : list R :=
  flat_map (fun t => repeat (f t) (Z.to_nat (azimuth_at MF t)))
           (range 1 (7 * MF + 1)).

(** The bin [b] lies in exactly one of the clusters [cl], counted by
    position. *)
Definition owned_once (cl : Clusters) (b : Z) : Prop :=
  exists i, (i < length cl)%nat /\ contains (nth i cl []) b = true /\
            forall j, (j < length cl)%nat ->
                      contains (nth j cl []) b = true -> j = i.

(** The body of the accumulation loop of [clusterCoeffs]. *)
Definition accumulate (cl : Clusters)
  : Z * float -> list float -> result (list float) :=
  fun '(coeffIdx, coeff) clustCoeffs =>
    let clustIdx :=
      map fst (filter (fun '(i, c) => contains c coeffIdx) (enumerate cl)) in
    match clustIdx with
    | [] => Raise (ValueError "bin not found")
    | [i] =>
        x <- getitem clustCoeffs i ;;
        setitem clustCoeffs i (add x coeff)
    | _ :: _ :: _ =>
        Raise (ValueError "bin assigned to mutiple clusters")
    end.

(** [a[nonEmpty]]: the entries of an array that a mask selects. *)
Definition keep (nonEmpty : list bool) (a : list R) : list R :=
  map fst (filter snd (combine a nonEmpty)).

End Spec.

(* ======================================================================== *)
(** * Properties *)

Section PyFacts.

Local Open Scope R_scope.

Lemma int_nonneg_spec (x : R) (z : Z) :
  0 <= x -> IZR z <= x < IZR z + 1 -> int x = z.
Proof.
  intros Hx Hz. unfold int.
  destruct (Rle_dec 0 x) as [_|n]; [|contradiction].
  symmetry. apply Int_part_spec. lra.
Qed.

Lemma int_neg_spec (x : R) (z : Z) :
  x < 0 -> IZR z - 1 < x <= IZR z -> int x = z.
Proof.
  intros Hx Hz. unfold int.
  destruct (Rle_dec 0 x) as [H|_]; [lra|].
  assert (E : (- z)%Z = Int_part (- x)).
  { apply Int_part_spec. rewrite opp_IZR. lra. }
  rewrite <- E. lia.
Qed.

End PyFacts.

(* ------------------------------------------------------------------------ *)
(** ** Fisheye indexing *)

Section FisheyeFacts.

Import Fisheye.
Local Open Scope R_scope.

(** At the height of the radius the segment is empty. *)
Lemma alpha_top (r : R) : 0 < r -> alpha r r = 0.
Proof.
  intros Hr. unfold alpha.
  destruct (Rle_dec r r) as [_|n]; [|lra].
  replace (r / r) with 1 by (field; lra).
  rewrite acos_1. lra.
Qed.

Lemma segArea_top (r : R) : 0 < r -> segArea r r = 0.
Proof.
  intros Hr. unfold segArea. rewrite alpha_top by assumption.
  rewrite sin_0. lra.
Qed.

Lemma chordLen_top (r : R) : chordLen r r = 0.
Proof.
  unfold chordLen. destruct (Rle_dec r r) as [_|n]; [|lra].
  replace (r ^ 2 - r ^ 2) with 0 by lra. rewrite sqrt_0. lra.
Qed.

(** The row just below the top one ([v + 1 = radius]): the index is the
    truncation of [u + 1.5] alone. *)
Lemma pix2Idx_second_row (x radius : Z) :
  (0 < radius)%Z ->
  ((x - radius) ^ 2 + (radius - 1) ^ 2 < radius ^ 2)%Z ->
  pix2Idx (x, (2 * radius - 1)%Z) radius = int (IZR (x - radius) + 1.5).
Proof.
  intros Hr Hin. unfold pix2Idx.
  replace (2 * radius - 1 - radius)%Z with (radius - 1)%Z by lia.
  replace (radius - 1 + 1)%Z with radius by lia.
  destruct (Rgt_dec _ _) as [Hgt|_].
  - exfalso. unfold EPSILON in Hgt.
    assert (H1 : ((x - radius) ^ 2 + (radius - 1) ^ 2 + 1 <= radius ^ 2)%Z) by lia.
    apply IZR_le in H1. rewrite plus_IZR in H1. lra.
  - assert (Hr' : 0 < IZR radius) by (apply IZR_lt; assumption).
    rewrite segArea_top, chordLen_top by assumption.
    replace (0 + 0.5) with 0.5 by lra.
    replace (0.5 * 0 + IZR (x - radius) + 1.5) with (IZR (x - radius) + 1.5) by lra.
    rewrite (int_nonneg_spec 0.5 0%Z) by lra.
    reflexivity.
Qed.

Lemma pix2Idx_3_9_5 : pix2Idx (3, 9)%Z 5 = 0%Z.
Proof.
  change (pix2Idx (3, 9)%Z 5) with (pix2Idx (3, 2 * 5 - 1)%Z 5).
  rewrite (pix2Idx_second_row 3 5) by lia.
  apply int_neg_spec; simpl; lra.
Qed.

Lemma pix2Idx_4_9_5 : pix2Idx (4, 9)%Z 5 = 0%Z.
Proof.
  change (pix2Idx (4, 9)%Z 5) with (pix2Idx (4, 2 * 5 - 1)%Z 5).
  rewrite (pix2Idx_second_row 4 5) by lia.
  apply int_nonneg_spec; simpl; lra.
Qed.

Lemma pix2Idx_5_17_9 : pix2Idx (5, 17)%Z 9 = (-2)%Z.
Proof.
  change (pix2Idx (5, 17)%Z 9) with (pix2Idx (5, 2 * 9 - 1)%Z 9).
  rewrite (pix2Idx_second_row 5 9) by lia.
  apply int_neg_spec; simpl; lra.
Qed.

End FisheyeFacts.

Section FisheyeClaims.

Import Fisheye.

(** C1 (round trip [idx2Pix (pix2Idx pix r) r = pix]): refuted by the code
    at radius 5.  The pixels (3,9) and (4,9) both lie inside the circle
    and [pix2Idx] sends both to index 0, so whatever angle the solver
    returns, [idx2Pix 0 5] differs from at least one of them. *)
Theorem pix2Idx_collision_radius5 :
  forall newton : (R -> R) -> R -> (R -> R) -> R,
    pix2Idx (3, 9) 5 = 0 /\
    pix2Idx (4, 9) 5 = 0 /\
    exists pix : Z * Z,
      0 <= pix2Idx pix 5 /\
      idx2Pix newton (pix2Idx pix 5) 5 <> Some pix.
Proof.
  intros newton.
  split; [exact pix2Idx_3_9_5|]. split; [exact pix2Idx_4_9_5|].
  destruct (idx2Pix newton 0 5) as [[x y]|] eqn:E.
  - destruct (Z.eq_dec x 3) as [->|Hx].
    + exists (4, 9). rewrite pix2Idx_4_9_5. split; [lia|].
      rewrite E. intros H. inversion H.
    + exists (3, 9). rewrite pix2Idx_3_9_5. split; [lia|].
      rewrite E. intros H. inversion H. contradiction.
  - exists (3, 9). rewrite pix2Idx_3_9_5. split; [lia|].
    rewrite E. discriminate.
Qed.

(** C10 (every index other than the sentinel -1 lies in
    [0, int(pi*r^2 + 0.5))): refuted by the code at radius 9.  The pixel
    (5,17) lies strictly inside the circle and [pix2Idx] returns -2. *)
Theorem pix2Idx_below_zero_radius9 :
  (5 - 9) ^ 2 + (17 - 9) ^ 2 < 9 ^ 2 /\
  pix2Idx (5, 17) 9 = -2 /\
  pix2Idx (5, 17) 9 <> -1 /\
  ~ (0 <= pix2Idx (5, 17) 9 < numIdx 9).
Proof.
  rewrite pix2Idx_5_17_9. repeat split; lia.
Qed.

End FisheyeClaims.

(* ------------------------------------------------------------------------ *)
(** ** Lists, arrays and loops *)

Section ArrayFacts.

Context {A : Type}.

Lemma len_nonneg (l : list A) : 0 <= len l.
Proof. unfold len. lia. Qed.

Lemma getitem_nth (a : list A) (i : Z) (d : A) :
  0 <= i < len a -> getitem a i = Ok (nth (Z.to_nat i) a d).
Proof.
  intros Hi. unfold getitem, len in *.
  destruct (i <? 0) eqn:E; [lia|]. rewrite E.
  destruct (nth_error a (Z.to_nat i)) as [x|] eqn:En.
  - f_equal. symmetry. apply nth_error_nth. assumption.
  - apply nth_error_None in En. lia.
Qed.

Lemma getitem_out (a : list A) (i : Z) :
  len a <= i -> exists msg, getitem a i = Raise (IndexError msg).
Proof.
  intros Hi. unfold getitem, len in *.
  assert (E : (i <? 0) = false) by lia. rewrite E, E.
  destruct (nth_error a (Z.to_nat i)) as [x|] eqn:En; [|eauto].
  assert (Hlt : (Z.to_nat i < length a)%nat).
  { apply nth_error_Some. rewrite En. discriminate. }
  lia.
Qed.

Lemma setitem_update (a : list A) (i : Z) (x : A) :
  0 <= i < len a -> setitem a i x = Ok (update a (Z.to_nat i) x).
Proof.
  intros Hi. unfold setitem, len in *.
  destruct (i <? 0) eqn:E; [lia|]. rewrite E.
  destruct (Z.of_nat (length a) <=? i) eqn:E2; [lia|]. reflexivity.
Qed.

Lemma update_length (a : list A) (n : nat) (x : A) :
  length (update a n x) = length a.
Proof.
  revert n. induction a as [|h t IH]; intros [|n]; simpl; auto.
Qed.

Lemma update_nth (a : list A) (n k : nat) (x d : A) :
  (n < length a)%nat ->
  nth k (update a n x) d = if Nat.eqb k n then x else nth k a d.
Proof.
  revert n k. induction a as [|h t IH]; intros [|n] [|k] Hn; simpl in *;
    try lia; auto.
  apply IH. lia.
Qed.

Lemma len_update (a : list A) (n : nat) (x : A) : len (update a n x) = len a.
Proof. unfold len. now rewrite update_length. Qed.

Lemma len_repeat (x : A) (n : nat) : len (repeat x n) = Z.of_nat n.
Proof. unfold len. now rewrite repeat_length. Qed.

Lemma len_app (l1 l2 : list A) : len (l1 ++ l2) = len l1 + len l2.
Proof. unfold len. rewrite length_app. lia. Qed.

(** A list is determined by its length and its entries. *)
Lemma list_eq_nth (l1 l2 : list A) (d : A) :
  length l1 = length l2 ->
  (forall k, (k < length l1)%nat -> nth k l1 d = nth k l2 d) ->
  l1 = l2.
Proof.
  intros Hl Hn. apply (nth_ext l1 l2 d d); assumption.
Qed.

End ArrayFacts.

Section RangeFacts.

Lemma range_length (lo hi : Z) : length (range lo hi) = Z.to_nat (hi - lo).
Proof. unfold range. now rewrite length_map, length_seq. Qed.

Lemma len_range (lo hi : Z) : lo <= hi -> len (range lo hi) = hi - lo.
Proof. intros H. unfold len. rewrite range_length. lia. Qed.

Lemma range_empty (lo hi : Z) : hi <= lo -> range lo hi = [].
Proof.
  intros H. unfold range. replace (Z.to_nat (hi - lo)) with 0%nat by lia.
  reflexivity.
Qed.

Lemma range_cons (lo hi : Z) : lo < hi -> range lo hi = lo :: range (lo + 1) hi.
Proof.
  intros H. unfold range.
  replace (Z.to_nat (hi - lo)) with (S (Z.to_nat (hi - (lo + 1)))) by lia.
  simpl. f_equal; [lia|].
  rewrite <- seq_shift, map_map. apply map_ext. intros k. lia.
Qed.

Lemma range_snoc (lo hi : Z) : lo <= hi -> range lo (hi + 1) = range lo hi ++ [hi].
Proof.
  intros H. unfold range.
  replace (Z.to_nat (hi + 1 - lo)) with (S (Z.to_nat (hi - lo))) by lia.
  rewrite seq_S, map_app. simpl. do 2 f_equal. lia.
Qed.

Lemma range_app (a b c : Z) : a <= b -> b <= c -> range a b ++ range b c = range a c.
Proof.
  intros Hab Hbc. unfold range.
  replace (Z.to_nat (c - a)) with (Z.to_nat (b - a) + Z.to_nat (c - b))%nat by lia.
  rewrite seq_app, map_app. f_equal.
  simpl. rewrite <- (Nat.add_0_r (Z.to_nat (b - a))) at 1.
  rewrite Nat.add_0_r.
  replace (seq (Z.to_nat (b - a)) (Z.to_nat (c - b)))
    with (map (fun k => (Z.to_nat (b - a) + k)%nat) (seq 0 (Z.to_nat (c - b)))).
  - rewrite map_map. apply map_ext. intros k. lia.
  - clear. generalize (Z.to_nat (c - b)) as m. generalize (Z.to_nat (b - a)) as s.
    intros s m. revert s. induction m as [|m IH]; intros s; [reflexivity|].
    rewrite !seq_S, !map_app, IH. simpl. reflexivity.
Qed.

Lemma in_range (lo hi x : Z) : In x (range lo hi) <-> lo <= x < hi.
Proof.
  unfold range. rewrite in_map_iff. split.
  - intros [k [<- Hk]]. apply in_seq in Hk. lia.
  - intros H. exists (Z.to_nat (x - lo)). split; [lia|]. apply in_seq. lia.
Qed.

Lemma range_nth (lo hi : Z) (k : nat) (d : Z) :
  (k < Z.to_nat (hi - lo))%nat -> nth k (range lo hi) d = lo + Z.of_nat k.
Proof.
  intros Hk. unfold range.
  rewrite (nth_indep _ d (lo + Z.of_nat 0)) by (rewrite length_map, length_seq; lia).
  rewrite (map_nth (fun k => lo + Z.of_nat k)), seq_nth by lia. f_equal.
Qed.

Lemma NoDup_range (lo hi : Z) : NoDup (range lo hi).
Proof.
  unfold range. apply Finite.Injective_map_NoDup.
  - intros x y H. lia.
  - apply seq_NoDup.
Qed.

End RangeFacts.

Section LoopFacts.

Context {S : Type}.

(** A counted loop with an invariant: if the invariant holds at the
    start and every iteration runs without raising and re-establishes
    it, the loop runs to the end and the invariant holds there. *)
Lemma for_range_invariant (P : nat -> S -> Prop) (lo : Z) (n : nat)
      (body : Z -> S -> result S) (acc : S) :
  P 0%nat acc ->
  (forall k a, (k < n)%nat -> P k a ->
               exists a', body (lo + Z.of_nat k) a = Ok a' /\ P (Datatypes.S k) a') ->
  exists acc', for_each (range lo (lo + Z.of_nat n)) acc body = Ok acc' /\ P n acc'.
Proof.
  revert P lo acc. induction n as [|n IH]; intros P lo acc H0 Hstep.
  - rewrite range_empty by lia. simpl. eauto.
  - rewrite range_cons by lia. simpl.
    destruct (Hstep 0%nat acc ltac:(lia) H0) as [a1 [E1 H1]].
    replace (lo + Z.of_nat 0) with lo in E1 by lia. rewrite E1. simpl.
    destruct (IH (fun k a => P (Datatypes.S k) a) (lo + 1) a1 H1) as [a2 [E2 H2]].
    + intros k a Hk HP.
      destruct (Hstep (Datatypes.S k) a ltac:(lia) HP) as [a' [E' H']].
      exists a'. split; [|assumption].
      rewrite <- E'. f_equal. lia.
    + exists a2. split; [|assumption].
      rewrite <- E2. f_equal. f_equal. lia.
Qed.

(** A loop whose iterations only append. *)
Lemma for_each_append {I B : Type} (idxs : list I) (acc : list B)
      (body : I -> list B -> result (list B)) (g : I -> list B) :
  (forall i a, In i idxs -> body i a = Ok (a ++ g i)) ->
  for_each idxs acc body = Ok (acc ++ flat_map g idxs).
Proof.
  revert acc. induction idxs as [|i rest IH]; intros acc Hb; simpl.
  - now rewrite app_nil_r.
  - rewrite Hb by (now left). simpl.
    rewrite IH by (intros; apply Hb; now right).
    now rewrite app_assoc.
Qed.

End LoopFacts.

(* ------------------------------------------------------------------------ *)
(** ** The one-slot cache *)

Section CacheFacts.

Import Symm Spec.

Variable newton : (R -> R) -> R -> (R -> R) -> R.

Lemma cached_new (n : Z) : cached new n = None.
Proof. reflexivity. Qed.

Lemma consistent_new (m : method) : consistent m new.
Proof. intros n c H. discriminate. Qed.

(** What [patches] and the rows return does not depend on the object;
    the object they leave behind holds the subdivision factor. *)
Lemma patches_pair (self : SymmetryBase) (n : Z) :
  patches self n =
  (fst (patches new n),
   {| _resolution := Some (as_float (round_sqrt (n - 1) 144));
      _numCoeff := _numCoeff self; _clusters := _clusters self;
      _numCoeffs := _numCoeffs self |}).
Proof. reflexivity. Qed.

Lemma rows_pair (self : SymmetryBase) (n : Z) :
  rows self n = (fst (rows new n), snd (patches self n)).
Proof. reflexivity. Qed.

Lemma cached_fields (self self' : SymmetryBase) (n : Z) :
  _numCoeff self' = _numCoeff self -> _clusters self' = _clusters self ->
  cached self' n = cached self n.
Proof. intros E1 E2. unfold cached. rewrite E1, E2. reflexivity. Qed.

(** Every method answers from the cache on a hit and otherwise computes
    what a new object computes. *)
Lemma clusters_cached (p : policy) (self : SymmetryBase) (n : Z) :
  fst (clusters newton p self n) =
  match cached self n with
  | Some c => Ok c
  | None => fst (clusters newton p new n)
  end.
Proof.
  destruct p; simpl;
    [ unfold KlemsSymmetry_clusters
    | unfold ReinhartRotSymmetry_clusters
    | unfold ReinhartCurveSymmetry_clusters
    | unfold ReinhartProfSymmetry_clusters
    | unfold FullResSymmetry_clusters ];
    try rewrite cached_new; destruct (cached self n) as [c|]; try reflexivity.
  - destruct (negb (n =? 145)); reflexivity.
  - rewrite (rows_pair self). set (r0 := fst (rows new n)).
    rewrite (rows_pair new). fold r0.
    destruct r0 as [[r cl]|e]; reflexivity.
  - rewrite (rows_pair self). set (r0 := fst (rows new n)).
    rewrite (rows_pair new). fold r0. cbv beta iota zeta.
    match goal with
    | |- fst (match ?x with _ => _ end) = _ => destruct x
    end; reflexivity.
  - destruct (n <? 0); [reflexivity|].
    match goal with
    | |- fst (match ?x with _ => _ end) = _ => destruct x
    end; reflexivity.
Qed.

Lemma clusters_consistent (p : policy) (self : SymmetryBase) (n : Z) :
  consistent (clusters newton p) self ->
  fst (clusters newton p self n) = fst (clusters newton p new n).
Proof.
  intros Hc. rewrite clusters_cached.
  destruct (cached self n) as [c|] eqn:E; [|reflexivity].
  symmetry. apply Hc. assumption.
Qed.

(** What a call leaves in the two attributes of the cache. *)
Lemma clusters_state (p : policy) (self : SymmetryBase) (n : Z) :
  (_numCoeff (snd (clusters newton p self n)) = _numCoeff self /\
   _clusters (snd (clusters newton p self n)) = _clusters self) \/
  exists c, fst (clusters newton p new n) = Ok c /\
            _numCoeff (snd (clusters newton p self n)) =
              (if match p with ReinhartCurve => true | _ => false end
               then _numCoeff self else Some n) /\
            _clusters (snd (clusters newton p self n)) = Some c.
Proof.
  destruct p; simpl;
    [ unfold KlemsSymmetry_clusters
    | unfold ReinhartRotSymmetry_clusters
    | unfold ReinhartCurveSymmetry_clusters
    | unfold ReinhartProfSymmetry_clusters
    | unfold FullResSymmetry_clusters ];
    try rewrite cached_new; destruct (cached self n) as [c|]; auto.
  - destruct (negb (n =? 145)); simpl; eauto.
  - rewrite (rows_pair self). set (r0 := fst (rows new n)).
    rewrite (rows_pair new). fold r0.
    destruct r0 as [[r cl]|e]; simpl; eauto.
  - rewrite (rows_pair self). set (r0 := fst (rows new n)).
    rewrite (rows_pair new). fold r0. cbv beta iota zeta.
    match goal with
    | |- (_ (snd (match ?x with _ => _ end)) = _ /\ _) \/ _ => destruct x
    end; simpl; eauto.
  - simpl; eauto.
  - destruct (n <? 0); [auto|].
    match goal with
    | |- (_ (snd (match ?x with _ => _ end)) = _ /\ _) \/ _ => destruct x
    end; simpl; eauto.
Qed.

(** Objects reached by the curve symmetry never hold a size: the method
    writes it to another attribute. *)
Lemma reachable_curve_numCoeff (self : SymmetryBase) :
  reachable (clusters newton ReinhartCurve) self -> _numCoeff self = None.
Proof.
  induction 1 as [|self n _ IH]; [reflexivity|].
  destruct (clusters_state ReinhartCurve self n) as [[E _]|[c [_ [E _]]]];
    rewrite E; assumption.
Qed.

Lemma reachable_consistent (p : policy) (self : SymmetryBase) :
  reachable (clusters newton p) self -> consistent (clusters newton p) self.
Proof.
  intros Hr. destruct p;
    try (induction Hr as [|self n _ IH]; [apply consistent_new|];
         match goal with
         | |- consistent (clusters _ ?p) _ =>
             destruct (clusters_state p self n) as [[E1 E2]|[c [Hc [E1 E2]]]]
         end;
         [ intros n' c'; rewrite (cached_fields self _ n' E1 E2); apply IH
         | intros n' c'; unfold cached; rewrite E1, E2;
           destruct (n =? n') eqn:En; [|discriminate];
           intros H; inversion H; subst c';
           apply Z.eqb_eq in En; subst n'; exact Hc ]).
  intros n c. unfold cached.
  rewrite (reachable_curve_numCoeff self Hr).
  destruct (_clusters self); discriminate.
Qed.

End CacheFacts.

(* ------------------------------------------------------------------------ *)
(** ** Klems *)

Section KlemsFacts.

Import Symm Spec.

Lemma Klems_new_145 :
  fst (KlemsSymmetry_clusters new 145) =
  Ok [[0]; range 1 45; range 45 93; range 93 145].
Proof. reflexivity. Qed.

Lemma Klems_new_other (n : Z) :
  n <> 145 ->
  fst (KlemsSymmetry_clusters new n) =
  Raise (ValueError "Invalid number of Klems coefficients").
Proof.
  intros Hn. unfold KlemsSymmetry_clusters. rewrite cached_new.
  destruct (n =? 145) eqn:E; [lia|]. reflexivity.
Qed.

(** C8: on an object with a consistent cache, [KlemsSymmetry.clusters(145)]
    returns the four clusters [0], [1,45), [45,93), [93,145), of sizes
    1, 44, 48 and 52, and every other size raises the ValueError
    "Invalid number of Klems coefficients". *)
Theorem Klems_clusters (self : SymmetryBase) :
  consistent KlemsSymmetry_clusters self ->
  fst (KlemsSymmetry_clusters self 145) =
    Ok [[0]; range 1 45; range 45 93; range 93 145] /\
  map len [[0]; range 1 45; range 45 93; range 93 145] = [1; 44; 48; 52] /\
  forall n, n <> 145 ->
    fst (KlemsSymmetry_clusters self n) =
    Raise (ValueError "Invalid number of Klems coefficients").
Proof.
  intros Hc.
  pose (nw := fun (_ : R -> R) (x0 : R) (_ : R -> R) => x0).
  split; [|split].
  - exact (clusters_consistent nw Klems self 145 Hc).
  - reflexivity.
  - intros n Hn.
    etransitivity; [exact (clusters_consistent nw Klems self n Hc)|].
    apply Klems_new_other. assumption.
Qed.

Lemma Klems_clusters_witness :
  consistent KlemsSymmetry_clusters new /\
  fst (KlemsSymmetry_clusters new 145) =
    Ok [[0]; range 1 45; range 45 93; range 93 145] /\
  map len [[0]; range 1 45; range 45 93; range 93 145] = [1; 44; 48; 52] /\
  forall n, n <> 145 ->
    fst (KlemsSymmetry_clusters new n) =
    Raise (ValueError "Invalid number of Klems coefficients").
Proof.
  split; [apply consistent_new|].
  apply (Klems_clusters new). apply consistent_new.
Defined.

End KlemsFacts.

(* ------------------------------------------------------------------------ *)
(** ** Reinhart patches *)

Section ReinhartFacts.

Import Symm Spec.

Lemma round_sqrt_square (k : Z) : 0 <= k -> round_sqrt (144 * k ^ 2) 144 = Some k.
Proof.
  intros Hk. unfold round_sqrt.
  destruct (144 * k ^ 2 <? 0) eqn:E; [nia|].
  replace (144 * k ^ 2 / 144) with (k * k)
    by (apply Z.div_unique with (r := 0); lia).
  rewrite Z.sqrt_square by assumption.
  destruct (4 * (144 * k ^ 2) ?= 144 * (2 * k + 1) ^ 2) eqn:C; try reflexivity.
  - apply Z.compare_eq in C. nia.
  - apply Z.compare_gt_iff in C. nia.
Qed.

Lemma round_sqrt_none (p q : Z) : round_sqrt p q = None <-> p < 0.
Proof.
  unfold round_sqrt. destruct (p <? 0) eqn:E.
  - split; [lia|reflexivity].
  - split; [|lia]. destruct (_ ?= _); discriminate.
Qed.

Lemma round_sqrt_nonneg (p q m : Z) : round_sqrt p q = Some m -> 0 <= m.
Proof.
  unfold round_sqrt. destruct (p <? 0); [discriminate|].
  pose proof (Z.sqrt_nonneg (p / q)).
  destruct (_ ?= _); [destruct (Z.even _)| |]; intros E; inversion E; lia.
Qed.

(** [round_sqrt] is numpy's [round] of the real square root: its value
    lies within one half of the root, and on a tie it is even. *)
Lemma round_sqrt_nearest (p q m : Z) :
  0 < q ->
  round_sqrt p q = Some m ->
  (Rabs (IZR m - sqrt (IZR p / IZR q)) <= 1 / 2)%R /\
  (Rabs (IZR m - sqrt (IZR p / IZR q)) = (1 / 2)%R -> Z.even m = true).
Proof.
  intros Hq. unfold round_sqrt.
  destruct (p <? 0) eqn:Ep; [discriminate|]. apply Z.ltb_ge in Ep.
  set (m0 := Z.sqrt (p / q)).
  assert (Hd : 0 <= p / q) by (apply Z.div_pos; lia).
  pose proof (Z.sqrt_spec (p / q) Hd) as Hs. fold m0 in Hs. cbv zeta in Hs.
  assert (Hm0 : 0 <= m0) by apply Z.sqrt_nonneg.
  pose proof (Z.mul_div_le p q Hq) as Hlo.
  pose proof (Z.mul_succ_div_gt p q Hq) as Hhi.
  assert (H1 : q * (m0 * m0) <= p) by nia.
  assert (H2 : p < q * ((m0 + 1) * (m0 + 1))) by nia.
  set (s := sqrt (IZR p / IZR q)).
  assert (HqR : (0 < IZR q)%R) by (apply IZR_lt; assumption).
  assert (HpR : (0 <= IZR p)%R) by (apply IZR_le; assumption).
  assert (Hx : (0 <= IZR p / IZR q)%R).
  { apply Rmult_le_pos; [assumption|].
    left. apply Rinv_0_lt_compat. assumption. }
  assert (Hs0 : (0 <= s)%R) by apply sqrt_pos.
  assert (Hss : (s * s = IZR p / IZR q)%R) by (apply sqrt_sqrt; assumption).
  assert (Hpq : (IZR p = s * s * IZR q)%R).
  { rewrite Hss. field. lra. }
  assert (Hm0R : (0 <= IZR m0)%R) by (apply IZR_le; assumption).
  apply IZR_le in H1. apply IZR_lt in H2.
  rewrite !mult_IZR in H1, H2. rewrite !plus_IZR in H2.
  assert (Hl : (IZR m0 <= s)%R).
  { destruct (Rle_lt_dec (IZR m0) s) as [|Hc]; [assumption|exfalso].
    assert (s * s < IZR m0 * IZR m0)%R by nra.
    assert (s * s * IZR q < IZR m0 * IZR m0 * IZR q)%R
      by (apply Rmult_lt_compat_r; assumption).
    lra. }
  assert (Hu : (s < IZR m0 + 1)%R).
  { destruct (Rlt_le_dec s (IZR m0 + 1)) as [|Hc]; [assumption|exfalso].
    assert ((IZR m0 + 1) * (IZR m0 + 1) <= s * s)%R by nra.
    assert ((IZR m0 + 1) * (IZR m0 + 1) * IZR q <= s * s * IZR q)%R
      by (apply Rmult_le_compat_r; lra).
    lra. }
  (* the comparison of the root with m0 + 1/2 *)
  assert (Hcmp : (IZR (4 * p) - IZR (q * (2 * m0 + 1) ^ 2) =
                  4 * IZR q * (s - (IZR m0 + 1 / 2)) * (s + (IZR m0 + 1 / 2)))%R).
  { rewrite !mult_IZR. change ((2 * m0 + 1) ^ 2) with (Z.pow (2 * m0 + 1) 2).
    rewrite Z.pow_2_r, !mult_IZR, !plus_IZR, !mult_IZR, Hpq. field. }
  assert (Hsum : (0 < 4 * IZR q * (s + (IZR m0 + 1 / 2)))%R) by nra.
  destruct (4 * p ?= q * (2 * m0 + 1) ^ 2) eqn:C; intros E; inversion E; subst m; clear E.
  - apply Z.compare_eq in C. rewrite C in Hcmp.
    assert (Hh : (s = IZR m0 + 1 / 2)%R) by nra.
    destruct (Z.even m0) eqn:Ev.
    + split; [|intros _; assumption].
      rewrite Hh. replace (IZR m0 - (IZR m0 + 1 / 2))%R with (- (1 / 2))%R by lra.
      rewrite Rabs_Ropp, Rabs_right; lra.
    + split.
      * rewrite plus_IZR, Hh.
        replace (IZR m0 + 1 - (IZR m0 + 1 / 2))%R with (1 / 2)%R by lra.
        rewrite Rabs_right; lra.
      * intros _. rewrite Z.add_1_r, Z.even_succ, <- Z.negb_even, Ev. reflexivity.
  - apply Z.compare_lt_iff in C. apply IZR_lt in C.
    assert (Hh : (s < IZR m0 + 1 / 2)%R) by nra.
    rewrite Rabs_left1 by lra. split; [lra|intros; lra].
  - apply Z.compare_gt_iff in C. apply IZR_lt in C.
    assert (Hh : (IZR m0 + 1 / 2 < s)%R) by nra.
    rewrite plus_IZR, Rabs_right by lra. split; [lra|intros; lra].
Qed.

Lemma r_row_value (MF : Z) :
  0 <= MF -> intQ (90 / (90 / (inject_Z MF * 7 + 0.5)))%Q = 7 * MF.
Proof.
  intros H.
  assert (E : (90 / (90 / (inject_Z MF * 7 + 0.5)) == inject_Z (14 * MF + 1) / inject_Z 2)%Q).
  { assert (Hpos : (0 < inject_Z MF * 7 + 0.5)%Q).
    { unfold Qlt, Qmult, Qplus, inject_Z. simpl. lia. }
    rewrite inject_Z_plus, inject_Z_mult. field.
    intros Hz. rewrite Hz in Hpos. discriminate. }
  unfold intQ.
  assert (Hle : Qle_bool 0 (90 / (90 / (inject_Z MF * 7 + 0.5)))%Q = true).
  { apply Qle_bool_iff. rewrite E. apply Qmult_le_0_compat.
    - change 0%Q with (inject_Z 0). rewrite <- Zle_Qle. lia.
    - discriminate. }
  rewrite Hle. rewrite (Qfloor_comp _ _ E). rewrite <- Zdiv_Qdiv.
  symmetry. apply Z.div_unique with (r := 1); lia.
Qed.

Lemma tnaz_index (MF r : Z) :
  1 <= MF -> 0 <= r ->
  Qfloor ((inject_Z r + 0.5) / inject_Z MF)%Q = r / MF.
Proof.
  intros HM Hr.
  assert (E : ((inject_Z r + 0.5) / inject_Z MF == inject_Z (2 * r + 1) / inject_Z (2 * MF))%Q).
  { rewrite inject_Z_plus, !inject_Z_mult. field.
    intros Hz. unfold Qeq, inject_Z in Hz. simpl in Hz. lia. }
  rewrite (Qfloor_comp _ _ E), <- Zdiv_Qdiv.
  rewrite <- Z.div_div by lia. f_equal.
  symmetry. apply Z.div_unique with (r := 1); lia.
Qed.

Lemma getitem_nat {A : Type} (a : list A) (k : nat) (d : A) :
  (k < length a)%nat -> getitem a (Z.of_nat k) = Ok (nth k a d).
Proof.
  intros Hk. rewrite (getitem_nth a (Z.of_nat k) d) by (unfold len; lia).
  now rewrite Nat2Z.id.
Qed.

Lemma setitem_nat {A : Type} (a : list A) (k : nat) (x : A) :
  (k < length a)%nat -> setitem a (Z.of_nat k) x = Ok (update a k x).
Proof.
  intros Hk. rewrite setitem_update by (unfold len; lia).
  now rewrite Nat2Z.id.
Qed.

Lemma zeros_length (n : nat) : length (zeros (Z.of_nat n)) = n.
Proof. unfold zeros. now rewrite repeat_length, Nat2Z.id. Qed.

Lemma psum_S (g : nat -> Z) (k : nat) : psum g (S k) = psum g k + g k.
Proof. reflexivity. Qed.

Lemma rnaz_loop (m : nat) :
  (1 <= m)%nat ->
  exists rnaz,
    for_each (range 0 (Z.of_nat (7 * m))) (zeros (Z.of_nat (7 * m)))
      (fun r rnaz =>
         t <- getitem [30; 30; 24; 24; 18; 12; 6]
                (Qfloor ((inject_Z r + 0.5) / inject_Z (Z.of_nat m))%Q) ;;
         setitem rnaz r (Z.of_nat m * t)) = Ok rnaz /\
    length rnaz = (7 * m)%nat /\
    forall k, (k < 7 * m)%nat -> nth k rnaz 0 = rnaz_at (Z.of_nat m) k.
Proof.
  intros Hm.
  apply (for_range_invariant
           (fun k a => length a = (7 * m)%nat /\
                       forall j, (j < k)%nat -> nth j a 0 = rnaz_at (Z.of_nat m) j)
           0 (7 * m)).
  - split; [apply zeros_length|]. intros j Hj. lia.
  - intros k a Hk [Hlen Hnth].
    replace (0 + Z.of_nat k) with (Z.of_nat k) by lia.
    rewrite tnaz_index by lia.
    rewrite <- Nat2Z.inj_div.
    assert (Hq : (k / m < 7)%nat) by (apply Nat.Div0.div_lt_upper_bound; lia).
    rewrite (getitem_nat _ _ 0) by (simpl; lia).
    cbn [bind]. rewrite setitem_nat by lia.
    eexists. split; [reflexivity|]. split.
    + now rewrite update_length.
    + intros j Hj. rewrite update_nth by lia.
      destruct (Nat.eqb j k) eqn:E.
      * apply Nat.eqb_eq in E. subst j. unfold rnaz_at, tnaz_at.
        now rewrite Nat2Z.id.
      * apply Nat.eqb_neq in E. apply Hnth. lia.
Qed.

Lemma racc_loop (m : nat) (g : nat -> Z) (rnaz racc : list Z) :
  (1 <= m)%nat ->
  length rnaz = (7 * m)%nat ->
  (forall k, (k < 7 * m)%nat -> nth k rnaz 0 = g k) ->
  length racc = (7 * m + 1)%nat ->
  nth 0 racc 0 = g 0%nat ->
  exists racc',
    for_each (range 1 (Z.of_nat (7 * m))) racc
      (fun r racc =>
         a <- getitem racc (r - 1) ;;
         b <- getitem rnaz r ;;
         setitem racc r (a + b)) = Ok racc' /\
    length racc' = (7 * m + 1)%nat /\
    forall k, (k < 7 * m)%nat -> nth k racc' 0 = psum g (S k).
Proof.
  intros Hm Hlen Hg Hlr H0.
  destruct (for_range_invariant
           (fun k a => length a = (7 * m + 1)%nat /\
                       forall j, (j <= k)%nat -> nth j a 0 = psum g (S j))
           1 (7 * m - 1)
           (fun r racc =>
              a <- getitem racc (r - 1) ;;
              b <- getitem rnaz r ;;
              setitem racc r (a + b)) racc) as [racc' [E [Hl' Hn']]].
  - split; [assumption|]. intros j Hj. replace j with 0%nat by lia.
    rewrite H0. simpl. lia.
  - intros k a Hk [Hla Hna].
    replace (1 + Z.of_nat k - 1) with (Z.of_nat k) by lia.
    replace (1 + Z.of_nat k) with (Z.of_nat (S k)) by lia.
    rewrite (getitem_nat a k 0) by lia. cbn [bind].
    rewrite (getitem_nat rnaz (S k) 0) by lia. cbn [bind].
    rewrite setitem_nat by lia.
    eexists. split; [reflexivity|]. split.
    + now rewrite update_length.
    + intros j Hj. rewrite update_nth by lia.
      destruct (Nat.eqb j (S k)) eqn:Ej.
      * apply Nat.eqb_eq in Ej. subst j.
        rewrite Hna by lia. rewrite Hg by lia. reflexivity.
      * apply Nat.eqb_neq in Ej. apply Hna. lia.
  - exists racc'. split; [|split].
    + rewrite <- E. do 2 f_equal. lia.
    + assumption.
    + intros k Hk. apply Hn'. lia.
Qed.

Lemma patches_ok (m : nat) :
  (1 <= m)%nat ->
  let MF := Z.of_nat m in
  exists rnaz racc,
    fst (patches new (144 * MF ^ 2 + 1)) = Ok (7 * MF, rnaz, racc) /\
    length rnaz = (7 * m)%nat /\
    (forall k, (k < 7 * m)%nat -> nth k rnaz 0 = rnaz_at MF k) /\
    length racc = (7 * m + 1)%nat /\
    (forall k, (k <= 7 * m)%nat -> nth k racc 0 = bound MF (S k)).
Proof.
  intros Hm MF. unfold patches. cbv zeta. cbn [fst].
  replace (144 * MF ^ 2 + 1 - 1) with (144 * MF ^ 2) by lia.
  rewrite round_sqrt_square by lia.
  replace (negb (MF ^ 2 * 144 + 1 =? 144 * MF ^ 2 + 1)) with false
    by (symmetry; apply negb_false_iff, Z.eqb_eq; lia).
  cbv zeta. rewrite r_row_value by lia.
  replace (7 * MF) with (Z.of_nat (7 * m)) by lia.
  destruct (rnaz_loop m Hm) as [rnaz [E1 [Hl1 Hn1]]].
  fold MF in E1. rewrite E1. cbn [bind].
  change (getitem rnaz 0) with (getitem rnaz (Z.of_nat 0)).
  rewrite (getitem_nat rnaz 0 0) by lia. cbn [bind].
  change (setitem ?a 0 ?x) with (setitem a (Z.of_nat 0) x).
  rewrite setitem_nat
    by (replace (Z.of_nat (7 * m) + 1) with (Z.of_nat (7 * m + 1)) by lia;
        rewrite zeros_length; lia).
  cbn [bind].
  destruct (racc_loop m (rnaz_at MF) rnaz
              (update (zeros (Z.of_nat (7 * m) + 1)) 0 (nth 0 rnaz 0)))
    as [racc [E2 [Hl2 Hn2]]]; try assumption.
  - rewrite update_length.
    replace (Z.of_nat (7 * m) + 1) with (Z.of_nat (7 * m + 1)) by lia.
    apply zeros_length.
  - rewrite update_nth.
    + simpl. apply Hn1. lia.
    + replace (Z.of_nat (7 * m) + 1) with (Z.of_nat (7 * m + 1)) by lia.
      rewrite zeros_length. lia.
  - rewrite E2. cbn [bind].
    replace (Z.of_nat (7 * m) - 1) with (Z.of_nat (7 * m - 1)) by lia.
    rewrite (getitem_nat racc _ 0) by lia. cbn [bind].
    rewrite setitem_nat by lia. cbn [bind].
    exists rnaz. eexists. split; [reflexivity|].
    split; [assumption|]. split; [assumption|]. split.
    + now rewrite update_length.
    + intros k Hk. rewrite update_nth by lia. unfold bound.
      subst MF. rewrite Nat2Z.id.
      destruct (Nat.eqb k (7 * m)) eqn:Ek.
      * apply Nat.eqb_eq in Ek. subst k.
        destruct (Nat.leb_spec (S (7 * m)) (7 * m)); [lia|].
        rewrite Hn2 by lia. replace (S (7 * m - 1)) with (7 * m)%nat by lia.
        reflexivity.
      * apply Nat.eqb_neq in Ek.
        destruct (Nat.leb_spec (S k) (7 * m)); [|lia].
        apply Hn2. lia.
Qed.

Lemma patches_one : fst (patches new 1) = Raise (IndexError "index out of bounds").
Proof. reflexivity. Qed.

Lemma patches_ok_size (n : Z) (r : Z * list Z * list Z) :
  fst (patches new n) = Ok r -> exists MF, 1 <= MF /\ n = 144 * MF ^ 2 + 1.
Proof.
  intros H.
  assert (Hn : exists MF, 0 <= MF /\ n = 144 * MF ^ 2 + 1).
  { unfold patches in H. cbv zeta in H. cbn [fst] in H.
    destruct (round_sqrt (n - 1) 144) as [MF|] eqn:E; [|discriminate].
    destruct (MF ^ 2 * 144 + 1 =? n) eqn:C; [|discriminate].
    exists MF. split; [eapply round_sqrt_nonneg; eassumption|lia]. }
  destruct Hn as [MF [H0 ->]].
  destruct (Z.eq_dec MF 0) as [->|Hne].
  - change (144 * 0 ^ 2 + 1) with 1 in H. rewrite patches_one in H.
    discriminate.
  - exists MF. split; [lia|reflexivity].
Qed.

Lemma round_sqrt_nan (p q : Z) : round_sqrt p q = None <-> p < 0.
Proof.
  unfold round_sqrt. destruct (p <? 0) eqn:E.
  - split; [lia|reflexivity].
  - split; [|lia]. destruct (4 * p ?= _); discriminate.
Qed.

Lemma patches_bad_size (n : Z) :
  1 <= n ->
  (forall MF, 0 <= MF -> n <> 144 * MF ^ 2 + 1) ->
  fst (patches new n) = Raise (ValueError "Invalid number of Reinhart coefficients").
Proof.
  intros Hn H. unfold patches. cbv zeta. cbn [fst].
  destruct (round_sqrt (n - 1) 144) as [MF|] eqn:E.
  - destruct (MF ^ 2 * 144 + 1 =? n) eqn:C; [|reflexivity].
    exfalso. apply (H MF); [eapply round_sqrt_nonneg; eassumption|lia].
  - apply round_sqrt_nan in E. lia.
Qed.

(** Below 1 the subdivision factor is [nan], and it is the formatting of
    the message that raises. *)
Lemma patches_nan (n : Z) :
  n <= 0 ->
  fst (patches new n) =
  Raise (ValueError "cannot convert float NaN to integer").
Proof.
  intros Hn. unfold patches. cbv zeta. cbn [fst].
  destruct (round_sqrt (n - 1) 144) as [MF|] eqn:E; [|reflexivity].
  assert (H : round_sqrt (n - 1) 144 = None) by (apply round_sqrt_nan; lia).
  congruence.
Qed.

Lemma psum_ext (g h : nat -> Z) (k : nat) :
  (forall j, (j < k)%nat -> g j = h j) -> psum g k = psum h k.
Proof.
  induction k as [|k IH]; intros H; [reflexivity|].
  simpl. rewrite IH, H by (intros; try apply H; lia). reflexivity.
Qed.

Lemma psum_add (g : nat -> Z) (a b : nat) :
  psum g (a + b) = psum g a + psum (fun j => g (a + j)%nat) b.
Proof.
  induction b as [|b IH]; simpl.
  - rewrite Nat.add_0_r. lia.
  - rewrite Nat.add_succ_r. simpl. rewrite IH. lia.
Qed.

Lemma psum_const (c : Z) (b : nat) : psum (fun _ => c) b = Z.of_nat b * c.
Proof. induction b as [|b IH]; simpl psum; [lia|]. rewrite IH. lia. Qed.

Lemma psum_blocks (f : nat -> Z) (m i : nat) :
  (1 <= m)%nat ->
  psum (fun k => f (k / m)%nat) (i * m) = Z.of_nat m * psum f i.
Proof.
  intros Hm. induction i as [|i IH]; [simpl; lia|].
  replace (S i * m)%nat with (i * m + m)%nat by lia.
  rewrite psum_add, IH. simpl psum.
  rewrite (psum_ext (fun j => f ((i * m + j) / m)%nat) (fun _ => f i) m).
  - rewrite psum_const. ring.
  - intros j Hj. f_equal.
    rewrite Nat.add_comm, Nat.div_add by lia.
    rewrite Nat.div_small by lia. reflexivity.
Qed.

Lemma psum_scale (c : Z) (g : nat -> Z) (k : nat) :
  psum (fun j => c * g j) k = c * psum g k.
Proof. induction k as [|k IH]; simpl psum; [lia|]. rewrite IH. lia. Qed.

Lemma psum_rnaz (m : nat) :
  (1 <= m)%nat ->
  psum (rnaz_at (Z.of_nat m)) (7 * m) = 144 * Z.of_nat m ^ 2.
Proof.
  intros Hm. unfold rnaz_at. rewrite Nat2Z.id.
  change (psum (fun k => Z.of_nat m * tnaz_at (k / m)) (7 * m) =
          144 * Z.of_nat m ^ 2).
  rewrite (psum_scale (Z.of_nat m) (fun k => tnaz_at (k / m))).
  rewrite (psum_blocks tnaz_at m 7) by assumption.
  change (psum tnaz_at 7) with 144. lia.
Qed.

Lemma tnaz_at_nonneg (j : nat) : 0 <= tnaz_at j.
Proof.
  unfold tnaz_at.
  do 7 (destruct j as [|j]; [simpl; lia|]). destruct j; simpl; lia.
Qed.

Lemma bound_0 (MF : Z) : bound MF 0 = 0.
Proof. reflexivity. Qed.

Lemma bound_step (MF : Z) (i : nat) : 0 <= MF -> bound MF i <= bound MF (S i).
Proof.
  intros H. unfold bound.
  destruct (Nat.leb_spec i (7 * Z.to_nat MF));
    destruct (Nat.leb_spec (S i) (7 * Z.to_nat MF)); try lia.
  - rewrite psum_S.
    assert (0 <= rnaz_at MF i)
      by (apply Z.mul_nonneg_nonneg; [lia|apply tnaz_at_nonneg]).
    lia.
  - replace i with (7 * Z.to_nat MF)%nat by lia. lia.
Qed.

Lemma bound_last (m : nat) :
  (1 <= m)%nat -> bound (Z.of_nat m) (7 * m + 1) = 144 * Z.of_nat m ^ 2 + 1.
Proof.
  intros Hm. unfold bound. rewrite Nat2Z.id.
  destruct (Nat.leb_spec (7 * m + 1) (7 * m)); [lia|].
  now rewrite psum_rnaz.
Qed.

Lemma concat_ranges (b : nat -> Z) (k : nat) :
  (forall i, (i < k)%nat -> b i <= b (S i)) ->
  concat (map (fun i => range (b i) (b (S i))) (seq 0 k)) = range (b 0%nat) (b k) /\
  b 0%nat <= b k.
Proof.
  induction k as [|k IH]; intros Hb.
  - simpl. split; [|lia]. symmetry. apply range_empty. lia.
  - destruct IH as [IH1 IH2]; [intros; apply Hb; lia|].
    rewrite seq_S, map_app, concat_app, IH1. simpl.
    rewrite app_nil_r. pose proof (Hb k ltac:(lia)).
    split; [apply range_app; lia|lia].
Qed.

Lemma concat_rev_perm {A : Type} (L : list (list A)) :
  Permutation (concat (rev L)) (concat L).
Proof.
  induction L as [|a L IH]; [constructor|].
  simpl. rewrite concat_app. simpl. rewrite app_nil_r.
  rewrite Permutation_app_comm. now apply Permutation_app_head.
Qed.

Lemma rows_partition (m : nat) :
  (1 <= m)%nat ->
  Partition
    (rev (map (fun i => range (bound (Z.of_nat m) i) (bound (Z.of_nat m) (S i)))
              (seq 0 (7 * m + 1))))
    (144 * Z.of_nat m ^ 2 + 1).
Proof.
  intros Hm.
  destruct (concat_ranges (bound (Z.of_nat m)) (7 * m + 1)) as [Hc _].
  { intros i _. apply bound_step. lia. }
  rewrite bound_0, bound_last in Hc by assumption.
  split.
  - eapply Permutation_NoDup; [symmetry; apply concat_rev_perm|].
    rewrite Hc. apply NoDup_range.
  - intros x. rewrite <- in_range, <- Hc.
    split; apply Permutation_in;
      [apply concat_rev_perm|symmetry; apply concat_rev_perm].
Qed.

Lemma rows_ok (m : nat) :
  (1 <= m)%nat ->
  let MF := Z.of_nat m in
  fst (rows new (144 * MF ^ 2 + 1)) =
  Ok (7 * MF,
      rev (map (fun i => range (bound MF i) (bound MF (S i)))
               (seq 0 (7 * m + 1)))).
Proof.
  intros Hm MF. unfold rows. rewrite (patches_pair new).
  cbv beta iota. cbn [fst].
  destruct (patches_ok m Hm) as [rnaz [racc [E [Hl1 [Hn1 [Hl2 Hn2]]]]]].
  fold MF in E, Hn1, Hn2. rewrite E. cbn [bind].
  change (getitem racc 0) with (getitem racc (Z.of_nat 0)).
  rewrite (getitem_nat racc 0 0) by lia. cbn [bind].
  replace (7 * MF + 1) with (Z.of_nat (7 * m + 1)) by lia.
  rewrite Nat2Z.id.
  replace (7 * MF) with (Z.of_nat (7 * m)) by lia.
  rewrite setitem_nat by (rewrite repeat_length; lia). cbn [bind].
  destruct (for_range_invariant
           (fun k cl => length cl = (7 * m + 1)%nat /\
                        forall i, (i <= k)%nat ->
                          nth (7 * m - i) cl [] = range (bound MF i) (bound MF (S i)))
           1 (7 * m)
           (fun i clust =>
              lo <- getitem racc (i - 1) ;;
              hi <- getitem racc i ;;
              setitem clust (Z.of_nat (7 * m) - i) (range lo hi))
           (update (repeat [] (7 * m + 1)) (7 * m) (range 0 (nth 0 racc 0))))
    as [cl [Ecl [Hlc Hnc]]].
  - split; [now rewrite update_length, repeat_length|].
    intros i Hi. replace i with 0%nat by lia.
    rewrite Nat.sub_0_r, update_nth by (rewrite repeat_length; lia).
    rewrite Nat.eqb_refl, Hn2 by lia. reflexivity.
  - intros k a Hk [Hla Hna].
    replace (1 + Z.of_nat k - 1) with (Z.of_nat k) by lia.
    replace (Z.of_nat (7 * m) - (1 + Z.of_nat k)) with (Z.of_nat (7 * m - S k)) by lia.
    replace (1 + Z.of_nat k) with (Z.of_nat (S k)) by lia.
    rewrite (getitem_nat racc k 0) by lia. cbn [bind].
    rewrite (getitem_nat racc (S k) 0) by lia. cbn [bind].
    rewrite setitem_nat by lia.
    eexists. split; [reflexivity|]. split; [now rewrite update_length|].
    intros i Hi. rewrite update_nth by lia.
    destruct (Nat.eqb (7 * m - i) (7 * m - S k)) eqn:Ei.
    + apply Nat.eqb_eq in Ei. replace i with (S k) by lia.
      rewrite !Hn2 by lia. reflexivity.
    + apply Nat.eqb_neq in Ei. apply Hna. lia.
  - replace (Z.of_nat (7 * m + 1)) with (1 + Z.of_nat (7 * m)) by lia.
    rewrite Ecl. cbn [bind]. do 2 f_equal.
    apply (list_eq_nth _ _ []).
    + now rewrite Hlc, length_rev, length_map, length_seq.
    + intros k Hk. rewrite Hlc in Hk.
      rewrite rev_nth by (rewrite length_map, length_seq; lia).
      rewrite length_map, length_seq.
      rewrite (nth_indep (map _ _) [] (range (bound MF 0) (bound MF 1)))
        by (rewrite length_map, length_seq; lia).
      rewrite (map_nth (fun i => range (bound MF i) (bound MF (S i)))).
      rewrite seq_nth by lia. simpl Nat.add.
      rewrite <- Hnc by lia. f_equal. lia.
Qed.

Lemma nodupb_sound (l : list Z) : nodupb l = true -> NoDup l.
Proof.
  induction l as [|x t IH]; simpl; intros H; [constructor|].
  apply andb_true_iff in H. destruct H as [H1 H2].
  constructor; [|auto].
  intros Hin. apply negb_true_iff in H1.
  assert (contains t x = true); [|congruence].
  unfold contains. apply existsb_exists. exists x. split; [assumption|lia].
Qed.

Lemma partitionb_sound (cl : Clusters) (n : Z) :
  partitionb cl n = true -> Partition cl n.
Proof.
  unfold partitionb, Partition. intros H.
  apply andb_true_iff in H. destruct H as [H Hnd].
  apply andb_true_iff in H. destruct H as [Hlen Hall].
  apply nodupb_sound in Hnd. apply Z.eqb_eq in Hlen.
  rewrite forallb_forall in Hall.
  split; [assumption|]. intros x. split.
  - intros Hin. specialize (Hall x Hin). lia.
  - intros Hx. apply <- in_range in Hx.
    revert x Hx. apply NoDup_length_incl; [assumption| |].
    + rewrite range_length. unfold len in Hlen. lia.
    + intros x Hin. apply in_range. specialize (Hall x Hin). lia.
Qed.

Lemma Prof_table_partition : Partition ReinhartProfSymmetry_table 2305.
Proof. apply partitionb_sound. vm_compute. reflexivity. Qed.

Lemma Curve_2305 :
  exists cl, fst (ReinhartCurveSymmetry_clusters new 2305) = Ok cl /\
             length cl = 15%nat /\ Partition cl 2305.
Proof.
  eexists. split; [vm_compute; reflexivity|].
  split; [reflexivity|]. apply partitionb_sound. vm_compute. reflexivity.
Qed.

End ReinhartFacts.

Section ReinhartClaims.

Import Symm Spec.



End ReinhartClaims.

(* ------------------------------------------------------------------------ *)
(** ** Full resolution clusters *)

Section FullResFacts.

Import Fisheye Symm Spec.

Variable newton : (R -> R) -> R -> (R -> R) -> R.

Lemma radius_covers (n : Z) :
  0 <= n -> (IZR n < PI * IZR (radius n ^ 2))%R /\ 1 <= radius n.
Proof.
  intros Hn. unfold radius.
  pose proof PI_RGT_0 as Hpi.
  assert (Hq : (0 <= IZR n / PI)%R).
  { apply Rmult_le_pos; [apply IZR_le; lia|].
    left. apply Rinv_0_lt_compat. assumption. }
  pose proof (sqrt_pos (IZR n / PI)) as Hs.
  set (x := sqrt (IZR n / PI)) in *.
  unfold int. destruct (Rle_dec 0 (x + 1)) as [_|Hc]; [|lra].
  destruct (base_Int_part (x + 1)) as [H1 H2].
  set (r := Int_part (x + 1)) in *.
  assert (Hr : (x < IZR r)%R) by lra.
  assert (Hr1 : 1 <= r).
  { assert (0 < r) by (apply lt_IZR; lra). lia. }
  split; [|lia].
  replace (r ^ 2) with (r * r) by lia. rewrite mult_IZR.
  assert (Hx2 : (x * x = IZR n / PI)%R) by (apply sqrt_sqrt; assumption).
  assert (Hlt : (x * x < IZR r * IZR r)%R) by nra.
  replace (IZR n) with (PI * (IZR n / PI))%R by (field; lra).
  apply Rmult_lt_compat_l; [assumption|]. lra.
Qed.

Lemma idx2Pix_some (n idx : Z) :
  0 <= idx < n -> exists pix, idx2Pix newton idx (radius n) = Some pix.
Proof.
  intros Hi. unfold idx2Pix.
  destruct (radius_covers n ltac:(lia)) as [Hc _].
  assert (E1 : (idx <? 0) = false) by lia.
  assert (E2 : Rgtb (IZR idx) (PI * IZR (radius n ^ 2)) = false).
  { unfold Rgtb. destruct (Rgt_dec _ _) as [H|_]; [|reflexivity].
    assert (IZR idx < IZR n)%R by (apply IZR_lt; lia). lra. }
  rewrite E1, E2. simpl. eauto.
Qed.

Lemma zerosR_length (n : nat) : length (zerosR (Z.of_nat n)) = n.
Proof. unfold zerosR. now rewrite repeat_length, Nat2Z.id. Qed.

Lemma thetas_loop (n : nat) :
  exists thetas,
    for_each (range 0 (Z.of_nat n)) (zerosR (Z.of_nat n))
      (fun idx coeffThetas =>
         match idx2Pix newton idx (radius (Z.of_nat n)) with
         | None => Raise (TypeError "unsupported operand type")
         | Some (x, y) =>
             let '(_, _, Dz) :=
               vwRay (0.5 * IZR x / IZR (radius (Z.of_nat n)),
                      0.5 * IZR y / IZR (radius (Z.of_nat n)))%R in
             setitem coeffThetas idx (acos Dz)
         end) = Ok thetas /\
    thetas = map (pixTheta newton (radius (Z.of_nat n))) (range 0 (Z.of_nat n)).
Proof.
  destruct (for_range_invariant
           (fun k a => length a = n /\
                       forall j, (j < k)%nat ->
                         nth j a 0%R = pixTheta newton (radius (Z.of_nat n)) (Z.of_nat j))
           0 n
           (fun idx coeffThetas =>
         match idx2Pix newton idx (radius (Z.of_nat n)) with
         | None => Raise (TypeError "unsupported operand type")
         | Some (x, y) =>
             let '(_, _, Dz) :=
               vwRay (0.5 * IZR x / IZR (radius (Z.of_nat n)),
                      0.5 * IZR y / IZR (radius (Z.of_nat n)))%R in
             setitem coeffThetas idx (acos Dz)
         end)
           (zerosR (Z.of_nat n))) as [th [E [Hl Hn]]].
  - split; [apply zerosR_length|]. intros j Hj. lia.
  - intros k a Hk [Hla Hna].
    replace (0 + Z.of_nat k) with (Z.of_nat k) by lia.
    destruct (idx2Pix_some (Z.of_nat n) (Z.of_nat k) ltac:(lia)) as [[x y] Ep].
    assert (Et : pixTheta newton (radius (Z.of_nat n)) (Z.of_nat k) =
                 let '(_, _, Dz) :=
                   vwRay (0.5 * IZR x / IZR (radius (Z.of_nat n)),
                          0.5 * IZR y / IZR (radius (Z.of_nat n)))%R in acos Dz).
    { unfold pixTheta. rewrite Ep. reflexivity. }
    rewrite Ep.
    destruct (vwRay _) as [[Dx Dy] Dz].
    rewrite setitem_nat by lia.
    eexists. split; [reflexivity|]. split; [now rewrite update_length|].
    intros j Hj. rewrite update_nth by lia.
    destruct (Nat.eqb j k) eqn:Ej.
    + apply Nat.eqb_eq in Ej. subst j. symmetry. exact Et.
    + apply Nat.eqb_neq in Ej. apply Hna. lia.
  - exists th. split; [exact E|].
    apply (list_eq_nth _ _ 0%R).
    + rewrite Hl, length_map, range_length. lia.
    + intros k Hk. rewrite Hl in Hk. rewrite Hn by assumption.
      rewrite (nth_indep (map _ _) 0%R (pixTheta newton (radius (Z.of_nat n)) 0))
        by (rewrite length_map, range_length; lia).
      rewrite (map_nth (pixTheta newton (radius (Z.of_nat n)))).
      rewrite range_nth by lia. f_equal.
Qed.


Lemma combine_map_self {A B : Type} (h : A -> B) (l : list A) :
  combine l (map h l) = map (fun i => (i, h i)) l.
Proof. induction l as [|a l IH]; simpl; [reflexivity|]. now rewrite IH. Qed.

Lemma flatnonzero_map (h : Z -> bool) (n : Z) :
  flatnonzero (map h (range 0 n)) = filter h (range 0 n).
Proof.
  unfold flatnonzero, enumerate.
  assert (El : len (map h (range 0 n)) = len (range 0 n))
    by (unfold len; now rewrite length_map).
  rewrite El.
  assert (Er : range 0 (len (range 0 n)) = range 0 n).
  { unfold len. rewrite range_length. unfold range.
    now rewrite Z.sub_0_r, Nat2Z.id, Z.sub_0_r. }
  rewrite Er, combine_map_self.
  generalize (range 0 n) as l. induction l as [|a l IH]; [reflexivity|].
  simpl. destruct (h a); simpl; now rewrite IH.
Qed.

Lemma flat_map_single {A B : Type} (f : A -> B) (l : list A) :
  flat_map (fun i => [f i]) l = map f l.
Proof. induction l as [|a l IH]; simpl; [reflexivity|]. now rewrite IH. Qed.

(** Sorting a list into one cluster per key. *)
Lemma by_key_partition (key : Z -> Z) (l ks : list Z) :
  NoDup l -> NoDup ks ->
  NoDup (concat (map (fun k => filter (fun x => key x =? k) l) ks)) /\
  forall x, In x (concat (map (fun k => filter (fun x => key x =? k) l) ks)) <->
            In x l /\ In (key x) ks.
Proof.
  intros Hl Hks. induction Hks as [|k ks Hk Hks [IH1 IH2]]; simpl.
  - split; [constructor|]. intros x. tauto.
  - split.
    + apply NoDup_app; [now apply NoDup_filter|assumption|].
      intros x Hx Hx'. apply filter_In in Hx. destruct Hx as [_ Hx].
      apply IH2 in Hx'. destruct Hx' as [_ Hx'].
      apply Z.eqb_eq in Hx. subst k. contradiction.
    + intros x. rewrite in_app_iff, filter_In, IH2, Z.eqb_eq.
      split; [intros [[H1 H2]|[H1 H2]]; auto|].
      intros [H1 [H2|H2]]; auto.
Qed.

Lemma by_key_cluster (key : Z -> Z) (l : list Z) (lo hi : Z) (c : nat) (x : Z) :
  In x (nth c (map (fun k => filter (fun x => key x =? k) l) (range lo hi)) []) <->
  In x l /\ key x = lo + Z.of_nat c /\ lo + Z.of_nat c < hi.
Proof.
  destruct (Nat.lt_ge_cases c (length (range lo hi))) as [Hc|Hc].
  - rewrite (nth_indep _ [] (filter (fun x => key x =? 0) l))
      by (now rewrite length_map).
    rewrite (map_nth (fun k => filter (fun x => key x =? k) l)).
    rewrite range_length in Hc. rewrite range_nth by assumption.
    rewrite filter_In, Z.eqb_eq. split.
    + intros [H1 H2]. repeat split; [assumption|lia|lia].
    + intros [H1 [H2 H3]]. split; [assumption|lia].
  - rewrite nth_overflow by (now rewrite length_map).
    rewrite range_length in Hc. simpl. split; [contradiction|].
    intros [_ [_ H]]. lia.
Qed.

(** [digitize] against edges at whole degrees counts the degrees up to
    the angle. *)
Lemma radians_lt (t : R) (i : Z) :
  (t < radians (IZR i))%R <-> floorZ (degrees t) < i.
Proof.
  unfold radians, degrees, floorZ. pose proof PI_RGT_0 as Hpi.
  destruct (base_Int_part (t * (180 / PI))) as [H1 H2].
  set (F := Int_part (t * (180 / PI))) in *.
  assert (Hd : (t * (180 / PI) < IZR i <-> t < IZR i * (PI / 180))%R).
  { split; intros H.
    - replace t with (t * (180 / PI) * (PI / 180))%R by (field; lra).
      apply Rmult_lt_compat_r; [|assumption].
      apply Rdiv_lt_0_compat; lra.
    - replace (IZR i) with (IZR i * (PI / 180) * (180 / PI))%R by (field; lra).
      apply Rmult_lt_compat_r; [|assumption].
      apply Rdiv_lt_0_compat; lra. }
  rewrite <- Hd. split; intros H.
  - apply lt_IZR. lra.
  - assert (IZR F + 1 <= IZR i)%R; [|lra].
    rewrite <- plus_IZR. apply IZR_le. lia.
Qed.

Lemma digitize_degrees (t : R) (k : nat) (lo : Z) :
  digitize t (map (fun i => radians (IZR i)) (range lo (lo + Z.of_nat k))) =
  Z.max 0 (Z.min (floorZ (degrees t) + 1) (lo + Z.of_nat k) - lo).
Proof.
  revert lo. induction k as [|k IH]; intros lo.
  - rewrite range_empty by lia. simpl. lia.
  - rewrite range_cons by lia. cbn [map digitize].
    destruct (Rlt_dec t (radians (IZR lo))) as [H|H].
    + apply radians_lt in H. lia.
    + assert (~ floorZ (degrees t) < lo) by (intros Hc; apply H, radians_lt, Hc).
      replace (lo + Z.of_nat (S k)) with (lo + 1 + Z.of_nat k) by lia.
      rewrite IH. lia.
Qed.

Lemma pixTheta_nonneg (rad idx : Z) : (0 <= pixTheta newton rad idx)%R.
Proof.
  unfold pixTheta. destruct (idx2Pix newton idx rad) as [[x y]|]; [|lra].
  destruct (vwRay _) as [[Dx Dy] Dz]. apply acos_bound.
Qed.

Lemma floor_degrees_nonneg (t : R) : (0 <= t)%R -> 0 <= floorZ (degrees t).
Proof.
  intros Ht. unfold floorZ, degrees. pose proof PI_RGT_0.
  assert (0 <= t * (180 / PI))%R.
  { apply Rmult_le_pos; [assumption|]. left. apply Rdiv_lt_0_compat; lra. }
  destruct (base_Int_part (t * (180 / PI))) as [H1 H2].
  assert (-1 < Int_part (t * (180 / PI))); [|lia].
  apply lt_IZR. lra.
Qed.

Lemma thetaBin_value (t : R) :
  (0 <= t)%R -> digitize t CLUSTTHETAS - 1 = Z.min (floorZ (degrees t)) 79.
Proof.
  intros Ht. unfold CLUSTTHETAS.
  change (range 0 80) with (range 0 (0 + Z.of_nat 80)).
  rewrite digitize_degrees. pose proof (floor_degrees_nonneg t Ht). lia.
Qed.

(** What a new object computes. *)
Lemma FullRes_new (n : Z) :
  0 <= n ->
  fst (FullResSymmetry_clusters newton new n) =
  Ok (map (fun i =>
             filter (fun idx =>
                       digitize (pixTheta newton (radius n) idx) CLUSTTHETAS - 1 =? i)
                    (range 0 n))
          (range 0 80)).
Proof.
  intros Hn. unfold FullResSymmetry_clusters. rewrite cached_new.
  assert (E0 : (n <? 0) = false) by lia. rewrite E0.
  destruct (thetas_loop (Z.to_nat n)) as [th [E Hth]].
  rewrite Z2Nat.id in E, Hth by lia.
  fold (radius n). rewrite E. cbn [bind].
  fold CLUSTTHETAS.
  rewrite (for_each_append _ _ _
             (fun i => [flatnonzero
                          (map (fun b => b =? i)
                               (map (fun t => digitize t CLUSTTHETAS - 1) th))]))
    by reflexivity.
  rewrite flat_map_single.
  replace (len CLUSTTHETAS) with 80
    by (unfold len, CLUSTTHETAS; now rewrite length_map, range_length).
  cbn [fst app]. f_equal.
  apply map_ext. intros i. rewrite Hth, !map_map.
  apply (flatnonzero_map
           (fun idx => digitize (pixTheta newton (radius n) idx) CLUSTTHETAS - 1 =? i)).
Qed.

Lemma FullRes_partition (n : Z) :
  0 <= n ->
  exists cl, fst (FullResSymmetry_clusters newton new n) = Ok cl /\
             length cl = 80%nat /\ Partition cl n.
Proof.
  intros Hn. rewrite FullRes_new by assumption. eexists. split; [reflexivity|].
  split; [now rewrite length_map, range_length|].
  destruct (by_key_partition
              (fun idx => digitize (pixTheta newton (radius n) idx) CLUSTTHETAS - 1)
              (range 0 n) (range 0 80) (NoDup_range 0 n) (NoDup_range 0 80))
    as [H1 H2].
  split; [exact H1|]. intros x. rewrite H2, !in_range.
  rewrite thetaBin_value by apply pixTheta_nonneg.
  pose proof (floor_degrees_nonneg _ (pixTheta_nonneg (radius n) x)). lia.
Qed.

End FullResFacts.

(* ------------------------------------------------------------------------ *)
(** ** A solver that returns a root *)

Section IdealSolver.

Import Fisheye Symm Spec.

Local Open Scope R_scope.

Lemma sin_cubic_lb (a : R) : 0 <= a <= 4 -> a - a ^ 3 / 6 <= sin a.
Proof.
  intros [H0 H4]. destruct (pre_sin_bound a 0 H0 H4) as [H _].
  unfold sin_approx, sin_term in H. simpl in H. lra.
Qed.

Lemma sin_quintic_ub (a : R) :
  0 <= a <= 4 -> sin a <= a - a ^ 3 / 6 + a ^ 5 / 120.
Proof.
  intros [H0 H4]. destruct (pre_sin_bound a 0 H0 H4) as [_ H].
  unfold sin_approx, sin_term in H. simpl in H. lra.
Qed.

Lemma cos_quadratic_lb (a : R) : -2 <= a <= 2 -> 1 - a ^ 2 / 2 <= cos a.
Proof.
  intros [H0 H4]. destruct (pre_cos_bound a 0 H0 H4) as [H _].
  unfold cos_approx, cos_term in H. simpl in H. lra.
Qed.

Lemma cos_quartic_ub (a : R) :
  -2 <= a <= 2 -> cos a <= 1 - a ^ 2 / 2 + a ^ 4 / 24.
Proof.
  intros [H0 H4]. destruct (pre_cos_bound a 0 H0 H4) as [_ H].
  unfold cos_approx, cos_term in H. simpl in H. lra.
Qed.

Lemma cos_lt_1 (x : R) : 0 < x <= PI -> cos x < 1.
Proof.
  intros Hx. rewrite <- cos_0.
  apply cos_decreasing_1; pose proof PI_RGT_0; lra.
Qed.

Lemma radius_1 : radius 1 = 1%Z.
Proof.
  unfold radius. pose proof PI2_3_2 as Hpi.
  assert (H0 : 0 <= sqrt (1 / PI)) by apply sqrt_pos.
  assert (H1 : sqrt (1 / PI) < 1).
  { rewrite <- sqrt_1 at 2. apply sqrt_lt_1_alt. split.
    - left. apply Rdiv_lt_0_compat; lra.
    - apply Rmult_lt_reg_r with PI; [lra|]. field_simplify; lra. }
  apply int_nonneg_spec; lra.
Qed.

(** The equation has a root. *)
Lemma segment_equation_root (idx rad : Z) :
  exists a, segment_equation idx rad a = 0.
Proof.
  set (c := 2 * IZR (idx - 1) / IZR rad ^ 2).
  assert (Hc : continuity (segment_equation idx rad)).
  { unfold segment_equation. fold c.
    apply continuity_minus; [|apply derivable_continuous, derivable_id].
    apply continuity_plus; [apply continuity_const; intros x y; reflexivity|].
    apply continuity_sin. }
  destruct (IVT_cor (segment_equation idx rad) (c - 1) (c + 1) Hc ltac:(lra))
    as [a [_ Ha]].
  - unfold segment_equation. fold c.
    pose proof (SIN_bound (c - 1)). pose proof (SIN_bound (c + 1)).
    assert (0 <= c + sin (c - 1) - (c - 1)) by lra.
    assert (c + sin (c + 1) - (c + 1) <= 0) by lra.
    nra.
  - eauto.
Qed.

Lemma ideal_solver (idx rad : Z) :
  exists newton : (R -> R) -> R -> (R -> R) -> R, solves newton idx rad.
Proof.
  destruct (segment_equation_root idx rad) as [a Ha].
  exists (fun _ _ _ => a). exact Ha.
Qed.

(** Bin 0 at radius 1, for a solver that returns a root. *)
Lemma idx2Pix_0_1 (newton : (R -> R) -> R -> (R -> R) -> R) :
  solves newton 0 1 -> idx2Pix newton 0 1 = Some (0, 1)%Z.
Proof.
  unfold solves, segment_equation. intros Hroot.
  unfold idx2Pix.
  assert (Eg : ((0 <? 0)%Z || Rgtb (IZR 0) (PI * IZR (1 ^ 2))) = false).
  { unfold Rgtb. destruct (Rgt_dec _ _) as [H|_]; [|reflexivity].
    pose proof PI_RGT_0. simpl in H. lra. }
  rewrite Eg. cbv zeta.
  change (fun a : R => 2 * IZR (0 - 1) / IZR 1 ^ 2 + sin a - a)
    with (segment_equation 0 1) in *.
  set (a := newton (segment_equation 0 1) PI (fun a => cos a - 1)) in *.
  assert (Ha : -3 <= a <= -1).
  { pose proof (SIN_bound a). simpl in Hroot. lra. }
  pose proof PI2_3_2 as Hpi.
  assert (Hcos : 0 < cos (a / 2) < 1).
  { split.
    - apply cos_gt_0; lra.
    - rewrite <- cos_neg. apply cos_lt_1. lra. }
  rewrite (int_nonneg_spec (1 * cos (a / 2)) 0) by lra.
  destruct (Rlt_dec a PI) as [_|Hn]; [|lra].
  change (0 + 1)%Z with 1%Z.
  rewrite segArea_top, chordLen_top by lra.
  replace (0 + 0.5) with 0.5 by lra. replace (0.5 * 0 + 0.5) with 0.5 by lra.
  rewrite (int_nonneg_spec 0.5 0) by lra.
  reflexivity.
Qed.

(** Bin 0 at radius 5, for a solver that returns a root: the pixel is
    (4,9). *)
Lemma idx2Pix_0_5 (newton : (R -> R) -> R -> (R -> R) -> R) :
  solves newton 0 5 -> idx2Pix newton 0 5 = Some (4, 9)%Z.
Proof.
  unfold solves, segment_equation. intros Hroot.
  unfold idx2Pix.
  assert (Eg : ((0 <? 0)%Z || Rgtb (IZR 0) (PI * IZR (5 ^ 2))) = false).
  { unfold Rgtb. destruct (Rgt_dec _ _) as [H|_]; [|reflexivity].
    pose proof PI_RGT_0. simpl in H. lra. }
  rewrite Eg. cbv zeta.
  change (fun a : R => 2 * IZR (0 - 1) / IZR 5 ^ 2 + sin a - a)
    with (segment_equation 0 5) in *.
  set (a := newton (segment_equation 0 5) PI (fun a => cos a - 1)) in *.
  assert (Hc : 2 * IZR (0 - 1) / 5 ^ 2 = - (2 / 25)) by (simpl; lra).
  rewrite Hc in Hroot.
  assert (Ha : -1.08 <= a < 0).
  { pose proof (SIN_bound a). split; [lra|].
    destruct (Rlt_le_dec a 0) as [H0|H0]; [assumption|].
    destruct (Req_dec a 0) as [E|E].
    - rewrite E, sin_0 in Hroot. lra.
    - pose proof (sin_lt_x a ltac:(lra)). lra. }
  pose proof PI2_3_2 as Hpi.
  assert (Hcos : 0.8 <= cos (a / 2) < 1).
  { split.
    - pose proof (cos_quadratic_lb (a / 2) ltac:(lra)). nra.
    - rewrite <- cos_neg. apply cos_lt_1. lra. }
  rewrite (int_nonneg_spec (5 * cos (a / 2)) 4) by lra.
  destruct (Rlt_dec a PI) as [_|Hn]; [|lra].
  change (4 + 1)%Z with 5%Z.
  rewrite segArea_top, chordLen_top by lra.
  replace (0 + 0.5) with 0.5 by lra. replace (0.5 * 0 + 0.5) with 0.5 by lra.
  rewrite (int_nonneg_spec 0.5 0) by lra.
  reflexivity.
Qed.

Lemma pixTheta_0_1 (newton : (R -> R) -> R -> (R -> R) -> R) :
  solves newton 0 1 -> pixTheta newton 1 0 = PI / 2.
Proof.
  intros Hs. unfold pixTheta. rewrite idx2Pix_0_1 by assumption.
  unfold vwRay.
  replace (2 * (0.5 * 0 / 1) - 1) with (-1) by lra.
  replace (2 * (0.5 * 1 / 1) - 1) with 0 by lra.
  replace ((-1) ^ 2 + 0 ^ 2) with 1 by lra.
  rewrite sqrt_1. replace (0.5 * PI * 1) with (PI / 2) by lra.
  rewrite cos_PI2. apply acos_0.
Qed.

Lemma floor_degrees_PI2 : floorZ (degrees (PI / 2)) = 90%Z.
Proof.
  unfold floorZ, degrees. pose proof PI_RGT_0.
  replace (PI / 2 * (180 / PI)) with 90 by (field; lra).
  symmetry. apply Int_part_spec. lra.
Qed.

End IdealSolver.

(* ------------------------------------------------------------------------ *)
(** ** Partitions *)

Section PartitionFacts.

Import Symm Spec.

Variable newton : (R -> R) -> R -> (R -> R) -> R.

Lemma in_concat_nth (cl : Clusters) (x : Z) :
  In x (concat cl) <-> exists i, (i < length cl)%nat /\ In x (nth i cl []).
Proof.
  rewrite in_concat. split.
  - intros [c [Hc Hx]]. destruct (In_nth cl c [] Hc) as [i [Hi E]].
    exists i. rewrite E. auto.
  - intros [i [Hi Hx]]. exists (nth i cl []). split; [|assumption].
    apply nth_In. assumption.
Qed.

Lemma NoDup_concat_disjoint (cl : Clusters) (x : Z) (i j : nat) :
  NoDup (concat cl) ->
  In x (nth i cl []) -> In x (nth j cl []) -> i = j.
Proof.
  revert i j. induction cl as [|c cl IH]; intros i j Hnd Hi Hj.
  - destruct i; contradiction.
  - simpl in Hnd.
    assert (Hdis : forall k, In x c -> In x (nth k cl []) -> False).
    { intros k Hc Hk. destruct (in_split x c Hc) as [l1 [l2 ->]].
      rewrite <- app_assoc in Hnd. simpl in Hnd.
      apply NoDup_remove_2 in Hnd. apply Hnd.
      rewrite !in_app_iff. right. right.
      destruct (Nat.lt_ge_cases k (length cl)) as [Hl|Hl].
      - apply in_concat_nth. eauto.
      - rewrite nth_overflow in Hk by assumption. contradiction. }
    destruct i as [|i], j as [|j]; simpl in Hi, Hj.
    + reflexivity.
    + exfalso. eapply Hdis; eassumption.
    + exfalso. eapply Hdis; eassumption.
    + f_equal. apply IH; [eapply NoDup_app_remove_l; eassumption| |]; assumption.
Qed.

(** In a partition every bin has exactly one cluster. *)
Lemma Partition_unique (cl : Clusters) (n x : Z) :
  Partition cl n -> 0 <= x < n ->
  exists i, (i < length cl)%nat /\ In x (nth i cl []) /\
            forall j, In x (nth j cl []) -> j = i.
Proof.
  intros [Hnd Hin] Hx. apply Hin, in_concat_nth in Hx.
  destruct Hx as [i [Hi Hxi]]. exists i. split; [assumption|].
  split; [assumption|]. intros j Hj.
  eapply NoDup_concat_disjoint; eassumption.
Qed.

Lemma Klems_partition :
  Partition [[0]; range 1 45; range 45 93; range 93 145] 145.
Proof. apply partitionb_sound. vm_compute. reflexivity. Qed.

Lemma Rot_partition (MF : Z) :
  1 <= MF ->
  exists cl, fst (ReinhartRotSymmetry_clusters new (144 * MF ^ 2 + 1)) = Ok cl /\
             len cl = 7 * MF + 1 /\ Partition cl (144 * MF ^ 2 + 1).
Proof.
  intros HM. unfold ReinhartRotSymmetry_clusters. rewrite cached_new.
  pose proof (rows_ok (Z.to_nat MF) ltac:(lia)) as E. cbv zeta in E.
  rewrite Z2Nat.id in E by lia. rewrite (rows_pair new), E. cbn [fst].
  eexists. split; [reflexivity|]. split.
  - unfold len. rewrite length_rev, length_map, length_seq. lia.
  - pose proof (rows_partition (Z.to_nat MF) ltac:(lia)) as P.
    rewrite Z2Nat.id in P by lia. exact P.
Qed.

(** What a new object of each class computes for a size the class is
    written for. *)
Lemma clusters_new_partition (p : policy) (n : Z) :
  supported p n ->
  exists cl, fst (clusters newton p new n) = Ok cl /\ Partition cl n.
Proof.
  destruct p; simpl; intros Hs.
  - subst n. eexists. split; [reflexivity|]. apply Klems_partition.
  - destruct Hs as [MF [HM ->]].
    destruct (Rot_partition MF HM) as [cl [E [_ P]]]. eauto.
  - subst n. destruct Curve_2305 as [cl [E [_ P]]]. eauto.
  - subst n. eexists. split; [reflexivity|]. apply Prof_table_partition.
  - destruct (FullRes_partition newton n Hs) as [cl [E [_ P]]]. eauto.
Qed.

End PartitionFacts.

Section PartitionClaims.

Import Symm Spec.


(** Below its own resolution the curve symmetry does not return at all:
    at the Reinhart size of [MF = 1] the rows 14 and above do not exist. *)
Lemma ReinhartCurve_145_raises :
  (exists r, fst (patches new 145) = Ok r) /\
  fst (ReinhartCurveSymmetry_clusters new 145) =
  Raise (IndexError "index out of bounds").
Proof. split; [eexists|]; vm_compute; reflexivity. Qed.

(** The profile symmetry returns its table of 2305 bins for any size. *)
Lemma ReinhartProf_145_not_partition :
  fst (ReinhartProfSymmetry_clusters new 145) = Ok ReinhartProfSymmetry_table /\
  ~ Partition ReinhartProfSymmetry_table 145.
Proof.
  split; [reflexivity|]. intros [_ P].
  destruct Prof_table_partition as [_ P'].
  assert (H : In 2304 (concat ReinhartProfSymmetry_table)) by (apply P'; lia).
  apply P in H. lia.
Qed.



End PartitionClaims.

Section FullResClaims.

Import Symm Spec.




End FullResClaims.

(* ------------------------------------------------------------------------ *)
(* ------------------------------------------------------------------------ *)
(** ** binary64 arithmetic *)

Section FloatFacts.

Import Float Spec.
Local Open Scope Q_scope.

Lemma pow2_pos (e : Z) : 0 < pow2 e.
Proof. unfold pow2. apply Qpower_0_lt. reflexivity. Qed.

Lemma pow2_plus (a b : Z) : pow2 (a + b) == pow2 a * pow2 b.
Proof. unfold pow2. apply Qpower_plus. discriminate. Qed.

Lemma pow2_succ (a : Z) : pow2 (a + 1) == 2 * pow2 a.
Proof. rewrite pow2_plus. change (pow2 1) with 2. ring. Qed.

Lemma pow2_pred (a : Z) : pow2 a == 2 * pow2 (a - 1).
Proof.
  rewrite <- pow2_succ. replace (a - 1 + 1)%Z with a by lia. reflexivity.
Qed.

Lemma pow2_le (a b : Z) : (a <= b)%Z -> pow2 a <= pow2 b.
Proof.
  intros H. unfold pow2. apply Qpower_le_compat_l; [assumption|discriminate].
Qed.

Lemma pow2_lt (a b : Z) : (a < b)%Z -> pow2 a < pow2 b.
Proof.
  intros H. unfold pow2. apply Qpower_lt_compat_l; [assumption|reflexivity].
Qed.

Lemma pow2_lt_inv (a b : Z) : pow2 a < pow2 b -> (a < b)%Z.
Proof.
  intros H. apply (Qpower_lt_compat_l_inv 2); [assumption|reflexivity].
Qed.

Lemma pow2_inject (n : Z) : (0 <= n)%Z -> pow2 n == inject_Z (2 ^ n).
Proof.
  intros H. unfold pow2. rewrite Zpower_Qpower by assumption. reflexivity.
Qed.

(** Products of inequalities between non-negative rationals. *)
Lemma Qmult_le_lt (a b c d : Q) :
  0 < a -> a <= b -> 0 < c -> c < d -> a * c < b * d.
Proof.
  intros Ha Hab Hc Hcd.
  apply Qlt_le_trans with (a * d).
  - apply Qmult_lt_l; assumption.
  - apply Qmult_le_compat_r; [assumption|].
    apply Qlt_le_weak. apply Qlt_trans with c; assumption.
Qed.

Lemma exponent_spec (q : Q) :
  ~ q == 0 -> pow2 (exponent q) <= Qabs q /\ Qabs q < pow2 (exponent q + 1).
Proof.
  intros Hq. unfold exponent.
  set (n := Z.abs (Qnum q)). set (d := Z.pos (Qden q)).
  set (c := (Z.log2 n - Z.log2 d)%Z).
  assert (Hn : (0 < n)%Z).
  { unfold n. destruct q as [[|p|p] dq]; simpl; try lia.
    exfalso. apply Hq. reflexivity. }
  assert (Hd : (0 < d)%Z) by (unfold d; lia).
  destruct (Z.log2_spec n Hn) as [N1 N2].
  destruct (Z.log2_spec d Hd) as [D1 D2].
  pose proof (Z.log2_nonneg n) as Ln. pose proof (Z.log2_nonneg d) as Ld.
  assert (Eq : Qabs q * inject_Z d == inject_Z n).
  { destruct q as [qn qd]. unfold n, d, Qabs, Qeq, inject_Z. simpl. lia. }
  assert (Pn1 : pow2 (Z.log2 n) <= inject_Z n).
  { rewrite pow2_inject by assumption. rewrite <- Zle_Qle. assumption. }
  assert (Pn2 : inject_Z n < pow2 (Z.log2 n + 1)).
  { rewrite pow2_inject by lia. rewrite <- Zlt_Qlt. exact N2. }
  assert (Pd1 : pow2 (Z.log2 d) <= inject_Z d).
  { rewrite pow2_inject by assumption. rewrite <- Zle_Qle. assumption. }
  assert (Pd2 : inject_Z d < pow2 (Z.log2 d + 1)).
  { rewrite pow2_inject by lia. rewrite <- Zlt_Qlt. exact D2. }
  assert (Hdq : 0 < inject_Z d).
  { change 0 with (inject_Z 0). rewrite <- Zlt_Qlt. assumption. }
  assert (Ec : pow2 (Z.log2 n) == pow2 c * pow2 (Z.log2 d)).
  { rewrite <- pow2_plus. unfold c.
    replace (Z.log2 n - Z.log2 d + Z.log2 d)%Z with (Z.log2 n) by lia.
    reflexivity. }
  assert (Ha : 0 <= Qabs q) by apply Qabs_nonneg.
  pose proof (pow2_pos c) as Pc. pose proof (pow2_pos (Z.log2 d)) as Pld.
  (* |q| < 2^(c+1) *)
  assert (Up : Qabs q < pow2 (c + 1)).
  { apply Qnot_le_lt. intros Hc.
    assert (pow2 (c + 1) * pow2 (Z.log2 d) <= Qabs q * inject_Z d).
    { apply Qle_trans with (Qabs q * pow2 (Z.log2 d)).
      - apply Qmult_le_compat_r; [assumption|]. apply Qlt_le_weak, pow2_pos.
      - rewrite !(Qmult_comm (Qabs q)). apply Qmult_le_compat_r; assumption. }
    rewrite <- pow2_plus, Eq in H.
    replace (c + 1 + Z.log2 d)%Z with (Z.log2 n + 1)%Z in H by (unfold c; lia).
    apply (Qlt_irrefl (inject_Z n)). eapply Qlt_le_trans; eassumption. }
  (* 2^(c-1) < |q| *)
  assert (Lo : pow2 (c - 1) < Qabs q).
  { apply Qnot_le_lt. intros Hc.
    assert (Hlt : Qabs q * inject_Z d < pow2 (c - 1) * pow2 (Z.log2 d + 1)).
    { destruct (Qlt_le_dec 0 (Qabs q)) as [Hp|Hz].
      - apply Qmult_le_lt; assumption.
      - assert (Hz0 : Qabs q == 0) by (apply Qle_antisym; assumption).
        rewrite Hz0, Qmult_0_l.
        apply Qmult_lt_0_compat; apply pow2_pos. }
    rewrite <- pow2_plus, Eq in Hlt.
    replace (c - 1 + (Z.log2 d + 1))%Z with (Z.log2 n) in Hlt by (unfold c; lia).
    apply (Qlt_irrefl (inject_Z n)). eapply Qlt_le_trans; eassumption. }
  destruct (Qle_bool (pow2 c) (Qabs q)) eqn:E.
  - apply Qle_bool_iff in E. split; assumption.
  - split; [apply Qlt_le_weak; assumption|].
    replace (c - 1 + 1)%Z with c by lia.
    apply Qnot_le_lt. intros Hc. apply Qle_bool_iff in Hc. congruence.
Qed.

Lemma rint_spec (x : Q) : Qabs (inject_Z (rint x) - x) <= 1 # 2.
Proof.
  unfold rint. cbv zeta.
  pose proof (Qfloor_le x) as H1. pose proof (Qlt_floor x) as H2.
  rewrite inject_Z_plus in H2. change (inject_Z 1) with 1 in H2.
  apply Qabs_Qle_condition.
  destruct (x - inject_Z (Qfloor x) ?= 1 # 2) eqn:E;
    [apply Qeq_alt in E; destruct (Z.even (Qfloor x))
    |apply Qlt_alt in E|apply Qgt_alt in E];
    rewrite ?inject_Z_plus; change (inject_Z 1) with 1;
    split; Lqa.lra.
Qed.

Lemma rint_comp (x y : Q) : x == y -> rint x = rint y.
Proof.
  intros H. unfold rint. rewrite (Qfloor_comp x y H).
  assert (E : (x - inject_Z (Qfloor y) ?= 1 # 2) =
              (y - inject_Z (Qfloor y) ?= 1 # 2)).
  { apply Qcompare_comp; [rewrite H|]; reflexivity. }
  rewrite E. reflexivity.
Qed.

Lemma rint_inject (k : Z) : rint (inject_Z k) = k.
Proof.
  unfold rint. rewrite Qfloor_Z.
  assert (E : (inject_Z k - inject_Z k ?= 1 # 2) = Lt).
  { apply -> Qlt_alt. Lqa.lra. }
  rewrite E. reflexivity.
Qed.


Lemma Qabs_scale (x y p : Q) :
  0 < p -> Qabs (x * p - y) == Qabs (x - y / p) * p.
Proof.
  intros Hp.
  assert (E : x * p - y == (x - y / p) * p) by (field; Lqa.lra).
  rewrite E, Qabs_Qmult, (Qabs_pos p) by Lqa.lra. reflexivity.
Qed.

Lemma round_cases (q : Q) :
  ~ q == 0 ->
  exists m e,
    e = (Z.max (exponent q) (-1022) - 52)%Z /\
    m = rint (q / pow2 e) /\
    Qabs (inject_Z m * pow2 e - q) <= pow2 (e - 1) /\
    (round q = Zero (negative q) /\ m = 0%Z \/
     round q = Inf (negative q) /\
       pow2 1024 <= Qabs (inject_Z m * pow2 e) \/
     exists r, round q = Finite r /\ r == inject_Z m * pow2 e /\ m <> 0%Z /\
               Qabs r < pow2 1024).
Proof.
  intros Hq. unfold round. cbv zeta.
  set (e := (Z.max (exponent q) (-1022) - 52)%Z).
  set (m := rint (q / pow2 e)).
  exists m, e. split; [reflexivity|]. split; [reflexivity|].
  pose proof (pow2_pos e) as Pe. split.
  - rewrite Qabs_scale by assumption.
    pose proof (rint_spec (q / pow2 e)) as Hr. fold m in Hr.
    pose proof (pow2_pred e) as E2.
    apply Qle_trans with ((1 # 2) * pow2 e).
    + apply Qmult_le_compat_r; [assumption|Lqa.lra].
    + Lqa.lra.
  - destruct (m =? 0)%Z eqn:Em.
    + left. split; [reflexivity|]. apply Z.eqb_eq. assumption.
    + right. destruct (Qle_bool (pow2 1024) (Qabs (inject_Z m * pow2 e))) eqn:Eo.
      * left. split; [reflexivity|]. apply Qle_bool_iff. assumption.
      * right. eexists. split; [reflexivity|]. split; [apply Qred_correct|].
        split; [apply Z.eqb_neq; assumption|].
        rewrite Qred_correct. apply Qnot_le_lt. intros Hc.
        apply Qle_bool_iff in Hc. congruence.
Qed.

End FloatFacts.

Section RoundFacts.

Import Float Spec.
Local Open Scope Q_scope.

Lemma negative_pos (q : Q) : 0 < q -> negative q = false.
Proof.
  intros H. unfold negative.
  assert (E : Qle_bool 0 q = true) by (apply Qle_bool_iff; Lqa.lra).
  rewrite E. reflexivity.
Qed.

Lemma on_grid_scaled (m e : Z) :
  (-1074 <= e)%Z -> on_grid (inject_Z m * pow2 e).
Proof.
  intros He. exists (m * 2 ^ (e + 1074))%Z.
  rewrite inject_Z_mult, <- pow2_inject by lia.
  rewrite <- Qmult_assoc, <- pow2_plus.
  replace (e + 1074 + -1074)%Z with e by lia. reflexivity.
Qed.

Lemma on_grid_plus (a b : Q) : on_grid a -> on_grid b -> on_grid (a + b).
Proof.
  intros [k Hk] [l Hl]. exists (k + l)%Z.
  rewrite inject_Z_plus, Hk, Hl. ring.
Qed.

Lemma on_grid_comp (a b : Q) : a == b -> on_grid a -> on_grid b.
Proof. intros E [k Hk]. exists k. rewrite <- E. assumption. Qed.

(** The exponent of a number at or above [2^-1022]. *)
Lemma exponent_normal (q : Q) :
  ~ q == 0 -> pow2 (-1022) <= Qabs q -> (-1022 <= exponent q)%Z.
Proof.
  intros Hq Hn. destruct (exponent_spec q Hq) as [_ H2].
  assert (H : pow2 (-1022) < pow2 (exponent q + 1))
    by (eapply Qle_lt_trans; eassumption).
  apply pow2_lt_inv in H. lia.
Qed.

Lemma exponent_subnormal (q : Q) :
  ~ q == 0 -> Qabs q < pow2 (-1022) -> (exponent q < -1022)%Z.
Proof.
  intros Hq Hn. destruct (exponent_spec q Hq) as [H1 _].
  assert (H : pow2 (exponent q) < pow2 (-1022))
    by (eapply Qle_lt_trans; eassumption).
  apply pow2_lt_inv in H. assumption.
Qed.

(** Rounding a positive number: the result is not negative, lies on the
    grid, and is off by at most the relative error [2^-53] above
    [2^-1022] and by at most [2^-1075] below. *)
Lemma round_pos (q : Q) :
  0 < q ->
  round q = Inf false \/
  exists r, (round q = Zero false /\ r == 0 \/ round q = Finite r /\ 0 < r) /\
            on_grid r /\ r < pow2 1024 /\
            (pow2 (-1022) <= q -> Qabs (r - q) <= q * pow2 (-53)) /\
            (q < pow2 (-1022) -> Qabs (r - q) <= pow2 (-1075)).
Proof.
  intros Hq. assert (Hq0 : ~ q == 0) by Lqa.lra.
  destruct (round_cases q Hq0) as [m [e [Ee [Em [Herr Hc]]]]].
  rewrite (negative_pos q Hq) in Hc.
  assert (He : (-1074 <= e)%Z) by lia.
  pose proof (pow2_pos e) as Pe.
  assert (Hm : (0 <= m)%Z).
  { pose proof (rint_spec (q / pow2 e)) as Hr. rewrite <- Em in Hr.
    apply Qabs_Qle_condition in Hr. destruct Hr as [Hr _].
    assert (Hx : 0 < q / pow2 e).
    { apply Qlt_shift_div_l; [assumption|]. Lqa.lra. }
    assert (Hm1 : inject_Z (-1) < inject_Z m).
    { change (inject_Z (-1)) with (-1 # 1). Lqa.lra. }
    rewrite <- Zlt_Qlt in Hm1. lia. }
  assert (Herr1 : pow2 (-1022) <= q ->
                  Qabs (inject_Z m * pow2 e - q) <= q * pow2 (-53)).
  { intros Hn. rewrite <- (Qabs_pos q) in Hn by Lqa.lra.
    pose proof (exponent_normal q Hq0 Hn) as Hx.
    destruct (exponent_spec q Hq0) as [H1 _].
    rewrite Qabs_pos in H1 by Lqa.lra.
    eapply Qle_trans; [exact Herr|].
    replace (e - 1)%Z with (exponent q + -53)%Z by lia.
    rewrite pow2_plus. apply Qmult_le_compat_r; [assumption|].
    apply Qlt_le_weak, pow2_pos. }
  assert (Herr2 : q < pow2 (-1022) ->
                  Qabs (inject_Z m * pow2 e - q) <= pow2 (-1075)).
  { intros Hn. rewrite <- (Qabs_pos q) in Hn by Lqa.lra.
    pose proof (exponent_subnormal q Hq0 Hn) as Hx.
    replace (-1075)%Z with (e - 1)%Z by lia. assumption. }
  destruct Hc as [[E Hm0]|[[E _]|[r [E [Er [Hm0 Hr]]]]]].
  - right. exists 0. split; [left; split; [assumption|reflexivity]|].
    split; [exists 0%Z; reflexivity|]. split; [apply pow2_pos|].
    rewrite Hm0 in Herr1, Herr2.
    assert (E0 : inject_Z 0 * pow2 e - q == 0 - q) by ring.
    rewrite E0 in Herr1, Herr2. split; assumption.
  - left. assumption.
  - right. exists r.
    assert (Hr0 : 0 < r).
    { rewrite Er. apply Qmult_lt_0_compat; [|assumption].
      change 0 with (inject_Z 0). rewrite <- Zlt_Qlt. lia. }
    split; [right; split; assumption|].
    split; [apply (on_grid_comp (inject_Z m * pow2 e)); [symmetry; assumption|];
            apply on_grid_scaled; assumption|].
    split; [rewrite Qabs_pos in Hr by Lqa.lra; assumption|].
    assert (E1 : r - q == inject_Z m * pow2 e - q) by (rewrite Er; reflexivity).
    rewrite E1. split; assumption.
Qed.

(** A positive number on the grid below [2^-1022] is a value of the
    format. *)
Lemma round_exact (q : Q) :
  0 < q -> on_grid q -> q < pow2 (-1022) ->
  exists r, round q = Finite r /\ r == q.
Proof.
  intros Hq [k Hk] Hn. assert (Hq0 : ~ q == 0) by Lqa.lra.
  assert (Hx : (exponent q < -1022)%Z).
  { apply exponent_subnormal; [assumption|]. rewrite Qabs_pos by Lqa.lra.
    assumption. }
  unfold round. cbv zeta.
  replace (Z.max (exponent q) (-1022) - 52)%Z with (-1074)%Z by lia.
  assert (Ek : q / pow2 (-1074) == inject_Z k).
  { rewrite Hk. field. pose proof (pow2_pos (-1074)). Lqa.lra. }
  rewrite (rint_comp _ _ Ek), rint_inject.
  assert (Hk0 : (0 < k)%Z).
  { rewrite Zlt_Qlt. change (inject_Z 0) with 0.
    pose proof (pow2_pos (-1074)) as Pp. rewrite Hk in Hq.
    destruct (Qlt_le_dec 0 (inject_Z k)) as [|Hc]; [assumption|exfalso].
    assert (inject_Z k * pow2 (-1074) <= 0 * pow2 (-1074)).
    { apply Qmult_le_compat_r; [assumption|Lqa.lra]. }
    Lqa.lra. }
  assert (E0 : (k =? 0)%Z = false) by lia. rewrite E0.
  assert (Eo : Qle_bool (pow2 1024) (Qabs (inject_Z k * pow2 (-1074))) = false).
  { apply not_true_is_false. intros Hc. apply Qle_bool_iff in Hc.
    rewrite <- Hk, Qabs_pos in Hc by Lqa.lra.
    assert (pow2 (-1022) < pow2 1024) by (apply pow2_lt; lia). Lqa.lra. }
  rewrite Eo. eexists. split; [reflexivity|].
  rewrite Qred_correct. symmetry. assumption.
Qed.

End RoundFacts.

Section AddFacts.

Import Float Spec.
Local Open Scope Q_scope.

Lemma u_pos : 0 < u.
Proof. apply pow2_pos. Qed.

Lemma u_lt_1 : u < 1.
Proof. change 1 with (pow2 0). apply pow2_lt. lia. Qed.

Lemma value_nonneg (x : float) : nonneg x -> 0 <= value x.
Proof.
  destruct x as [s|q|s|]; simpl; intros H; Lqa.lra.
Qed.

Lemma value_zero (x : float) :
  nonneg x -> finite x = true -> value x == 0 -> exists s, x = Zero s.
Proof.
  destruct x as [s|q|s|]; simpl; intros H F E; try discriminate.
  - eauto.
  - destruct H. Lqa.lra.
Qed.

(** The sum of two values that are not negative: not negative either,
    and when it is finite so are the two values and the result is off by
    the relative error [u] at most; adding a zero is exact. *)
Lemma add_nonneg (x y : float) :
  nonneg x -> nonneg y ->
  nonneg (add x y) /\
  (finite (add x y) = true ->
   finite x = true /\ finite y = true /\
   (value x + value y) * (1 - u) <= value (add x y) /\
   value (add x y) <= (value x + value y) * (1 + u) /\
   (value x == 0 \/ value y == 0 -> value (add x y) == value x + value y)).
Proof.
  pose proof u_pos as Hu. pose proof u_lt_1 as Hu1.
  destruct x as [s|a|s|]; destruct y as [t|b|t|]; simpl; intros Hx Hy;
    try contradiction.
  - split; [exact I|]. intros _. repeat (split; [reflexivity|]).
    split; [Lqa.lra|]. split; [Lqa.lra|]. intros _. Lqa.lra.
  - split; [assumption|]. intros _. repeat (split; [reflexivity|]).
    destruct Hy as [Hb _].
    split; [Lqa.nra|]. split; [Lqa.nra|]. intros _. Lqa.lra.
  - split; [assumption|]. discriminate.
  - split; [assumption|]. intros _. repeat (split; [reflexivity|]).
    destruct Hx as [Ha _].
    split; [Lqa.nra|]. split; [Lqa.nra|]. intros _. Lqa.lra.
  - destruct Hx as [Ha Ga]. destruct Hy as [Hb Gb].
    assert (Hq : 0 < a + b) by Lqa.lra.
    assert (Ez : Qeq_bool (a + b) 0 = false).
    { apply not_true_is_false. intros Hc. apply Qeq_bool_iff in Hc. Lqa.lra. }
    rewrite Ez.
    destruct (round_pos (a + b) Hq) as [E|[r [Hc [Gr [_ [H1 H2]]]]]].
    + rewrite E. split; [reflexivity|]. discriminate.
    + assert (Hrel : Qabs (r - (a + b)) <= (a + b) * u).
      { destruct (Qlt_le_dec (a + b) (pow2 (-1022))) as [Hs|Hn].
        - destruct (round_exact (a + b) Hq (on_grid_plus a b Ga Gb) Hs)
            as [r' [E' Er']].
          destruct Hc as [[E _]|[E _]]; rewrite E in E'; [discriminate|].
          injection E' as <-.
          assert (E0 : r - (a + b) == 0) by (rewrite Er'; ring).
          rewrite E0. simpl. Lqa.nra.
        - apply H1. assumption. }
      apply Qabs_Qle_condition in Hrel.
      destruct Hc as [[E Er]|[E Er]]; rewrite E; simpl.
      * exfalso. rewrite Er in Hrel. Lqa.nra.
      * split; [split; assumption|]. intros _.
        repeat (split; [reflexivity|]).
        split; [Lqa.lra|]. split; [Lqa.lra|].
        intros [Hc|Hc]; Lqa.lra.
  - split; [assumption|]. discriminate.
  - split; [assumption|]. discriminate.
  - split; [assumption|]. discriminate.
  - subst. simpl. split; [reflexivity|]. discriminate.
Qed.

End AddFacts.

Section SummationFacts.

Import Float Spec.
Local Open Scope Q_scope.

(** One addition in the error analysis of a sum: from the bounds of two
    partial sums to the bounds of their rounded sum. *)
Lemma sum_step (A B vx vy v na nb : Q) :
  0 <= A -> 0 <= B -> 0 <= vx -> 0 <= vy -> 1 <= na -> 1 <= nb ->
  A * (1 - na * u) <= vx -> vx * (1 - na * u) <= A ->
  B * (1 - nb * u) <= vy -> vy * (1 - nb * u) <= B ->
  (vx + vy) * (1 - u) <= v -> v <= (vx + vy) * (1 + u) ->
  (A + B) * (1 - (na + nb) * u) <= v /\
  v * (1 - (na + nb) * u) <= A + B.
Proof.
  intros HA HB Hx Hy Hna Hnb H1 H2 H3 H4 H5 H6.
  pose proof u_pos as Hu. pose proof u_lt_1 as Hu1.
  assert (P1 : 0 <= A * (nb - 1) * u).
  { apply Qmult_le_0_compat; [apply Qmult_le_0_compat|]; Lqa.lra. }
  assert (P2 : 0 <= B * (na - 1) * u).
  { apply Qmult_le_0_compat; [apply Qmult_le_0_compat|]; Lqa.lra. }
  assert (P3 : 0 <= (A + B) * (na + nb - 1) * u * u).
  { repeat apply Qmult_le_0_compat; Lqa.lra. }
  assert (P4 : 0 <= vx * (nb - 1) * u).
  { apply Qmult_le_0_compat; [apply Qmult_le_0_compat|]; Lqa.lra. }
  assert (P5 : 0 <= vy * (na - 1) * u).
  { apply Qmult_le_0_compat; [apply Qmult_le_0_compat|]; Lqa.lra. }
  assert (P6 : 0 <= (vx + vy) * (na + nb) * u * u).
  { repeat apply Qmult_le_0_compat; Lqa.lra. }
  assert (Hv : 0 <= v).
  { apply Qle_trans with ((vx + vy) * (1 - u)); [|assumption].
    apply Qmult_le_0_compat; Lqa.lra. }
  split.
  - assert (S1 : (A + B) * (1 - (na + nb - 1) * u) <= vx + vy) by Lqa.lra.
    assert (S3 : (A + B) * (1 - (na + nb - 1) * u) * (1 - u) <=
                 (vx + vy) * (1 - u)).
    { apply Qmult_le_compat_r; Lqa.lra. }
    Lqa.lra.
  - destruct (Qlt_le_dec (1 - (na + nb) * u) 0) as [Hn|Hp].
    + assert (0 <= v * - (1 - (na + nb) * u)).
      { apply Qmult_le_0_compat; Lqa.lra. }
      Lqa.lra.
    + assert (S4 : v * (1 - (na + nb) * u) <=
                   (vx + vy) * (1 + u) * (1 - (na + nb) * u)).
      { apply Qmult_le_compat_r; assumption. }
      Lqa.lra.
Qed.

Lemma total_app (a b : list float) : total (a ++ b) == total a + total b.
Proof.
  induction a as [|x a IH]; simpl; [ring|]. rewrite IH. ring.
Qed.

Lemma total_perm (a b : list float) :
  Permutation a b -> total a == total b.
Proof.
  induction 1; simpl.
  - reflexivity.
  - rewrite IHPermutation. reflexivity.
  - ring.
  - rewrite IHPermutation1. assumption.
Qed.

Lemma total_nonneg (a : list float) : Forall nonneg a -> 0 <= total a.
Proof.
  induction 1 as [|x a Hx Ha IH]; simpl; [Lqa.lra|].
  pose proof (value_nonneg x Hx). Lqa.lra.
Qed.

Lemma summation_nil_inv (l : list float) (t : float) :
  summation l t -> l = [] -> exists s, t = Zero s.
Proof.
  induction 1 as [s|x|a b x y Ha IHa Hb IHb|a b x Hp Ha IH]; intros E.
  - eauto.
  - discriminate.
  - apply app_eq_nil in E. destruct E as [Ea Eb].
    destruct (IHa Ea) as [s ->]. destruct (IHb Eb) as [t ->].
    simpl. eauto.
  - subst b. apply Permutation_sym, Permutation_nil in Hp. auto.
Qed.

Lemma count_app (a b : list float) : count (a ++ b) == count a + count b.
Proof.
  unfold count. rewrite length_app, Nat2Z.inj_add, inject_Z_plus. reflexivity.
Qed.

Lemma count_pos (l : list float) : l <> [] -> 1 <= count l.
Proof.
  intros H. unfold count. change 1 with (inject_Z 1). rewrite <- Zle_Qle.
  destruct l; [contradiction|]. simpl length. lia.
Qed.

Lemma count_nonneg (l : list float) : 0 <= count l.
Proof.
  unfold count. change 0 with (inject_Z 0). rewrite <- Zle_Qle. lia.
Qed.

(** Sums of values that are not negative, in any order and bracketing:
    the sum is not negative; when it is finite so are all the entries,
    it is zero only if all of them are, and it differs from the exact
    total by the relative error [n u] at most, for [n] entries. *)
Lemma summation_nonneg (l : list float) (t : float) :
  summation l t -> Forall nonneg l ->
  nonneg t /\
  (finite t = true ->
   Forall (fun x => finite x = true) l /\
   (value t == 0 -> total l == 0) /\
   total l * (1 - count l * u) <= value t /\
   value t * (1 - count l * u) <= total l).
Proof.
  pose proof u_pos as Hu. pose proof u_lt_1 as Hu1.
  induction 1 as [s|x|a b x y Ha IHa Hb IHb|a b x Hp Ha IH]; intros Hl.
  - split; [exact I|]. intros _. split; [constructor|].
    unfold count. simpl. split; [reflexivity|]. split; Lqa.lra.
  - inversion Hl as [|? ? Hx _]; subst. split; [assumption|]. intros F.
    split; [constructor; [assumption|constructor]|].
    pose proof (value_nonneg x Hx) as Hv.
    unfold count. simpl. change (inject_Z 1) with 1.
    split; [intros E; Lqa.lra|]. split; Lqa.nra.
  - apply Forall_app in Hl. destruct Hl as [Hla Hlb].
    destruct (IHa Hla) as [Nx Fx]. destruct (IHb Hlb) as [Ny Fy].
    destruct (add_nonneg x y Nx Ny) as [Nt Ft].
    split; [assumption|]. intros F.
    destruct (Ft F) as [F1 [F2 [B1 [B2 Ex]]]].
    destruct (Fx F1) as [Aa [Za [La Ua]]].
    destruct (Fy F2) as [Ab [Zb [Lb Ub]]].
    pose proof (value_nonneg x Nx) as Vx. pose proof (value_nonneg y Ny) as Vy.
    pose proof (total_nonneg a Hla) as Ta. pose proof (total_nonneg b Hlb) as Tb.
    pose proof (count_nonneg a) as Ca. pose proof (count_nonneg b) as Cb.
    split; [apply Forall_app; split; assumption|].
    rewrite total_app, count_app.
    split.
    { intros E.
      assert (P : 0 <= (value x + value y) * (1 - u))
        by (apply Qmult_le_0_compat; Lqa.lra).
      assert (E1 : (value x + value y) * (1 - u) == 0) by Lqa.lra.
      assert (E2 : value x + value y == 0).
      { destruct (Qeq_dec (value x + value y) 0) as [|Hne]; [assumption|].
        exfalso. assert (0 < value x + value y) by Lqa.lra.
        assert (0 < (value x + value y) * (1 - u))
          by (apply Qmult_lt_0_compat; Lqa.lra).
        Lqa.lra. }
      rewrite Za, Zb by Lqa.lra. reflexivity. }
    destruct (Qeq_dec (value x) 0) as [Ex0|Ex1].
    { rewrite (Ex (or_introl Ex0)), (Za Ex0), Ex0.
      assert (P1 : 0 <= total b * count a * u)
        by (repeat apply Qmult_le_0_compat; Lqa.lra).
      assert (P2 : 0 <= value y * count a * u)
        by (repeat apply Qmult_le_0_compat; Lqa.lra).
      split; Lqa.lra. }
    destruct (Qeq_dec (value y) 0) as [Ey0|Ey1].
    { rewrite (Ex (or_intror Ey0)), (Zb Ey0), Ey0.
      assert (P1 : 0 <= total a * count b * u)
        by (repeat apply Qmult_le_0_compat; Lqa.lra).
      assert (P2 : 0 <= value x * count b * u)
        by (repeat apply Qmult_le_0_compat; Lqa.lra).
      split; Lqa.lra. }
    assert (Na : a <> []).
    { intros E. destruct (summation_nil_inv a x Ha E) as [s ->].
      apply Ex1. reflexivity. }
    assert (Nb : b <> []).
    { intros E. destruct (summation_nil_inv b y Hb E) as [s ->].
      apply Ey1. reflexivity. }
    apply (sum_step (total a) (total b) (value x) (value y));
      try assumption; apply count_pos; assumption.
  - assert (Hla : Forall nonneg a).
    { apply (Permutation_Forall (Permutation_sym Hp)). assumption. }
    destruct (IH Hla) as [Nx Fx]. split; [assumption|]. intros F.
    destruct (Fx F) as [Aa [Za [La Ua]]].
    split; [apply (Permutation_Forall Hp); assumption|].
    assert (Ec : count b == count a).
    { unfold count. rewrite (Permutation_length Hp). reflexivity. }
    rewrite <- (total_perm a b Hp), Ec. repeat split; assumption.
Qed.

End SummationFacts.

Section DivFacts.

Import Float Spec.
Local Open Scope Q_scope.

Lemma pow2_le_inv (a b : Z) : pow2 a <= pow2 b -> (a <= b)%Z.
Proof.
  intros H. apply (Qpower_le_compat_l_inv 2); [assumption|reflexivity].
Qed.

(** No overflow up to [2^1023]. *)
Lemma round_no_overflow (q : Q) :
  0 < q -> q <= pow2 1023 -> round q <> Inf false.
Proof.
  intros Hq Hb E. assert (Hq0 : ~ q == 0) by Lqa.lra.
  destruct (round_cases q Hq0) as [m [e [Ee [Em [Herr Hc]]]]].
  rewrite (negative_pos q Hq) in Hc.
  destruct Hc as [[E1 _]|[[_ Ho]|[r [E1 _]]]]; try congruence.
  destruct (exponent_spec q Hq0) as [H1 _].
  rewrite Qabs_pos in H1 by Lqa.lra.
  assert (Hx : (exponent q <= 1023)%Z).
  { apply pow2_le_inv. eapply Qle_trans; eassumption. }
  assert (He : pow2 (e - 1) <= pow2 970) by (apply pow2_le; lia).
  assert (Hlt : pow2 1023 + pow2 970 < pow2 1024).
  { rewrite (pow2_pred 1024). change (1024 - 1)%Z with 1023%Z.
    assert (pow2 970 < pow2 1023) by (apply pow2_lt; lia). Lqa.lra. }
  assert (Ht : Qabs (inject_Z m * pow2 e) <= q + pow2 (e - 1)).
  { apply Qabs_Qle_condition in Herr. apply Qabs_Qle_condition.
    pose proof (pow2_pos (e - 1)). split; Lqa.lra. }
  Lqa.lra.
Qed.

(** The quotient of two positive numbers, when it is at most [2^1023]:
    finite, not negative, and off by the relative error [u] and the
    absolute error [2^-1075] at most. *)
Lemma div_pos (a t : Q) :
  0 < a -> 0 < t -> a / t <= pow2 1023 ->
  finite (div (Finite a) (Finite t)) = true /\
  Qabs (value (div (Finite a) (Finite t)) - a / t) <= a / t * u + u.
Proof.
  intros Ha Ht Hb. cbn [div].
  assert (Hq : 0 < a / t) by (apply Qlt_shift_div_l; Lqa.lra).
  pose proof (round_no_overflow (a / t) Hq Hb) as Hno.
  pose proof u_pos as Hu.
  assert (Heta : pow2 (-1075) <= u) by (apply pow2_le; lia).
  assert (P : 0 <= a / t * u) by (apply Qmult_le_0_compat; Lqa.lra).
  destruct (round_pos (a / t) Hq) as [E|[r [Hc [_ [_ [H1 H2]]]]]];
    [contradiction|].
  assert (Hr : Qabs (r - a / t) <= a / t * u + u).
  { destruct (Qlt_le_dec (a / t) (pow2 (-1022))) as [Hs|Hn].
    - specialize (H2 Hs). Lqa.lra.
    - specialize (H1 Hn). fold u in H1. Lqa.lra. }
  destruct Hc as [[E Er]|[E Er]]; rewrite E; cbn [value finite].
  - split; [reflexivity|].
    assert (E0 : 0 - a / t == r - a / t) by (rewrite Er; reflexivity).
    rewrite E0. assumption.
  - split; [reflexivity|assumption].
Qed.

Lemma value_le_total (l : list float) (x : float) :
  Forall nonneg l -> In x l -> value x <= total l.
Proof.
  induction 1 as [|y l Hy Hl IH]; intros Hin; [contradiction|]. simpl.
  pose proof (value_nonneg y Hy). pose proof (total_nonneg l Hl).
  destruct Hin as [->|Hin]; [|specialize (IH Hin)]; Lqa.lra.
Qed.

(** The entries of a vector divided by a positive number [t]. *)
Lemma divide_all (l : list float) (t : Q) :
  0 < t ->
  Forall nonneg l ->
  Forall (fun x => finite x = true) l ->
  (forall x, In x l -> value x / t <= pow2 1023) ->
  Forall (fun x => finite x = true) (map (fun s => div s (Finite t)) l) /\
  Qabs (total (map (fun s => div s (Finite t)) l) - total l / t) <=
  total l / t * u + count l * u.
Proof.
  intros Ht Hn Hf Hb. pose proof u_pos as Hu.
  induction l as [|x l IH].
  - simpl. split; [constructor|]. unfold count. simpl.
    assert (E : 0 - 0 / t == 0) by (field; Lqa.lra). rewrite E. simpl.
    assert (E1 : 0 / t * u + 0 * u == 0) by (field; Lqa.lra). rewrite E1.
    Lqa.lra.
  - inversion Hn as [|? ? Nx Nl]; subst. inversion Hf as [|? ? Fx Fl]; subst.
    destruct (IH Nl Fl) as [IH1 IH2].
    { intros y Hy. apply Hb. now right. }
    assert (Hx : finite (div x (Finite t)) = true /\
                 Qabs (value (div x (Finite t)) - value x / t) <=
                 value x / t * u + u).
    { destruct x as [s|a|s|]; simpl in Nx, Fx; try discriminate.
      - simpl. split; [reflexivity|].
        assert (E : 0 - 0 / t == 0) by (field; Lqa.lra). rewrite E. simpl.
        assert (E1 : 0 / t * u + u == u) by (field; Lqa.lra). rewrite E1.
        Lqa.lra.
      - destruct Nx as [Ha _]. apply div_pos; [assumption|assumption|].
        apply (Hb (Finite a)). now left. }
    destruct Hx as [Hx1 Hx2].
    split; [simpl; constructor; assumption|].
    cbn [map]. change (total (x :: l)) with (value x + total l).
    change (total (div x (Finite t) :: map (fun s => div s (Finite t)) l))
      with (value (div x (Finite t)) +
            total (map (fun s => div s (Finite t)) l)).
    assert (Ec : count (x :: l) == 1 + count l).
    { unfold count. simpl length. rewrite Nat2Z.inj_succ, <- Z.add_1_l.
      rewrite inject_Z_plus. reflexivity. }
    rewrite Ec.
    assert (Ed : (value x + total l) / t == value x / t + total l / t)
      by (field; Lqa.lra).
    rewrite Ed.
    apply Qabs_Qle_condition in Hx2. apply Qabs_Qle_condition in IH2.
    apply Qabs_Qle_condition.
    revert Hx2 IH2. generalize (value x / t) (total l / t).
    intros p q Hx2 IH2. split; Lqa.lra.
Qed.

(** The arithmetic of the final bound. *)
Lemma normalise_arith (X Y c : Q) :
  0 <= c -> c <= pow2 (-32) ->
  1 - c <= X -> X * (1 - c) <= 1 ->
  Qabs (Y - X) <= X * u + c ->
  Qabs (Y - 1) <= 1 # 1000000000.
Proof.
  intros Hc0 Hc1 HX1 HX2 HY.
  assert (Eu : u == 1 # 9007199254740992) by reflexivity.
  assert (Ec : pow2 (-32) == 1 # 4294967296) by reflexivity.
  rewrite Ec in Hc1. rewrite Eu in HY.
  assert (HX0 : 0 <= X) by Lqa.lra.
  assert (P1 : X * c <= X * (1 # 4294967296)).
  { rewrite !(Qmult_comm X). apply Qmult_le_compat_r; assumption. }
  apply Qabs_Qle_condition in HY. apply Qabs_Qle_condition.
  split; Lqa.lra.
Qed.

End DivFacts.

Section NormaliseFacts.

Import Float Spec.
Local Open Scope Q_scope.

(** A vector of values that are not negative and not all zero, divided
    by its sum as the additions of the format give it: when the sum has
    not overflowed, the entries are finite and their exact total is 1
    within 1e-9, for up to [2^21] entries. *)
Lemma normalise_bound (sums : list float) (T : float) :
  Forall nonneg sums ->
  summation sums T ->
  finite T = true ->
  0 < total sums ->
  (Z.of_nat (length sums) <= 2097152)%Z ->
  Forall (fun x => finite x = true) (map (fun s => div s T) sums) /\
  Qabs (total (map (fun s => div s T) sums) - 1) <= 1 # 1000000000.
Proof.
  intros Hn Hs Hf Hpos Hk.
  destruct (summation_nonneg sums T Hs Hn) as [NT FT].
  destruct (FT Hf) as [Hall [Hz [L U]]].
  pose proof u_pos as Hu.
  set (c := count sums * u) in *.
  assert (Hc0 : 0 <= c).
  { unfold c. apply Qmult_le_0_compat; [apply count_nonneg|Lqa.lra]. }
  assert (Hc1 : c <= pow2 (-32)).
  { unfold c. change (-32)%Z with (21 + -53)%Z. rewrite pow2_plus.
    apply Qmult_le_compat_r; [|apply Qlt_le_weak, pow2_pos].
    unfold count. rewrite (pow2_inject 21) by lia. rewrite <- Zle_Qle.
    change (2 ^ 21)%Z with 2097152%Z. lia. }
  assert (Ec : pow2 (-32) == 1 # 4294967296) by reflexivity.
  rewrite Ec in Hc1.
  destruct T as [s|t|s|]; simpl in NT, Hf; try discriminate.
  - exfalso. simpl in Hz. assert (total sums == 0) by (apply Hz; reflexivity).
    Lqa.lra.
  - destruct NT as [Ht _]. simpl in L, U.
    assert (H2 : total sums <= 2 * t).
    { assert (P : total sums * c <= total sums * (1 # 4294967296)).
      { rewrite !(Qmult_comm (total sums)).
        apply Qmult_le_compat_r; Lqa.lra. }
      Lqa.lra. }
    destruct (divide_all sums t Ht Hn Hall) as [D1 D2].
    { intros x Hx. pose proof (value_le_total sums x Hn Hx) as Hv.
      apply Qle_shift_div_r; [assumption|].
      assert (2 <= pow2 1023).
      { change 2 with (pow2 1). apply pow2_le. lia. }
      assert (2 * t <= pow2 1023 * t)
        by (apply Qmult_le_compat_r; Lqa.lra).
      Lqa.lra. }
    split; [assumption|].
    fold c in D2.
    apply (normalise_arith (total sums / t) _ c); try assumption.
    + apply Qle_shift_div_l; [assumption|]. Lqa.lra.
    + assert (E : total sums / t * (1 - c) == total sums * (1 - c) / t)
        by (field; Lqa.lra).
      rewrite E. apply Qle_shift_div_r; [assumption|]. Lqa.lra.
Qed.

(** The same vector when the sum is a zero: every entry of the quotient
    is not-a-number or an infinity. *)
Lemma divide_by_zero (x : float) (s : bool) :
  finite (div x (Zero s)) = false.
Proof. destruct x; reflexivity. Qed.

(** A sequential sum is one of the sums. *)
Lemma summation_fold (l : list float) (x : float) (a : list float) :
  summation a x -> summation (a ++ l) (fold_left add l x).
Proof.
  revert a x. induction l as [|y l IH]; intros a x H; simpl.
  - rewrite app_nil_r. assumption.
  - replace (a ++ y :: l) with ((a ++ [y]) ++ l)
      by (rewrite <- app_assoc; reflexivity).
    apply IH. apply summation_add; [assumption|constructor].
Qed.

End NormaliseFacts.
(** ** clusterCoeffs *)

Section ClusterCoeffsFacts.

Import Float Symm Spec.

Lemma for_each_invariant {I S : Type} (P : nat -> S -> Prop) (idxs : list I)
      (body : I -> S -> result S) (acc : S) :
  P 0%nat acc ->
  (forall k a i, nth_error idxs k = Some i -> P k a ->
                 exists a', body i a = Ok a' /\ P (Datatypes.S k) a') ->
  exists acc', for_each idxs acc body = Ok acc' /\ P (length idxs) acc'.
Proof.
  revert P acc. induction idxs as [|i rest IH]; intros P acc H0 Hstep.
  - simpl. eauto.
  - simpl. destruct (Hstep 0%nat acc i eq_refl H0) as [a1 [E1 H1]].
    rewrite E1. simpl.
    apply (IH (fun k a => P (Datatypes.S k) a) a1 H1).
    intros k a j Hj HP. apply (Hstep (Datatypes.S k) a j Hj HP).
Qed.

Lemma nth_error_combine_range {A : Type} (l : list A) (lo : Z) (k : nat)
      (i : Z) (x : A) :
  nth_error (combine (range lo (lo + len l)) l) k = Some (i, x) ->
  i = lo + Z.of_nat k /\ nth_error l k = Some x.
Proof.
  revert lo k. induction l as [|a l IH]; intros lo k H.
  - rewrite range_empty in H by (unfold len; simpl; lia).
    destruct k; discriminate.
  - rewrite range_cons in H by (unfold len; simpl length; lia).
    destruct k as [|k]; simpl in H.
    + inversion H. subst. split; [lia|reflexivity].
    + replace (lo + len (a :: l)) with (lo + 1 + len l) in H
        by (unfold len; simpl length; lia).
      apply IH in H. destruct H as [-> H]. split; [lia|exact H].
Qed.

Lemma nth_error_enumerate {A : Type} (l : list A) (k : nat) (i : Z) (x : A) :
  nth_error (enumerate l) k = Some (i, x) ->
  i = Z.of_nat k /\ nth_error l k = Some x.
Proof.
  unfold enumerate. intros H.
  apply (nth_error_combine_range l 0 k i x) in H. exact H.
Qed.

Lemma enumerate_length {A : Type} (l : list A) :
  length (enumerate l) = length l.
Proof.
  unfold enumerate. rewrite length_combine, range_length. unfold len. lia.
Qed.

Lemma contains_In (c : list Z) (x : Z) : contains c x = true <-> In x c.
Proof.
  unfold contains. rewrite existsb_exists. split.
  - intros [y [Hy E]]. apply Z.eqb_eq in E. now subst.
  - intros H. exists x. split; [assumption|apply Z.eqb_refl].
Qed.

(** The search of [clusterCoeffs] for the clusters of a bin. *)
Lemma cluster_search_none (cl : Clusters) (lo x : Z) :
  ~ In x (concat cl) ->
  map fst (filter (fun '(i, c) => contains c x)
                  (combine (range lo (lo + len cl)) cl)) = [].
Proof.
  revert lo. induction cl as [|c cl IH]; intros lo Hx.
  - rewrite range_empty by (unfold len; simpl; lia). reflexivity.
  - rewrite range_cons by (unfold len; simpl length; lia).
    simpl in Hx. rewrite in_app_iff in Hx. simpl.
    destruct (contains c x) eqn:E.
    + apply contains_In in E. tauto.
    + replace (lo + len (c :: cl)) with (lo + 1 + len cl)
        by (unfold len; simpl length; lia).
      apply IH. tauto.
Qed.

Lemma cluster_search_one (cl : Clusters) (lo x : Z) :
  NoDup (concat cl) -> In x (concat cl) ->
  exists i, (i < length cl)%nat /\ In x (nth i cl []) /\
    map fst (filter (fun '(i, c) => contains c x)
                    (combine (range lo (lo + len cl)) cl)) = [lo + Z.of_nat i].
Proof.
  revert lo. induction cl as [|c cl IH]; intros lo Hnd Hx; [contradiction|].
  rewrite range_cons by (unfold len; simpl length; lia).
  replace (lo + len (c :: cl)) with (lo + 1 + len cl)
    by (unfold len; simpl length; lia).
  simpl in Hnd, Hx. simpl. rewrite in_app_iff in Hx.
  destruct (contains c x) eqn:E.
  - apply contains_In in E. exists 0%nat. split; [lia|]. split; [assumption|].
    simpl. rewrite cluster_search_none; [f_equal; lia|].
    intros Hin. destruct (in_split x c E) as [l1 [l2 ->]].
    rewrite <- app_assoc in Hnd. simpl in Hnd.
    apply NoDup_remove_2 in Hnd. apply Hnd. rewrite !in_app_iff. auto.
  - assert (Hc : ~ In x c) by (rewrite <- contains_In; congruence).
    destruct (IH (lo + 1)) as [i [Hi [Hxi Ei]]].
    + eapply NoDup_app_remove_l. eassumption.
    + tauto.
    + exists (S i). split; [lia|]. split; [assumption|].
      rewrite Ei. f_equal. lia.
Qed.

Lemma NoDup_concat_cluster (cl : Clusters) (i : nat) :
  NoDup (concat cl) -> NoDup (nth i cl []).
Proof.
  revert i. induction cl as [|c cl IH]; intros i Hnd.
  - destruct i; constructor.
  - simpl in Hnd. destruct i as [|i]; simpl.
    + eapply NoDup_app_remove_r. eassumption.
    + apply IH. eapply NoDup_app_remove_l. eassumption.
Qed.

Lemma Partition_bounds (cl : Clusters) (n : Z) (i : nat) (b : Z) :
  Partition cl n -> In b (nth i cl []) -> 0 <= b < n.
Proof.
  intros [_ P] Hb. apply P.
  destruct (Nat.lt_ge_cases i (length cl)) as [Hi|Hi].
  - apply in_concat_nth. eauto.
  - rewrite nth_overflow in Hb by assumption. contradiction.
Qed.

Lemma for_each_preserves {I S : Type} (P : nat -> S -> Prop) (idxs : list I)
      (body : I -> S -> result S) (acc acc' : S) :
  P 0%nat acc ->
  (forall k a i a', nth_error idxs k = Some i -> P k a ->
                    body i a = Ok a' -> P (Datatypes.S k) a') ->
  for_each idxs acc body = Ok acc' ->
  P (length idxs) acc'.
Proof.
  revert P acc. induction idxs as [|i rest IH]; intros P acc H0 Hstep E.
  - simpl in E. inversion E. subst. exact H0.
  - simpl in E. destruct (body i acc) as [a1|e] eqn:E1; [|discriminate].
    simpl in E.
    apply (IH (fun k a => P (Datatypes.S k) a) a1).
    + apply (Hstep 0%nat acc i a1 eq_refl H0 E1).
    + intros k a j a' Hj HP Hb. apply (Hstep (Datatypes.S k) a j a' Hj HP Hb).
    + exact E.
Qed.

Lemma cluster_search_nil (cl : Clusters) (lo x : Z) (i : nat) :
  map fst (filter (fun '(i, c) => contains c x)
                  (combine (range lo (lo + len cl)) cl)) = [] ->
  contains (nth i cl []) x = false.
Proof.
  revert lo i. induction cl as [|c cl IH]; intros lo i H.
  - destruct i; reflexivity.
  - rewrite range_cons in H by (unfold len; simpl length; lia).
    replace (lo + len (c :: cl)) with (lo + 1 + len cl) in H
      by (unfold len; simpl length; lia).
    simpl in H. destruct (contains c x) eqn:E; [discriminate|].
    destruct i as [|i]; [exact E|]. simpl. eapply IH. eassumption.
Qed.

Lemma cluster_search_single (cl : Clusters) (lo x i0 : Z) :
  map fst (filter (fun '(i, c) => contains c x)
                  (combine (range lo (lo + len cl)) cl)) = [i0] ->
  lo <= i0 < lo + len cl /\
  forall i, (i < length cl)%nat ->
            contains (nth i cl []) x = (lo + Z.of_nat i =? i0).
Proof.
  revert lo. induction cl as [|c cl IH]; intros lo H.
  - rewrite range_empty in H by (unfold len; simpl; lia). discriminate.
  - rewrite range_cons in H by (unfold len; simpl length; lia).
    replace (lo + len (c :: cl)) with (lo + 1 + len cl) in *
      by (unfold len; simpl length; lia).
    simpl in H. destruct (contains c x) eqn:E.
    + simpl in H. injection H as E0 Er. subst i0.
      pose proof (len_nonneg cl). split; [lia|].
      intros [|i] Hi; cbn [nth].
      * rewrite E. symmetry. apply Z.eqb_eq. lia.
      * rewrite (cluster_search_nil cl (lo + 1) x i Er).
        symmetry. apply Z.eqb_neq. lia.
    + apply IH in H. destruct H as [Hr Hc]. split; [lia|].
      intros [|i] Hi; cbn [nth].
      * rewrite E. symmetry. apply Z.eqb_neq. lia.
      * rewrite Hc by (simpl in Hi; lia). f_equal. lia.
Qed.

Lemma firstn_S_nth {A : Type} (l : list A) (k : nat) (x : A) :
  nth_error l k = Some x -> firstn (Datatypes.S k) l = firstn k l ++ [x].
Proof.
  revert k. induction l as [|a l IH]; intros k H.
  - destruct k; discriminate.
  - destruct k as [|k]; simpl in *.
    + inversion H. reflexivity.
    + f_equal. apply IH. assumption.
Qed.

Lemma zerosF_length (n : nat) : length (zerosF (Z.of_nat n)) = n.
Proof. unfold zerosF. now rewrite repeat_length, Nat2Z.id. Qed.

(** What [loadtxt] returns for a file of two numbers or more. *)
Lemma loadtxt_array (coeffFile : list float) :
  2 <= len coeffFile -> loadtxt coeffFile = Array1 coeffFile.
Proof.
  destruct coeffFile as [|x [|y l]]; unfold len; simpl length; intros H;
    try lia; reflexivity.
Qed.

Lemma loadtxt_cases (coeffFile : list float) :
  (coeffFile = [] /\ loadtxt coeffFile = Array1 []) \/
  (exists x, coeffFile = [x] /\ loadtxt coeffFile = Array0 x) \/
  (2 <= len coeffFile /\ loadtxt coeffFile = Array1 coeffFile).
Proof.
  destruct coeffFile as [|x [|y l]].
  - left. split; reflexivity.
  - right. left. exists x. split; reflexivity.
  - right. right. split; [unfold len; simpl length; lia|reflexivity].
Qed.

(** [clusterCoeffs] up to its loop. *)
Lemma clusterCoeffs_accumulate (sum : list float -> float) (m : method)
      (self self' : SymmetryBase) (coeffFile : list float) (cl : Clusters) :
  2 <= len coeffFile ->
  m self (len coeffFile) = (Ok cl, self') ->
  clusterCoeffs sum m self coeffFile =
  match for_each (enumerate coeffFile) (zerosF (len cl)) (accumulate cl) with
  | Raise e => (Raise e, self')
  | Ok sums => (Ok (map (fun c => div c (sum sums)) sums), self')
  end.
Proof.
  intros Hn Hm. unfold clusterCoeffs. rewrite (loadtxt_array _ Hn).
  assert (E0 : (len coeffFile =? 0) = false) by lia.
  rewrite E0, Hm. reflexivity.
Qed.

(** A normal return of [clusterCoeffs] comes from a file of two numbers
    or more, from a normal return of [clusters] and from a loop that ran
    to its end. *)
Lemma clusterCoeffs_returned (sum : list float -> float) (m : method)
      (self : SymmetryBase) (coeffFile : list float) (out : list float) :
  fst (clusterCoeffs sum m self coeffFile) = Ok out ->
  2 <= len coeffFile /\
  exists cl sums,
    fst (m self (len coeffFile)) = Ok cl /\
    for_each (enumerate coeffFile) (zerosF (len cl)) (accumulate cl) = Ok sums /\
    out = map (fun c => div c (sum sums)) sums.
Proof.
  intros E.
  destruct (loadtxt_cases coeffFile) as [[-> _]|[[x [-> _]]|[Hn _]]];
    try discriminate.
  split; [assumption|].
  destruct (m self (len coeffFile)) as [[cl|e] self'] eqn:Em.
  - rewrite (clusterCoeffs_accumulate sum m self self' coeffFile cl Hn Em) in E.
    destruct (for_each (enumerate coeffFile) (zerosF (len cl)) (accumulate cl))
      as [sums|e] eqn:El; [|discriminate].
    cbn [fst] in E. injection E as <-.
    exists cl, sums. split; [reflexivity|]. split; [exact El|reflexivity].
  - unfold clusterCoeffs in E. rewrite (loadtxt_array _ Hn) in E.
    assert (E0 : (len coeffFile =? 0) = false) by lia.
    rewrite E0, Em in E. discriminate.
Qed.

Lemma member_sum_from_snoc (c : list Z) (lo : Z) (acc : float)
      (l : list float) (x : float) :
  member_sum_from c lo acc (l ++ [x]) =
  if contains c (lo + len l)
  then add (member_sum_from c lo acc l) x
  else member_sum_from c lo acc l.
Proof.
  revert lo acc. induction l as [|y l IH]; intros lo acc.
  - simpl. unfold len. simpl. rewrite Z.add_0_r. reflexivity.
  - simpl. rewrite IH.
    replace (lo + 1 + len l) with (lo + len (y :: l))
      by (unfold len; simpl length; lia).
    reflexivity.
Qed.

(** Whatever the clusters are, if the accumulation loop runs to its end
    then every bin was found in a cluster, and the entry of a cluster
    holds the coefficients of its bins, added in the order of the
    bins. *)
Lemma accumulate_result (coeffs : list float) (cl : Clusters)
      (sums : list float) :
  for_each (enumerate coeffs) (zerosF (len cl)) (accumulate cl) = Ok sums ->
  sums = member_sums cl coeffs /\
  forall k, (k < length coeffs)%nat ->
    exists i, (i < length cl)%nat /\
              contains (nth i cl []) (Z.of_nat k) = true.
Proof.
  intros E.
  apply (for_each_preserves
           (fun k acc =>
              length acc = length cl /\
              (forall i, (i < length cl)%nat ->
                 nth i acc (Zero false) =
                 member_sum (nth i cl []) (firstn k coeffs)) /\
              (forall j, (j < k)%nat ->
                 exists i, (i < length cl)%nat /\
                           contains (nth i cl []) (Z.of_nat j) = true))) in E.
  - rewrite enumerate_length, firstn_all in E. destruct E as [Hl [Hn Ho]].
    split; [|exact Ho].
    apply (list_eq_nth _ _ (Zero false)).
    + unfold member_sums. now rewrite length_map.
    + intros k Hk. rewrite Hn by lia. unfold member_sums.
      rewrite (nth_indep (map _ _) (Zero false) (member_sum [] coeffs))
        by (rewrite length_map; lia).
      rewrite (map_nth (fun c => member_sum c coeffs)). reflexivity.
  - split; [apply zerosF_length|]. split.
    + intros i Hi. unfold zerosF. rewrite nth_repeat. reflexivity.
    + intros j Hj. lia.
  - intros k acc [idx q] acc' Hk [Hla [Hna Hoa]] Hb.
    apply nth_error_enumerate in Hk. destruct Hk as [-> Hq].
    assert (Hkn : (k < length coeffs)%nat)
      by (apply nth_error_Some; rewrite Hq; discriminate).
    unfold accumulate in Hb. cbv zeta in Hb. unfold enumerate in Hb.
    destruct (map fst (filter (fun '(i, c) => contains c (Z.of_nat k))
                              (combine (range 0 (len cl)) cl)))
      as [|i0 [|i1 rest]] eqn:Es; try discriminate.
    apply (cluster_search_single cl 0 (Z.of_nat k) i0) in Es.
    destruct Es as [Hi0 Hc]. unfold len in Hi0.
    replace i0 with (Z.of_nat (Z.to_nat i0)) in Hb by lia.
    rewrite (getitem_nat acc _ (Zero false)) in Hb by lia. cbn [bind] in Hb.
    rewrite setitem_nat in Hb by lia. inversion Hb. subst acc'. clear Hb.
    rewrite (firstn_S_nth coeffs k q Hq).
    split; [now rewrite update_length|]. split.
    + intros i Hi. rewrite update_nth by lia.
      unfold member_sum. rewrite member_sum_from_snoc.
      fold (member_sum (nth i cl []) (firstn k coeffs)).
      replace (0 + len (firstn k coeffs)) with (Z.of_nat k)
        by (unfold len; rewrite length_firstn; lia).
      rewrite Hc by assumption.
      destruct (Nat.eqb i (Z.to_nat i0)) eqn:Ei.
      * apply Nat.eqb_eq in Ei.
        assert (E1 : (0 + Z.of_nat i =? i0) = true) by lia.
        rewrite E1, <- Ei, Hna by assumption. reflexivity.
      * apply Nat.eqb_neq in Ei.
        assert (E1 : (0 + Z.of_nat i =? i0) = false) by lia.
        rewrite E1, Hna by assumption. reflexivity.
    + intros j Hj. destruct (Nat.eq_dec j k) as [->|Hjk].
      * exists (Z.to_nat i0). split; [lia|].
        rewrite Hc by lia. apply Z.eqb_eq. lia.
      * apply Hoa. lia.
Qed.

(** On a partition the loop runs to its end. *)
Lemma accumulate_loop (coeffs : list float) (cl : Clusters) :
  Partition cl (len coeffs) ->
  exists sums,
    for_each (enumerate coeffs) (zerosF (len cl)) (accumulate cl) = Ok sums.
Proof.
  intros HP.
  destruct (for_each_invariant
              (fun (k : nat) (acc : list float) => length acc = length cl)
              (enumerate coeffs) (accumulate cl) (zerosF (len cl)))
    as [sums [E _]].
  - apply zerosF_length.
  - intros k acc [idx q] Hk Hla.
    apply nth_error_enumerate in Hk. destruct Hk as [-> Hq].
    assert (Hkn : (k < length coeffs)%nat)
      by (apply nth_error_Some; rewrite Hq; discriminate).
    destruct HP as [Hnd Hin].
    destruct (cluster_search_one cl 0 (Z.of_nat k) Hnd) as [i0 [Hi0 [Hx0 E0]]].
    { apply Hin. unfold len. lia. }
    change (range 0 (0 + len cl)) with (range 0 (len cl)) in E0.
    unfold accumulate. cbv zeta. unfold enumerate. rewrite E0.
    replace (0 + Z.of_nat i0) with (Z.of_nat i0) by lia.
    rewrite (getitem_nat acc i0 (Zero false)) by lia. cbn [bind].
    rewrite setitem_nat by lia.
    eexists. split; [reflexivity|]. now rewrite update_length.
  - exists sums. exact E.
Qed.

(** [clusterCoeffs] on a partition: no exception, and the clustered
    vector before the division holds the sums of the clusters. *)
Lemma clusterCoeffs_run (sum : list float -> float) (m : method)
      (self self' : SymmetryBase) (coeffFile : list float) (cl : Clusters) :
  2 <= len coeffFile ->
  m self (len coeffFile) = (Ok cl, self') ->
  Partition cl (len coeffFile) ->
  clusterCoeffs sum m self coeffFile =
  (Ok (map (fun c => div c (sum (member_sums cl coeffFile)))
           (member_sums cl coeffFile)), self').
Proof.
  intros Hn Hm HP.
  rewrite (clusterCoeffs_accumulate sum m self self' coeffFile cl Hn Hm).
  destruct (accumulate_loop coeffFile cl HP) as [sums E]. rewrite E.
  destruct (accumulate_result coeffFile cl sums E) as [-> _]. reflexivity.
Qed.

(** Whatever the clusters method is, a normal return of
    [clusterCoeffs] is the accumulated vector divided by its sum. *)
Lemma clusterCoeffs_result (sum : list float -> float) (m : method)
      (self : SymmetryBase) (coeffFile : list float) (out : list float) :
  fst (clusterCoeffs sum m self coeffFile) = Ok out ->
  2 <= len coeffFile /\
  exists cl,
    fst (m self (len coeffFile)) = Ok cl /\
    out = map (fun c => div c (sum (member_sums cl coeffFile)))
              (member_sums cl coeffFile) /\
    forall k, (k < length coeffFile)%nat ->
      exists i, (i < length cl)%nat /\
                contains (nth i cl []) (Z.of_nat k) = true.
Proof.
  intros E.
  destruct (clusterCoeffs_returned sum m self coeffFile out E)
    as [Hn [cl [sums [Ecl [El ->]]]]].
  split; [assumption|]. exists cl. split; [assumption|].
  destruct (accumulate_result coeffFile cl sums El) as [-> Ho].
  split; [reflexivity|assumption].
Qed.

(** A coefficient is a value that is not negative. *)
Lemma coefficient_nonneg (x : float) : coefficient x = true -> nonneg x.
Proof.
  destruct x as [s|q|s|]; simpl; try discriminate; [trivial|].
  intros H. apply andb_true_iff in H. destruct H as [H0 Hr].
  apply Qle_bool_iff in H0.
  destruct (Qeq_dec q 0) as [Ez|Hq].
  - exfalso. unfold round in Hr. cbv zeta in Hr.
    assert (E : (q / pow2 (Z.max (exponent q) (-1022) - 52) == inject_Z 0)%Q).
    { unfold Qdiv. rewrite <- (Qmult_0_l (/ pow2 (Z.max (exponent q) (-1022) - 52))).
      apply Qmult_comp; [exact Ez|reflexivity]. }
    rewrite (rint_comp _ _ E), rint_inject in Hr. discriminate.
  - destruct (round_cases q Hq) as [m [e [Ee [Em [_ Hc]]]]].
    destruct Hc as [[E _]|[[E _]|[r [E [Er _]]]]]; rewrite E in Hr;
      try discriminate.
    apply Qeq_bool_iff in Hr. split.
    + apply Qle_lteq in H0. destruct H0 as [H0|H0]; [assumption|].
      exfalso. apply Hq. symmetry. assumption.
    + apply (on_grid_comp (inject_Z m * pow2 e)%Q);
        [rewrite <- Er; assumption|].
      apply on_grid_scaled. lia.
Qed.

Lemma coefficients_nonneg (coeffs : list float) :
  (forall x, In x coeffs -> coefficient x = true) -> Forall nonneg coeffs.
Proof.
  intros H. apply Forall_forall. intros x Hx.
  apply coefficient_nonneg, H, Hx.
Qed.

(** The sums of the clusters are not negative. *)
Lemma member_sum_from_nonneg (c : list Z) (lo : Z) (acc : float)
      (coeffs : list float) :
  nonneg acc -> Forall nonneg coeffs ->
  nonneg (member_sum_from c lo acc coeffs).
Proof.
  revert lo acc. induction coeffs as [|x l IH]; intros lo acc Ha Hl;
    [assumption|].
  inversion Hl as [|? ? Hx Hl']; subst. simpl. apply IH; [|assumption].
  destruct (contains c lo); [|assumption].
  apply add_nonneg; assumption.
Qed.

Lemma member_sums_nonneg (cl : Clusters) (coeffs : list float) :
  Forall nonneg coeffs -> Forall nonneg (member_sums cl coeffs).
Proof.
  intros H. unfold member_sums. apply Forall_forall. intros s Hs.
  apply in_map_iff in Hs. destruct Hs as [c [<- _]].
  apply member_sum_from_nonneg; [exact I|assumption].
Qed.

Lemma member_sums_In (cl : Clusters) (coeffs : list float) (i : nat) :
  (i < length cl)%nat ->
  In (member_sum (nth i cl []) coeffs) (member_sums cl coeffs).
Proof.
  intros Hi. unfold member_sums.
  apply (in_map (fun c => member_sum c coeffs) cl (nth i cl [])), nth_In.
  assumption.
Qed.

(** Once above zero, a sum stays above zero. *)
Lemma member_sum_from_above (c : list Z) (lo : Z) (acc : float)
      (coeffs : list float) :
  nonneg acc -> Forall nonneg coeffs ->
  (finite acc = true -> (0 < value acc)%Q) ->
  finite (member_sum_from c lo acc coeffs) = true ->
  (0 < value (member_sum_from c lo acc coeffs))%Q.
Proof.
  revert lo acc. induction coeffs as [|x l IH]; intros lo acc Ha Hl Hp F;
    [auto|].
  inversion Hl as [|? ? Hx Hl']; subst. simpl in *.
  destruct (contains c lo); [|apply (IH (lo + 1) acc); assumption].
  destruct (add_nonneg acc x Ha Hx) as [Hn Hb].
  apply (IH (lo + 1) (add acc x)); try assumption.
  intros Fa. destruct (Hb Fa) as [F1 [_ [B1 _]]].
  specialize (Hp F1). pose proof (value_nonneg x Hx) as Vx.
  pose proof u_pos. pose proof u_lt_1.
  eapply Qlt_le_trans; [|exact B1].
  apply Qmult_lt_0_compat; Lqa.lra.
Qed.

(** The sum of a cluster that holds a bin with a coefficient above
    zero is above zero. *)
Lemma member_sum_from_positive (c : list Z) (lo : Z) (acc : float)
      (coeffs : list float) (j : nat) (x : float) :
  nonneg acc -> Forall nonneg coeffs ->
  nth_error coeffs j = Some x -> nonzero x = true ->
  contains c (lo + Z.of_nat j) = true ->
  finite (member_sum_from c lo acc coeffs) = true ->
  (0 < value (member_sum_from c lo acc coeffs))%Q.
Proof.
  revert lo acc j. induction coeffs as [|y l IH]; intros lo acc j Ha Hl Hj Hx Hc F.
  - destruct j; discriminate.
  - inversion Hl as [|? ? Hy Hl']; subst. destruct j as [|j].
    + simpl in Hj. injection Hj as ->. simpl in F |- *.
      replace (lo + Z.of_nat 0) with lo in Hc by lia. rewrite Hc in F |- *.
      destruct (add_nonneg acc x Ha Hy) as [Hn Hb].
      apply member_sum_from_above; try assumption.
      intros Fa. destruct (Hb Fa) as [_ [_ [B1 _]]].
      pose proof (value_nonneg acc Ha) as Va.
      assert (Vx : (0 < value x)%Q).
      { destruct x as [s|q|s|]; try discriminate. destruct Hy. assumption. }
      pose proof u_pos. pose proof u_lt_1.
      eapply Qlt_le_trans; [|exact B1].
      apply Qmult_lt_0_compat; Lqa.lra.
    + simpl in Hj, F |- *.
      apply (IH (lo + 1) _ j); try assumption.
      * destruct (contains c lo); [|assumption].
        apply add_nonneg; assumption.
      * replace (lo + 1 + Z.of_nat j) with (lo + Z.of_nat (S j)) by lia.
        assumption.
Qed.

Lemma total_positive (l : list float) (x : float) :
  Forall nonneg l -> In x l -> (0 < value x)%Q -> (0 < total l)%Q.
Proof.
  intros Hl Hx Hv. pose proof (value_le_total l x Hl Hx). Lqa.lra.
Qed.

(** The sums of values that are not negative overflow for good. *)
Lemma summation_overflow (l : list float) (t : float) :
  summation l t -> Forall nonneg l -> In (Inf false) l -> t = Inf false.
Proof.
  intros Hs Hl Hin.
  destruct (summation_nonneg l t Hs Hl) as [Nt Ft].
  destruct t as [s|q|s|]; simpl in Nt; try contradiction.
  - destruct (Ft eq_refl) as [Hall _]. rewrite Forall_forall in Hall.
    specialize (Hall _ Hin). discriminate.
  - destruct (Ft eq_refl) as [Hall _]. rewrite Forall_forall in Hall.
    specialize (Hall _ Hin). discriminate.
  - subst. reflexivity.
Qed.

(** A sum of zeros is a zero. *)
Lemma summation_zeros (l : list float) (t : float) :
  summation l t -> (forall x, In x l -> exists s, x = Zero s) ->
  exists s, t = Zero s.
Proof.
  induction 1 as [s|x|a b x y Ha IHa Hb IHb|a b x Hp Ha IH]; intros Hl.
  - eauto.
  - apply Hl. now left.
  - destruct IHa as [s ->]; [intros z Hz; apply Hl, in_or_app; auto|].
    destruct IHb as [t ->]; [intros z Hz; apply Hl, in_or_app; auto|].
    simpl. eauto.
  - apply IH. intros z Hz. apply Hl. apply (Permutation_in z Hp). assumption.
Qed.

Lemma member_sum_from_zeros (c : list Z) (lo : Z) (acc : float)
      (coeffs : list float) :
  (exists s, acc = Zero s) ->
  (forall x, In x coeffs -> exists s, x = Zero s) ->
  exists s, member_sum_from c lo acc coeffs = Zero s.
Proof.
  revert lo acc. induction coeffs as [|x l IH]; intros lo acc Ha Hl;
    [assumption|].
  simpl. apply IH; [|intros z Hz; apply Hl; now right].
  destruct (contains c lo); [|assumption].
  destruct Ha as [s ->]. destruct (Hl x (or_introl eq_refl)) as [t ->].
  simpl. eauto.
Qed.

(** The sequential sum is one of the sums. *)
Lemma sum_left_adds_up : adds_up sum_left.
Proof.
  intros a. unfold sum_left.
  apply (summation_fold a (Zero false) []). constructor.
Qed.

End ClusterCoeffsFacts.

Section ClusterCoeffsClaims.

Import Float Symm Spec.







End ClusterCoeffsClaims.

(* ------------------------------------------------------------------------ *)
(** ** Reinhart solid angles: the arrays *)

Section SolidAngleArrays.

Import SolidAngles Spec.
Local Open Scope R_scope.

Lemma filter_none {A : Type} (f : A -> bool) (l : list A) :
  (forall x, In x l -> f x = false) -> filter f l = [].
Proof.
  induction l as [|a l IH]; intros H; [reflexivity|]. simpl.
  rewrite H by (now left). apply IH. intros; apply H; now right.
Qed.

Lemma filter_all {A : Type} (f : A -> bool) (l : list A) :
  (forall x, In x l -> f x = true) -> filter f l = l.
Proof.
  induction l as [|a l IH]; intros H; [reflexivity|]. simpl.
  rewrite H by (now left). f_equal. apply IH. intros; apply H; now right.
Qed.

(** The samples of [linspace(-pi/2, pi/2, 14 MF + 2)]. *)
Lemma sample_value (MF k : Z) :
  (0 <= MF)%Z ->
  -0.5 * PI + IZR k * ((0.5 * PI - -0.5 * PI) / IZR (2 * MF * 7 + 2 - 1)) =
  IZR (2 * k - (14 * MF + 1)) * (polar_step MF / 2).
Proof.
  intros HM. unfold polar_step.
  replace (2 * MF * 7 + 2 - 1)%Z with (14 * MF + 1)%Z by lia.
  assert (0 < IZR (14 * MF + 1)) by (apply IZR_lt; lia).
  replace 0.5 with (1 / 2) by lra. replace (-0.5) with (- (1 / 2)) by lra.
  rewrite minus_IZR, mult_IZR. field. lra.
Qed.

Lemma polar_step_pos (MF : Z) : (0 <= MF)%Z -> 0 < polar_step MF.
Proof.
  intros HM. unfold polar_step. apply Rdiv_lt_0_compat; [apply PI_RGT_0|].
  apply IZR_lt. lia.
Qed.

Lemma polarAngles_closed (MF : Z) :
  (0 <= MF)%Z ->
  zeros 1 ++
  filter (fun a => Rgtb a 0)
    (map (fun k => -0.5 * PI + IZR k * ((0.5 * PI - -0.5 * PI) / IZR (2 * MF * 7 + 2 - 1)))
         (range 0 (2 * MF * 7 + 2))) =
  0 :: map (fun k => IZR (2 * k - 1) * (polar_step MF / 2)) (range 1 (7 * MF + 2)).
Proof.
  intros HM. pose proof (polar_step_pos MF HM) as Hs.
  change (zeros 1) with [0]. cbn [app]. f_equal.
  rewrite (map_ext _ (fun k => IZR (2 * k - (14 * MF + 1)) * (polar_step MF / 2)))
    by (intros; apply sample_value; assumption).
  rewrite <- (range_app 0 (7 * MF + 1) (2 * MF * 7 + 2)) by lia.
  rewrite map_app, filter_app.
  rewrite filter_none, filter_all; cbn [app].
  - replace (2 * MF * 7 + 2)%Z with (7 * MF + 1 + (7 * MF + 1))%Z by lia.
    unfold range.
    replace (Z.to_nat (7 * MF + 1 + (7 * MF + 1) - (7 * MF + 1)))
      with (Z.to_nat (7 * MF + 2 - 1)) by lia.
    rewrite !map_map. apply map_ext. intros k. f_equal. f_equal. lia.
  - intros x Hx. apply in_map_iff in Hx. destruct Hx as [k [<- Hk]].
    apply in_range in Hk. unfold Rgtb.
    destruct (Rgt_dec _ _) as [_|Hn]; [reflexivity|]. exfalso. apply Hn.
    apply Rmult_lt_0_compat; [apply IZR_lt; lia|lra].
  - intros x Hx. apply in_map_iff in Hx. destruct Hx as [k [<- Hk]].
    apply in_range in Hk. unfold Rgtb.
    destruct (Rgt_dec _ _) as [Hp|_]; [|reflexivity]. exfalso.
    assert (IZR (2 * k - (14 * MF + 1)) <= -1) by (apply IZR_le; lia).
    nra.
Qed.

Lemma removelast_map_range {A : Type} (f : Z -> A) (a b : Z) :
  (a <= b)%Z -> removelast (map f (range a (b + 1))) = map f (range a b).
Proof.
  intros H. rewrite range_snoc, map_app by assumption. simpl.
  apply removelast_last.
Qed.

Lemma tl_map_range {A : Type} (f : Z -> A) (a b : Z) :
  (a < b)%Z -> tl (map f (range a b)) = map f (range (a + 1) b).
Proof. intros H. rewrite range_cons by assumption. reflexivity. Qed.

Lemma range_shift (a b : Z) :
  range (a + 1) (b + 1) = map (fun j => (j + 1)%Z) (range a b).
Proof.
  unfold range. replace (Z.to_nat (b + 1 - (a + 1))) with (Z.to_nat (b - a)) by lia.
  rewrite map_map. apply map_ext. intros k. lia.
Qed.

Lemma combine_map {A B C : Type} (f : A -> B) (g : A -> C) (l : list A) :
  combine (map f l) (map g l) = map (fun x => (f x, g x)) l.
Proof. induction l as [|a l IH]; simpl; [reflexivity|]. now rewrite IH. Qed.

Lemma setitem_from1_zeros (n : nat) (v : list R) :
  length v = n -> setitem_from1 (zeros (Z.of_nat (S n))) v = Ok (0 :: v).
Proof.
  intros Hv. unfold setitem_from1, zeros. rewrite Nat2Z.id.
  cbn [repeat tl firstn app]. rewrite repeat_length, Hv, Nat.eqb_refl.
  reflexivity.
Qed.

Lemma polarAngM_closed (MF : Z) :
  (0 <= MF)%Z ->
  let polarAngles :=
    0 :: map (fun k => IZR (2 * k - 1) * (polar_step MF / 2)) (range 1 (7 * MF + 2)) in
  setitem_from1 (zeros (len polarAngles - 1))
    (map (fun '(a, b) => 0.5 * (a + b))
         (combine (inner polarAngles) (skipn 2 polarAngles))) =
  Ok (0 :: map (fun t => IZR t * polar_step MF) (range 1 (7 * MF + 1))).
Proof.
  intros HM polarAngles.
  assert (El : (len polarAngles - 1)%Z = Z.of_nat (S (Z.to_nat (7 * MF)))).
  { unfold polarAngles, len. cbn [length]. rewrite length_map, range_length. lia. }
  assert (Ev : map (fun '(a, b) => 0.5 * (a + b))
                   (combine (inner polarAngles) (skipn 2 polarAngles)) =
               map (fun t => IZR t * polar_step MF) (range 1 (7 * MF + 1))).
  { unfold polarAngles, inner. cbn [tl skipn].
    replace (7 * MF + 2)%Z with (7 * MF + 1 + 1)%Z by lia.
    rewrite removelast_map_range by lia.
    rewrite (range_cons 1 (7 * MF + 1 + 1)) by lia. cbn [map skipn].
    rewrite range_shift, map_map, combine_map, map_map.
    apply map_ext. intros t.
    rewrite !minus_IZR, !mult_IZR, plus_IZR. lra. }
  rewrite El, Ev. apply setitem_from1_zeros.
  rewrite length_map, range_length. lia.
Qed.

Lemma nth_blocks (c : Z -> Z) (m : nat) (l : list Z) (k : nat) :
  (1 <= m)%nat -> (k < m * length l)%nat ->
  nth k (flat_map (fun i => map (fun _ : Z => c i) (range 0 (Z.of_nat m))) l) 0%Z =
  c (nth (k / m) l 0%Z).
Proof.
  intros Hm. revert k. induction l as [|a l IH]; intros k Hk.
  - simpl in Hk. lia.
  - cbn [flat_map].
    assert (Hb : length (map (fun _ : Z => c a) (range 0 (Z.of_nat m))) = m)
      by (rewrite length_map, range_length; lia).
    destruct (Nat.lt_ge_cases k m) as [Hlt|Hge].
    + rewrite app_nth1 by lia. rewrite Nat.div_small by assumption.
      rewrite (nth_indep _ 0%Z (c a)) by lia.
      rewrite (map_nth (fun _ : Z => c a) _ 0%Z). reflexivity.
    + rewrite app_nth2 by lia. rewrite Hb.
      rewrite IH by (simpl in Hk; nia).
      replace k with ((k - m) + 1 * m)%nat at 2 by lia.
      rewrite Nat.div_add by lia. rewrite Nat.add_1_r. reflexivity.
Qed.

Lemma azimuthDivs_length (MF : Z) :
  (0 <= MF)%Z ->
  len ([1%Z] ++ flat_map (fun i => map (fun r => (MF * i)%Z) (range 0 MF))
                        [6; 12; 18; 24; 24; 30; 30]%Z) = (7 * MF + 1)%Z.
Proof.
  intros HM. unfold len. cbn [flat_map app length].
  rewrite !length_app, !length_map, !range_length. cbn [length]. lia.
Qed.

Lemma azimuthDivs_nth (MF t : Z) :
  (1 <= MF)%Z -> (1 <= t <= 7 * MF)%Z ->
  nth (Z.to_nat t)
      ([1%Z] ++ flat_map (fun i => map (fun r => (MF * i)%Z) (range 0 MF))
                         [6; 12; 18; 24; 24; 30; 30]%Z) 0%Z =
  azimuth_at MF t.
Proof.
  intros HM Ht. replace (Z.to_nat t) with (S (Z.to_nat (t - 1))) by lia.
  cbn [app nth].
  replace (range 0 MF) with (range 0 (Z.of_nat (Z.to_nat MF)))
    by (f_equal; lia).
  rewrite (nth_blocks (fun i => (MF * i)%Z) (Z.to_nat MF)) by (simpl length; lia).
  unfold azimuth_at. do 2 f_equal.
  rewrite Z2Nat.inj_div by lia. reflexivity.
Qed.

Lemma azimuth_at_pos (MF t : Z) :
  (1 <= MF)%Z -> (1 <= t <= 7 * MF)%Z -> (0 < azimuth_at MF t)%Z.
Proof.
  intros HM Ht. unfold azimuth_at.
  assert (Hq : (0 <= (t - 1) / MF < 7)%Z).
  { split; [apply Z.div_pos; lia|apply Z.div_lt_upper_bound; lia]. }
  assert (Hn : (Z.to_nat ((t - 1) / MF) < 7)%nat) by lia.
  revert Hn. generalize (Z.to_nat ((t - 1) / MF)) as j. intros j Hj.
  do 7 (destruct j as [|j]; [simpl; lia|]). lia.
Qed.

Lemma map_const_range {A : Type} (x : A) (n : Z) :
  map (fun _ : Z => x) (range 0 n) = repeat x (Z.to_nat n).
Proof.
  unfold range. rewrite Z.sub_0_r, map_map.
  generalize (Z.to_nat n) as k. intros k. generalize 0%nat as s.
  induction k as [|k IH]; intros s; [reflexivity|].
  simpl. now rewrite IH.
Qed.

Lemma list_sum_range (h : Z -> nat) (k : nat) :
  Z.of_nat (list_sum (map h (range 1 (1 + Z.of_nat k)))) =
  psum (fun j => Z.of_nat (h (1 + Z.of_nat j)%Z)) k.
Proof.
  induction k as [|k IH].
  - rewrite range_empty by lia. reflexivity.
  - replace (1 + Z.of_nat (S k))%Z with (1 + Z.of_nat k + 1)%Z by lia.
    rewrite range_snoc, map_app, list_sum_app by lia.
    rewrite Nat2Z.inj_add, IH. simpl. lia.
Qed.

Lemma rows_of_length (MF : Z) (f : Z -> R) :
  (1 <= MF)%Z -> length (rows_of MF f) = Z.to_nat (144 * MF ^ 2).
Proof.
  intros HM. unfold rows_of. rewrite length_flat_map.
  rewrite (map_ext _ (fun t => Z.to_nat (azimuth_at MF t)))
    by (intros; apply repeat_length).
  apply Nat2Z.inj. rewrite Z2Nat.id by lia.
  replace (7 * MF + 1)%Z with (1 + Z.of_nat (7 * Z.to_nat MF))%Z by lia.
  rewrite list_sum_range.
  rewrite (psum_ext _ (fun j => (MF * nth (j / Z.to_nat MF) [6; 12; 18; 24; 24; 30; 30] 0)%Z)).
  - rewrite (psum_scale MF (fun j => nth (j / Z.to_nat MF) [6; 12; 18; 24; 24; 30; 30]%Z 0%Z)).
    rewrite (psum_blocks (fun i => nth i [6; 12; 18; 24; 24; 30; 30]%Z 0%Z)
                         (Z.to_nat MF) 7) by lia.
    change (psum (fun i => nth i [6; 12; 18; 24; 24; 30; 30]%Z 0%Z) 7) with 144%Z.
    lia.
  - intros j Hj.
    assert (Hp : (0 < azimuth_at MF (1 + Z.of_nat j))%Z)
      by (apply azimuth_at_pos; lia).
    rewrite Z2Nat.id by lia. unfold azimuth_at. do 2 f_equal.
    replace (1 + Z.of_nat j - 1)%Z with (Z.of_nat j) by lia.
    rewrite Z2Nat.inj_div by lia. now rewrite Nat2Z.id.
Qed.

Lemma polarAngM_nth (MF t : Z) :
  (1 <= t <= 7 * MF)%Z ->
  nth (Z.to_nat t)
      (0 :: map (fun t => IZR t * polar_step MF) (range 1 (7 * MF + 1))) 0 =
  IZR t * polar_step MF.
Proof.
  intros Ht. replace (Z.to_nat t) with (S (Z.to_nat (t - 1))) by lia.
  cbn [nth].
  rewrite (nth_indep _ 0 (IZR 0 * polar_step MF))
    by (rewrite length_map, range_length; lia).
  rewrite (map_nth (fun t => IZR t * polar_step MF)).
  rewrite range_nth by lia. do 2 f_equal. lia.
Qed.

(** The list comprehensions over the rows. *)
Lemma azimuthDivs_getitem (MF t : Z) :
  (1 <= MF)%Z -> (1 <= t <= 7 * MF)%Z ->
  getitem ([1%Z] ++ flat_map (fun i => map (fun r => (MF * i)%Z) (range 0 MF))
                            [6; 12; 18; 24; 24; 30; 30]%Z) t =
  Ok (azimuth_at MF t).
Proof.
  intros HM Ht.
  rewrite (getitem_nth _ _ 0%Z) by (rewrite azimuthDivs_length; lia).
  f_equal. apply azimuthDivs_nth; lia.
Qed.

Lemma polarAngM_getitem (MF t : Z) :
  (1 <= t <= 7 * MF)%Z ->
  getitem (0 :: map (fun t => IZR t * polar_step MF) (range 1 (7 * MF + 1))) t =
  Ok (IZR t * polar_step MF).
Proof.
  intros Ht. rewrite (getitem_nth _ _ 0).
  - f_equal. apply polarAngM_nth. lia.
  - unfold len. cbn [length]. rewrite length_map, range_length. lia.
Qed.

Lemma rows_comprehension (MF : Z) (inner : Z -> Z -> list R -> result (list R))
      (v : Z -> R) :
  (1 <= MF)%Z ->
  (forall t p rest, (1 <= t <= 7 * MF)%Z -> inner t p rest = Ok (rest ++ [v t])) ->
  for_each (range 1 (7 * MF + 1)) []
    (fun t rest =>
       n <- getitem ([1%Z] ++ flat_map (fun i => map (fun r => (MF * i)%Z) (range 0 MF))
                                      [6; 12; 18; 24; 24; 30; 30]%Z) t ;;
       for_each (range 0 n) rest (inner t)) =
  Ok (rows_of MF v).
Proof.
  intros HM Hin.
  rewrite (for_each_append _ _ _
             (fun t => repeat (v t) (Z.to_nat (azimuth_at MF t)))).
  - reflexivity.
  - intros t a Ht. apply in_range in Ht.
    rewrite azimuthDivs_getitem by lia. cbn [bind].
    rewrite (for_each_append _ _ _ (fun _ => [v t])).
    + rewrite flat_map_single, map_const_range. reflexivity.
    + intros p b _. apply Hin. lia.
Qed.

(** [reinhartSolidAngles] returns, and what it returns. *)
Lemma reinhartSolidAngles_closed (MF : Z) :
  (1 <= MF)%Z ->
  reinhartSolidAngles MF =
  Ok (rev (cap_dOmega MF :: rows_of MF (row_dOmega MF)),
      rev (cap_cosOmega MF :: rows_of MF (row_cosOmega MF))).
Proof.
  intros HM. unfold reinhartSolidAngles, linspace.
  assert (E0 : (2 * MF * 7 + 2 <? 0)%Z = false) by lia.
  rewrite E0. cbn [bind]. cbv zeta.
  rewrite polarAngles_closed by lia.
  pose proof (polarAngM_closed MF ltac:(lia)) as EM. cbv zeta in EM.
  rewrite EM. cbn [bind].
  assert (El : len (0 :: map (fun k => IZR (2 * k - 1) * (polar_step MF / 2))
                             (range 1 (7 * MF + 2))) = (7 * MF + 2)%Z).
  { unfold len. cbn [length]. rewrite length_map, range_length. lia. }
  rewrite El.
  rewrite (getitem_nth _ 1 0) by lia.
  change (Z.to_nat 1) with 1%nat. cbn [nth].
  rewrite (range_cons 1 (7 * MF + 2)) by lia. cbn [map nth bind].
  replace (IZR (2 * 1 - 1) * (polar_step MF / 2)) with (polar_step MF / 2)
    by (simpl; lra).
  assert (Ez : zeros (MF ^ 2 * 144 + 1) = 0 :: zeros (Z.of_nat (Z.to_nat (144 * MF ^ 2)))).
  { unfold zeros. rewrite Nat2Z.id.
    replace (Z.to_nat (MF ^ 2 * 144 + 1)) with (S (Z.to_nat (144 * MF ^ 2))) by lia.
    reflexivity. }
  rewrite Ez.
  change (setitem (0 :: ?l) 0 ?x) with (Ok (x :: l)). cbn [bind].
  change (getitem (?x :: ?l) 0) with (Ok x). cbn [bind].
  replace (7 * MF + 2 - 1)%Z with (7 * MF + 1)%Z by lia.
  pose proof (rows_comprehension MF
                (fun t (p : Z) rest =>
                   m <- getitem (0 :: map (fun t => IZR t * polar_step MF)
                                          (range 1 (7 * MF + 1))) t ;;
                   d <- getitem ([1%Z] ++ flat_map (fun i => map (fun r => (MF * i)%Z) (range 0 MF))
                                                   [6; 12; 18; 24; 24; 30; 30]%Z) t ;;
                   Ok (rest ++ [sin m * polar_step MF * 2 * PI / IZR d]))
                (row_dOmega MF) HM) as Ed.
  cbv beta in Ed.
  pose proof (rows_comprehension MF
                (fun t (p : Z) rest =>
                   m <- getitem (0 :: map (fun t => IZR t * polar_step MF)
                                          (range 1 (7 * MF + 1))) t ;;
                   Ok (rest ++ [cos m]))
                (row_cosOmega MF) HM) as Ec.
  cbv beta in Ec.
  fold (cap_dOmega MF). fold (cap_cosOmega MF).
  assert (Es : (0.5 * PI - -0.5 * PI) / IZR (2 * MF * 7 + 2 - 1) = polar_step MF).
  { unfold polar_step. replace (2 * MF * 7 + 2 - 1)%Z with (14 * MF + 1)%Z by lia.
    assert (0 < IZR (14 * MF + 1)) by (apply IZR_lt; lia).
    replace 0.5 with (1 / 2) by lra. replace (-0.5) with (- (1 / 2)) by lra.
    field. lra. }
  rewrite Es, Ed; cycle 1.
  { intros t p rest Ht. rewrite polarAngM_getitem by assumption. cbn [bind].
    rewrite azimuthDivs_getitem by lia. reflexivity. }
  cbn [bind].
  assert (Hset : forall (x : R) (v : list R),
             length v = Z.to_nat (144 * MF ^ 2) ->
             setitem_from1 (x :: zeros (Z.of_nat (Z.to_nat (144 * MF ^ 2)))) v =
             Ok (x :: v)).
  { intros x v Hv. unfold setitem_from1, zeros. rewrite Nat2Z.id.
    cbn [tl firstn app]. rewrite repeat_length, Hv, Nat.eqb_refl. reflexivity. }
  rewrite Hset by (apply rows_of_length; assumption). cbn [bind].
  rewrite Ec; cycle 1.
  { intros t p rest Ht. rewrite polarAngM_getitem by assumption. reflexivity. }
  cbn [bind].
  rewrite Hset by (apply rows_of_length; assumption). cbn [bind].
  reflexivity.
Qed.

Lemma azimuthDivs_last (MF : Z) :
  (1 <= MF)%Z -> azimuth_at MF (7 * MF) = (30 * MF)%Z.
Proof.
  intros HM. unfold azimuth_at.
  replace ((7 * MF - 1) / MF)%Z with 6%Z;
    [change (Z.to_nat 6) with 6%nat; cbn [nth]; lia|].
  apply Z.div_unique with (r := (MF - 1)%Z); lia.
Qed.

(** The rows end with a bin of the row at the horizon. *)
Lemma rows_of_last (MF : Z) (f : Z -> R) :
  (1 <= MF)%Z -> exists front, rows_of MF f = front ++ [f (7 * MF)%Z].
Proof.
  intros HM. unfold rows_of.
  rewrite range_snoc, flat_map_app by lia. cbn [flat_map].
  rewrite app_nil_r, azimuthDivs_last by assumption.
  replace (Z.to_nat (30 * MF)) with (S (Z.to_nat (30 * MF - 1))) by lia.
  cbn [repeat]. rewrite repeat_cons. rewrite app_assoc. eauto.
Qed.

Lemma rev_cap_first (cap x : R) (front : list R) :
  nth 0 (rev (cap :: front ++ [x])) 0 = x.
Proof.
  cbn [rev]. rewrite rev_app_distr. reflexivity.
Qed.

Lemma rev_cap_last (cap : R) (rows : list R) :
  nth (length rows) (rev (cap :: rows)) 0 = cap.
Proof.
  cbn [rev]. rewrite app_nth2 by (rewrite length_rev; lia).
  rewrite length_rev, Nat.sub_diag. reflexivity.
Qed.

(** Bounds on pi beyond those of the library. *)
Lemma PI_upper : PI <= 52 / 15.
Proof.
  destruct (PI_ineq 1) as [_ H].
  unfold sum_f_R0, tg_alt, PI_tg in H. simpl in H. lra.
Qed.

Lemma PI_lower : 3 < PI.
Proof. pose proof PI2_3_2. lra. Qed.

End SolidAngleArrays.

Section SolidAngleClaims.

Import SolidAngles Spec.
Local Open Scope R_scope.

(** C4, as stated, fails on which end the cap is: at [MF = 1] the element
    0 of the returned arrays is a bin of the row at the horizon; neither
    its solid angle nor its cosine is that of the polar cap. *)
Lemma reinhartSolidAngles_first_not_cap :
  exists dOmega cosOmega,
    reinhartSolidAngles 1 = Ok (dOmega, cosOmega) /\
    nth 0 dOmega 0 = row_dOmega 1 7 /\
    nth 0 cosOmega 0 = row_cosOmega 1 7 /\
    nth 0 dOmega 0 <> 2 * PI * (1 - cos (polar_step 1 / 2)) /\
    nth 0 cosOmega 0 <>
      PI * (1 - cos (polar_step 1 / 2) ^ 2) /
      (2 * PI * (1 - cos (polar_step 1 / 2))).
Proof.
  rewrite reinhartSolidAngles_closed by lia.
  destruct (rows_of_last 1 (row_dOmega 1) ltac:(lia)) as [fd Ed].
  destruct (rows_of_last 1 (row_cosOmega 1) ltac:(lia)) as [fc Ec].
  do 2 eexists. split; [reflexivity|].
  rewrite Ed, Ec, !rev_cap_first. change (7 * 1)%Z with 7%Z.
  split; [reflexivity|]. split; [reflexivity|].
  pose proof PI_upper as Hu. pose proof PI_lower as Hl.
  assert (Hs : polar_step 1 = PI / 15) by (unfold polar_step; simpl; lra).
  set (x := polar_step 1 / 2).
  assert (Hx : x = PI / 30) by (unfold x; lra).
  assert (Hx1 : 0 < x <= 1) by lra.
  assert (Hc7 : cos (7 * polar_step 1) = sin x).
  { replace (7 * polar_step 1) with (PI / 2 - x) by lra. apply cos_shift. }
  assert (Hs7 : sin (7 * polar_step 1) = cos x).
  { replace (7 * polar_step 1) with (PI / 2 - x) by lra. apply sin_shift. }
  pose proof (cos_quadratic_lb x ltac:(lra)) as Hcl.
  assert (Hc1 : cos x < 1) by (apply cos_lt_1; lra).
  assert (Hsx : sin x < x) by (apply sin_lt_x; lra).
  split.
  - unfold row_dOmega. rewrite Hs7.
    change (azimuth_at 1 7) with 30%Z. rewrite Hs.
    assert (2 * PI * (1 - cos x) < cos x * (PI / 15) * 2 * PI / 30); [|lra].
    assert (H1 : 2 * PI * (1 - cos x) <= PI * (x ^ 2)) by nra.
    assert (H2 : (1 - x ^ 2 / 2) * (PI / 15) * 2 * PI / 30 <=
                 cos x * (PI / 15) * 2 * PI / 30) by nra.
    assert (H3 : PI * x ^ 2 < (1 - x ^ 2 / 2) * (PI / 15) * 2 * PI / 30).
    { rewrite Hx. nra. }
    lra.
  - unfold row_cosOmega. rewrite Hc7.
    assert (Hcap : PI * (1 - cos x ^ 2) / (2 * PI * (1 - cos x)) = (1 + cos x) / 2)
      by (field; lra).
    rewrite Hcap.
    assert (Hcp : 1 / 2 <= cos x) by nra.
    lra.
Qed.

(** C4, amended: for every positive integer [MF],
    [reinhartSolidAngles(MF)] returns two sequences of length
    [144 MF^2 + 1] each, ordered from the horizon to the zenith: the last
    element (index [144 MF^2]) is the polar cap, with the solid angle
    [2 pi (1 - cos theta1)] and the cosine entry
    [pi (1 - cos(theta1)^2)] divided by that solid angle, where [theta1] is
    half the polar step [pi / (14 MF + 1)]; element 0 is a bin of the row
    at the horizon. *)
Theorem reinhartSolidAngles_shape (MF : Z) :
  (1 <= MF)%Z ->
  exists dOmega cosOmega,
    reinhartSolidAngles MF = Ok (dOmega, cosOmega) /\
    len dOmega = (144 * MF ^ 2 + 1)%Z /\
    len cosOmega = (144 * MF ^ 2 + 1)%Z /\
    getitem dOmega (144 * MF ^ 2) = Ok (2 * PI * (1 - cos (polar_step MF / 2))) /\
    getitem cosOmega (144 * MF ^ 2) =
      Ok (PI * (1 - cos (polar_step MF / 2) ^ 2) /
          (2 * PI * (1 - cos (polar_step MF / 2)))) /\
    getitem dOmega 0 = Ok (row_dOmega MF (7 * MF)) /\
    getitem cosOmega 0 = Ok (row_cosOmega MF (7 * MF)).
Proof.
  intros HM. rewrite reinhartSolidAngles_closed by assumption.
  do 2 eexists. split; [reflexivity|].
  pose proof (rows_of_length MF (row_dOmega MF) HM) as Ld.
  pose proof (rows_of_length MF (row_cosOmega MF) HM) as Lc.
  assert (Hlen : forall (cap : R) (rows : list R),
             length rows = Z.to_nat (144 * MF ^ 2) ->
             len (rev (cap :: rows)) = (144 * MF ^ 2 + 1)%Z).
  { intros cap rows Hr. unfold len. rewrite length_rev. cbn [length]. lia. }
  assert (Hlast : forall (cap : R) (rows : list R),
             length rows = Z.to_nat (144 * MF ^ 2) ->
             getitem (rev (cap :: rows)) (144 * MF ^ 2) = Ok cap).
  { intros cap rows Hr.
    rewrite (getitem_nth _ _ 0) by (rewrite Hlen by assumption; lia).
    rewrite <- Hr, rev_cap_last. reflexivity. }
  assert (Hfirst : forall (cap : R) (f : Z -> R),
             getitem (rev (cap :: rows_of MF f)) 0 = Ok (f (7 * MF)%Z)).
  { intros cap f.
    rewrite (getitem_nth _ _ 0)
      by (rewrite Hlen by (apply rows_of_length; assumption); lia).
    destruct (rows_of_last MF f HM) as [front ->].
    change (Z.to_nat 0) with 0%nat. now rewrite rev_cap_first. }
  repeat split.
  - apply Hlen. assumption.
  - apply Hlen. assumption.
  - apply Hlast. assumption.
  - apply Hlast. assumption.
  - apply Hfirst.
  - apply Hfirst.
Qed.

Lemma reinhartSolidAngles_shape_witness :
  (1 <= 2)%Z /\
  exists dOmega cosOmega,
    reinhartSolidAngles 2 = Ok (dOmega, cosOmega) /\
    len dOmega = (144 * 2 ^ 2 + 1)%Z /\
    len cosOmega = (144 * 2 ^ 2 + 1)%Z /\
    getitem dOmega (144 * 2 ^ 2) = Ok (2 * PI * (1 - cos (polar_step 2 / 2))) /\
    getitem cosOmega (144 * 2 ^ 2) =
      Ok (PI * (1 - cos (polar_step 2 / 2) ^ 2) /
          (2 * PI * (1 - cos (polar_step 2 / 2)))) /\
    getitem dOmega 0 = Ok (row_dOmega 2 (7 * 2)) /\
    getitem cosOmega 0 = Ok (row_cosOmega 2 (7 * 2)).
Proof.
  split; [lia|]. apply (reinhartSolidAngles_shape 2). lia.
Defined.

End SolidAngleClaims.

(* ------------------------------------------------------------------------ *)
(** ** Reinhart solid angles: the sums *)

Section SolidAngleSums.

Import SolidAngles Spec.
Local Open Scope R_scope.

Lemma fold_left_Rplus (l : list R) (a : R) :
  fold_left Rplus l a = a + fold_left Rplus l 0.
Proof.
  revert a. induction l as [|x l IH]; intros a; simpl.
  - lra.
  - rewrite (IH (a + x)), (IH (0 + x)). lra.
Qed.

Lemma sum_cons (x : R) (l : list R) : sum (x :: l) = x + sum l.
Proof. unfold sum. simpl. rewrite fold_left_Rplus. lra. Qed.

Lemma sum_nil : sum [] = 0.
Proof. reflexivity. Qed.

Lemma sum_app (l1 l2 : list R) : sum (l1 ++ l2) = sum l1 + sum l2.
Proof.
  induction l1 as [|x l1 IH]; simpl.
  - rewrite sum_nil. lra.
  - rewrite !sum_cons, IH. lra.
Qed.

Lemma sum_rev (l : list R) : sum (rev l) = sum l.
Proof.
  induction l as [|x l IH]; simpl; [reflexivity|].
  rewrite sum_app, sum_cons, IH, sum_cons, sum_nil. lra.
Qed.

Lemma sum_repeat (x : R) (n : nat) : sum (repeat x n) = INR n * x.
Proof.
  induction n as [|n IH]; [simpl; rewrite sum_nil; lra|].
  cbn [repeat]. rewrite sum_cons, IH, S_INR. lra.
Qed.

Lemma sum_flat_map {A : Type} (h : A -> list R) (l : list A) :
  sum (flat_map h l) = sum (map (fun t => sum (h t)) l).
Proof.
  induction l as [|a l IH]; simpl; [reflexivity|].
  rewrite sum_app, sum_cons, IH. reflexivity.
Qed.

Lemma sum_map_ext_in {A : Type} (f g : A -> R) (l : list A) :
  (forall x, In x l -> f x = g x) -> sum (map f l) = sum (map g l).
Proof. intros H. f_equal. apply map_ext_in. assumption. Qed.

Lemma sum_map_scale {A : Type} (c : R) (f : A -> R) (l : list A) :
  sum (map (fun x => f x * c) l) = sum (map f l) * c.
Proof.
  induction l as [|a l IH]; simpl; [rewrite sum_nil; lra|].
  rewrite !sum_cons, IH. lra.
Qed.

(** The sum of a quantity that adds up to [v t] over the bins of row [t]. *)
Lemma sum_rows_of (MF : Z) (f v : Z -> R) :
  (1 <= MF)%Z ->
  (forall t, (1 <= t <= 7 * MF)%Z -> IZR (azimuth_at MF t) * f t = v t) ->
  sum (rows_of MF f) = sum (map v (range 1 (7 * MF + 1))).
Proof.
  intros HM Hv. unfold rows_of. rewrite sum_flat_map.
  apply sum_map_ext_in. intros t Ht. apply in_range in Ht.
  rewrite sum_repeat, INR_IZR_INZ, Z2Nat.id.
  - apply Hv. lia.
  - pose proof (azimuth_at_pos MF t HM ltac:(lia)). lia.
Qed.

(** Elementwise products. *)
Lemma mul_app (a1 a2 b1 b2 : list R) :
  length a1 = length b1 -> mul (a1 ++ a2) (b1 ++ b2) = mul a1 b1 ++ mul a2 b2.
Proof.
  revert b1. induction a1 as [|x a1 IH]; intros [|y b1] H; try discriminate;
    [reflexivity|].
  simpl in H. unfold mul in *. simpl. rewrite IH by lia. reflexivity.
Qed.

Lemma mul_rev (a b : list R) :
  length a = length b -> mul (rev a) (rev b) = rev (mul a b).
Proof.
  revert b. induction a as [|x a IH]; intros [|y b] H; try discriminate;
    [reflexivity|].
  simpl in H. cbn [rev]. rewrite mul_app by (rewrite !length_rev; lia).
  rewrite IH by lia. reflexivity.
Qed.

Lemma mul_repeat (x y : R) (n : nat) :
  mul (repeat x n) (repeat y n) = repeat (x * y) n.
Proof.
  induction n as [|n IH]; [reflexivity|].
  cbn [repeat]. unfold mul in *. simpl. now rewrite IH.
Qed.

Lemma mul_rows_of (MF : Z) (f g : Z -> R) :
  mul (rows_of MF f) (rows_of MF g) = rows_of MF (fun t => f t * g t).
Proof.
  unfold rows_of. generalize (range 1 (7 * MF + 1)) as l.
  induction l as [|t l IH]; [reflexivity|].
  cbn [flat_map]. rewrite mul_app by (now rewrite !repeat_length).
  now rewrite mul_repeat, IH.
Qed.

(** The sum of the sines of the multiples of an angle. *)
Lemma sin_sum (b : R) (k : nat) :
  2 * sin (b / 2) * sum (map (fun t => sin (IZR t * b)) (range 1 (1 + Z.of_nat k))) =
  cos (b / 2) - cos ((INR k + 1 / 2) * b).
Proof.
  induction k as [|k IH].
  - rewrite range_empty by lia. simpl. rewrite sum_nil.
    replace ((0 + 1 / 2) * b) with (b / 2) by lra. lra.
  - replace (1 + Z.of_nat (S k))%Z with (1 + Z.of_nat k + 1)%Z by lia.
    rewrite range_snoc, map_app, sum_app by lia. cbn [map].
    rewrite sum_cons, sum_nil, Rmult_plus_distr_l, IH, S_INR.
    rewrite plus_IZR, <- INR_IZR_INZ.
    replace ((INR k + 1 + 1 / 2) * b) with ((1 + INR k) * b + b / 2) by lra.
    replace ((INR k + 1 / 2) * b) with ((1 + INR k) * b - b / 2) by lra.
    rewrite cos_plus, cos_minus. lra.
Qed.

Lemma polar_step_range (MF : Z) :
  (1 <= MF)%Z -> 0 < polar_step MF <= PI / 15 /\ polar_step MF < 1 / 4.
Proof.
  intros HM. pose proof PI_upper. pose proof PI_lower.
  pose proof (polar_step_pos MF ltac:(lia)) as Hp.
  assert (H15 : 15 <= IZR (14 * MF + 1)) by (apply IZR_le; lia).
  assert (Hle : polar_step MF <= PI / 15).
  { unfold polar_step. apply Rmult_le_reg_r with (IZR (14 * MF + 1)); [lra|].
    unfold Rdiv. rewrite Rmult_assoc, Rinv_l by lra. nra. }
  split; [split; assumption|lra].
Qed.

Lemma polar_step_quarter (MF : Z) :
  (0 <= MF)%Z -> (IZR (7 * MF) + 1 / 2) * polar_step MF = PI / 2.
Proof.
  intros HM. unfold polar_step.
  assert (0 < IZR (14 * MF + 1)) by (apply IZR_lt; lia).
  rewrite plus_IZR, !mult_IZR. field.
  rewrite plus_IZR, mult_IZR in H. lra.
Qed.

(** The two sums in closed form. *)
Lemma sums_closed (MF : Z) :
  (1 <= MF)%Z ->
  let a := polar_step MF in
  exists S P,
    sums MF = Ok (S, P) /\
    S = 2 * PI * (1 - cos (a / 2) + a * cos (a / 2) / (2 * sin (a / 2))) /\
    P = PI * (1 - cos (a / 2) ^ 2 + a * (1 + cos a) / (2 * sin a)).
Proof.
  intros HM a. unfold sums.
  rewrite reinhartSolidAngles_closed by assumption. cbn [bind].
  do 2 eexists. split; [reflexivity|].
  destruct (polar_step_range MF HM) as [[Ha0 Ha1] Ha2]. fold a in Ha0, Ha1, Ha2.
  pose proof PI_upper. pose proof PI_lower.
  assert (Hs2 : 0 < sin (a / 2)) by (apply sin_gt_0; lra).
  assert (Hs1 : 0 < sin a) by (apply sin_gt_0; lra).
  assert (Hc2 : cos (a / 2) < 1) by (apply cos_lt_1; lra).
  replace (7 * MF + 1)%Z with (1 + Z.of_nat (Z.to_nat (7 * MF)))%Z by lia.
  assert (HN : INR (Z.to_nat (7 * MF)) = IZR (7 * MF))
    by (rewrite INR_IZR_INZ, Z2Nat.id by lia; reflexivity).
  split.
  - rewrite sum_rev, sum_cons.
    rewrite (sum_rows_of MF (row_dOmega MF)
               (fun t => sin (IZR t * a) * (a * 2 * PI))) by
      (try assumption; intros t Ht; unfold row_dOmega; fold a;
       pose proof (azimuth_at_pos MF t HM Ht) as Hp; apply IZR_lt in Hp;
       field; lra).
    replace (7 * MF + 1)%Z with (1 + Z.of_nat (Z.to_nat (7 * MF)))%Z by lia.
    rewrite (sum_map_scale (a * 2 * PI) (fun t => sin (IZR t * a))).
    pose proof (sin_sum a (Z.to_nat (7 * MF))) as E.
    rewrite HN in E. unfold a in E at 4.
    rewrite polar_step_quarter, cos_PI2 in E by lia.
    set (T := sum (map (fun t => sin (IZR t * a)) _)) in *.
    assert (ET : T = cos (a / 2) / (2 * sin (a / 2))) by (field_simplify_eq; lra).
    rewrite ET. unfold cap_dOmega. fold a. field. lra.
  - rewrite mul_rev
      by (cbn [length]; rewrite !rows_of_length by assumption; reflexivity).
    rewrite sum_rev. unfold mul at 1. cbn [combine map]. fold (mul (rows_of MF (row_dOmega MF)) (rows_of MF (row_cosOmega MF))).
    rewrite sum_cons, mul_rows_of.
    rewrite (sum_rows_of MF (fun t => row_dOmega MF t * row_cosOmega MF t)
               (fun t => sin (IZR t * (2 * a)) * (a * PI))) by
      (try assumption; intros t Ht; unfold row_dOmega, row_cosOmega; fold a;
       pose proof (azimuth_at_pos MF t HM Ht) as Hp; apply IZR_lt in Hp;
       replace (IZR t * (2 * a)) with (2 * (IZR t * a)) by lra;
       rewrite sin_2a; field; lra).
    replace (7 * MF + 1)%Z with (1 + Z.of_nat (Z.to_nat (7 * MF)))%Z by lia.
    rewrite (sum_map_scale (a * PI) (fun t => sin (IZR t * (2 * a)))).
    pose proof (sin_sum (2 * a) (Z.to_nat (7 * MF))) as E.
    rewrite HN in E.
    replace ((IZR (7 * MF) + 1 / 2) * (2 * a)) with
      (2 * ((IZR (7 * MF) + 1 / 2) * polar_step MF)) in E by (unfold a; lra).
    rewrite polar_step_quarter in E by lia.
    replace (2 * (PI / 2)) with PI in E by lra. rewrite cos_PI in E.
    replace (2 * a / 2) with a in E by lra.
    set (T := sum (map (fun t => sin (IZR t * (2 * a))) _)) in *.
    assert (ET : T = (1 + cos a) / (2 * sin a)) by (field_simplify_eq; lra).
    rewrite ET. unfold cap_cosOmega, cap_dOmega. fold a. field. lra.
Qed.

(** The distance of the closed forms from the integrals over the
    hemisphere. *)
Lemma solid_angle_error (a : R) :
  0 < a <= 1 / 2 ->
  Rabs (2 * PI * (1 - cos (a / 2) + a * cos (a / 2) / (2 * sin (a / 2))) - 2 * PI)
  <= 2 * PI * (a ^ 2 / 20).
Proof.
  intros Ha. pose proof PI_lower. pose proof PI_upper.
  set (x := a / 2). assert (Hx : 0 < x <= 1 / 4) by (unfold x; lra).
  replace a with (2 * x) by (unfold x; lra).
  pose proof (sin_cubic_lb x ltac:(lra)) as Hsl.
  assert (Hsu : sin x < x) by (apply sin_lt_x; lra).
  assert (Hs : 0 < sin x) by (apply sin_gt_0; lra).
  assert (Hc0 : 0 < cos x) by (apply cos_gt_0; lra).
  pose proof (COS_bound x) as [_ Hc1].
  set (s := sin x) in *. set (c := cos x) in *.
  assert (E : 2 * PI * (1 - c + 2 * x * c / (2 * s)) - 2 * PI =
              2 * PI * (c * (x - s) / s)) by (field; lra).
  rewrite E.
  assert (Hq : 0 <= c * (x - s) / s <= (2 * x) ^ 2 / 20).
  { split.
    - apply Rmult_le_pos; [nra|]. left. apply Rinv_0_lt_compat. assumption.
    - apply Rmult_le_reg_r with s; [assumption|].
      unfold Rdiv at 1. rewrite Rmult_assoc, Rinv_l, Rmult_1_r by lra.
      assert (Hx2 : 0 <= x ^ 2 <= 1 / 16) by nra.
      assert (Hx3 : x ^ 3 <= x / 16) by nra.
      assert (H1 : c * (x - s) <= x ^ 3 / 6) by nra.
      assert (Hprod : 0 <= x ^ 2 * (s - 5 / 6 * x))
        by (apply Rmult_le_pos; lra).
      assert (H2 : x ^ 3 / 6 <= (2 * x) ^ 2 / 20 * s) by nra.
      lra. }
  rewrite Rabs_right by nra. nra.
Qed.

Lemma projected_error (a : R) :
  0 < a <= 1 / 2 ->
  Rabs (PI * (1 - cos (a / 2) ^ 2 + a * (1 + cos a) / (2 * sin a)) - PI)
  <= PI * (a ^ 2 / 4).
Proof.
  intros Ha. pose proof PI_lower. pose proof PI_upper.
  pose proof (sin_cubic_lb a ltac:(lra)) as Hsl.
  assert (Hsu : sin a < a) by (apply sin_lt_x; lra).
  assert (Hs : 0 < sin a) by (apply sin_gt_0; lra).
  pose proof (cos_quadratic_lb a ltac:(lra)) as Hcl.
  pose proof (cos_quartic_ub a ltac:(lra)) as Hcu.
  assert (Hs2 : 0 <= 1 - cos (a / 2) ^ 2 <= a ^ 2 / 4).
  { pose proof (sin2_cos2 (a / 2)) as E. unfold Rsqr in E.
    assert (Hh : 0 < sin (a / 2) < a / 2)
      by (split; [apply sin_gt_0|apply sin_lt_x]; lra).
    nra. }
  set (q := a * (1 + cos a) / (2 * sin a)).
  assert (Eq : q * (2 * sin a) = a * (1 + cos a)) by (unfold q; field; lra).
  assert (Ha2 : 0 <= a ^ 2 <= 1 / 4) by nra.
  assert (Ha3 : a ^ 3 = a * a ^ 2) by ring.
  assert (Ha4 : a ^ 4 = a ^ 2 * a ^ 2) by ring.
  assert (Hq : 1 - a ^ 2 / 4 <= q <= 1).
  { split.
    - apply Rmult_le_reg_r with (2 * sin a); [lra|]. rewrite Eq.
      assert (H1 : (1 - a ^ 2 / 4) * (2 * sin a) <= (1 - a ^ 2 / 4) * (2 * a))
        by (apply Rmult_le_compat_l; lra).
      assert (H2 : a * (2 - a ^ 2 / 2) <= a * (1 + cos a))
        by (apply Rmult_le_compat_l; lra).
      lra.
    - apply Rmult_le_reg_r with (2 * sin a); [lra|]. rewrite Eq.
      assert (H1 : a * (1 + cos a) <= a * (2 - a ^ 2 / 2 + a ^ 4 / 24))
        by (apply Rmult_le_compat_l; lra).
      assert (H2 : a * (2 - a ^ 2 / 2 + a ^ 4 / 24) <= 2 * (a - a ^ 3 / 6)) by nra.
      lra. }
  set (u := 1 - cos (a / 2) ^ 2) in *.
  assert (E : PI * (u + q) - PI = PI * (u + q - 1)) by lra.
  rewrite E. apply Rabs_le. split; nra.
Qed.

End SolidAngleSums.

Section SolidAngleSumClaims.

Import SolidAngles Spec.
Local Open Scope R_scope.

(** C7: for every positive [MF] the script's two sums exist and lie
    within [2 pi a^2 / 20] of [2 pi] and within [pi a^2 / 4] of [pi], where
    [a = pi / (14 MF + 1)] is the polar step; hence they converge to
    [2 pi] and [pi] as [MF] grows, and the relative errors are below 1%
    from [MF = 8] on. *)
Theorem solid_angle_sums_converge :
  (forall MF, (1 <= MF)%Z ->
     exists S P, sums MF = Ok (S, P) /\
       Rabs (S - 2 * PI) <= 2 * PI * (polar_step MF ^ 2 / 20) /\
       Rabs (P - PI) <= PI * (polar_step MF ^ 2 / 4)) /\
  (forall eps, 0 < eps ->
     exists M, forall MF, (M <= MF)%Z ->
       exists S P, sums MF = Ok (S, P) /\
         Rabs (S - 2 * PI) < eps /\ Rabs (P - PI) < eps) /\
  (forall MF, (8 <= MF)%Z ->
     exists S P, sums MF = Ok (S, P) /\
       Rabs (S - 2 * PI) / (2 * PI) < 1 / 100 /\
       Rabs (P - PI) / PI < 1 / 100).
Proof.
  assert (Hmain : forall MF, (1 <= MF)%Z ->
            exists S P, sums MF = Ok (S, P) /\
              Rabs (S - 2 * PI) <= 2 * PI * (polar_step MF ^ 2 / 20) /\
              Rabs (P - PI) <= PI * (polar_step MF ^ 2 / 4)).
  { intros MF HM. destruct (sums_closed MF HM) as [S [P [E [ES EP]]]].
    destruct (polar_step_range MF HM) as [[Ha0 Ha1] Ha2].
    exists S, P. split; [assumption|]. subst S P. split.
    - apply solid_angle_error. lra.
    - apply projected_error. lra. }
  pose proof PI_lower as Hl. pose proof PI_upper as Hu.
  split; [exact Hmain|]. split.
  - intros eps Heps.
    exists (Z.max 1 (up (1 / eps))). intros MF HM.
    destruct (Hmain MF ltac:(lia)) as [S [P [E [HS HP]]]].
    exists S, P. split; [assumption|].
    assert (H1 : 1 <= IZR MF) by (apply IZR_le; lia).
    assert (H2 : 1 / eps < IZR MF).
    { destruct (archimed (1 / eps)) as [Hup _].
      apply Rlt_le_trans with (IZR (up (1 / eps))); [lra|]. apply IZR_le. lia. }
    assert (H3 : 1 / IZR MF < eps).
    { apply Rmult_lt_reg_r with (IZR MF); [lra|].
      unfold Rdiv at 1. rewrite Rmult_assoc, Rinv_l, Rmult_1_r by lra.
      apply Rmult_lt_reg_r with (/ eps); [apply Rinv_0_lt_compat; lra|].
      rewrite (Rmult_comm eps), Rmult_assoc, Rinv_r, Rmult_1_r by lra. lra. }
    assert (H4 : polar_step MF ^ 2 <= 1 / IZR MF).
    { assert (Ha : polar_step MF <= 4 / (14 * IZR MF)).
      { unfold polar_step. rewrite plus_IZR, mult_IZR.
        apply Rle_trans with (4 / (14 * IZR MF + 1)).
        - apply Rmult_le_compat_r; [left; apply Rinv_0_lt_compat; lra|lra].
        - apply Rmult_le_compat_l; [lra|]. apply Rinv_le_contravar; lra. }
      pose proof (polar_step_pos MF ltac:(lia)) as Hp.
      assert (Hb : 4 / (14 * IZR MF) <= 1 / IZR MF).
      { apply Rmult_le_reg_r with (IZR MF); [lra|]. field_simplify; lra. }
      assert (Hc : 1 / IZR MF <= 1).
      { apply Rmult_le_reg_r with (IZR MF); [lra|]. field_simplify; lra. }
      assert (0 < 1 / IZR MF) by (apply Rdiv_lt_0_compat; lra).
      nra. }
    assert (0 <= polar_step MF ^ 2) by (apply pow2_ge_0).
    split; [apply Rle_lt_trans with (2 * PI * (polar_step MF ^ 2 / 20))
           |apply Rle_lt_trans with (PI * (polar_step MF ^ 2 / 4))];
      try assumption; nra.
  - intros MF HM.
    destruct (Hmain MF ltac:(lia)) as [S [P [E [HS HP]]]].
    exists S, P. split; [assumption|].
    assert (Ha : 0 < polar_step MF <= 4 / 113).
    { split; [apply polar_step_pos; lia|].
      unfold polar_step.
      assert (113 <= IZR (14 * MF + 1)) by (apply IZR_le; lia).
      apply Rle_trans with (4 / IZR (14 * MF + 1)).
      - apply Rmult_le_compat_r; [left; apply Rinv_0_lt_compat; lra|lra].
      - apply Rmult_le_compat_l; [lra|]. apply Rinv_le_contravar; lra. }
    assert (Hsq : polar_step MF ^ 2 <= 16 / 12769) by nra.
    split.
    + apply Rmult_lt_reg_r with (2 * PI); [lra|].
      unfold Rdiv at 1. rewrite Rmult_assoc, Rinv_l, Rmult_1_r by lra. nra.
    + apply Rmult_lt_reg_r with PI; [lra|].
      unfold Rdiv at 1. rewrite Rmult_assoc, Rinv_l, Rmult_1_r by lra. nra.
Qed.

End SolidAngleSumClaims.

(* ======================================================================== *)
(** * Further properties *)

Section SegmentFacts.

Import Fisheye.
Local Open Scope R_scope.

Lemma ratio_bounds (v r : R) : 0 < r -> - r <= v <= r -> -1 <= v / r <= 1.
Proof.
  intros Hr [H1 H2].
  assert (Hi : 0 < / r) by (apply Rinv_0_lt_compat; assumption).
  unfold Rdiv. split.
  - replace (-1) with (- r * / r) by (field; lra).
    apply Rmult_le_compat_r; lra.
  - replace 1 with (r * / r) by (field; lra).
    apply Rmult_le_compat_r; lra.
Qed.

Lemma alpha_inside (v r : R) : v <= r -> alpha v r = 2 * acos (v / r).
Proof.
  intros H. unfold alpha. destruct (Rle_dec v r); [reflexivity|lra].
Qed.

Lemma sqrt_ratio (v r : R) :
  0 < r -> - r <= v <= r ->
  sqrt (1 - (v / r)²) = sqrt (r ^ 2 - v ^ 2) / r.
Proof.
  intros Hr Hv.
  assert (Hd : 0 <= r ^ 2 - v ^ 2) by nra.
  replace (1 - (v / r)²) with ((r ^ 2 - v ^ 2) / (r ^ 2))
    by (unfold Rsqr; field; lra).
  rewrite sqrt_div_alt by nra.
  replace (r ^ 2) with (r²) by (unfold Rsqr; ring).
  rewrite sqrt_Rsqr by lra. reflexivity.
Qed.

Lemma acos_decr (x y : R) : -1 <= x -> x <= y -> y <= 1 -> acos y <= acos x.
Proof.
  intros Hx Hxy Hy.
  destruct (Rle_lt_dec (acos y) (acos x)) as [|Hc]; [assumption|exfalso].
  pose proof (acos_bound x) as [Bx1 Bx2]. pose proof (acos_bound y) as [By1 By2].
  assert (H : cos (acos y) < cos (acos x))
    by (apply cos_decreasing_1; assumption).
  rewrite !cos_acos in H by lra. lra.
Qed.

Lemma sin_diff_le (a b : R) : b <= a -> a - b <= 2 * PI -> sin a - sin b <= a - b.
Proof.
  intros Hab Hd. rewrite form4.
  set (d := (a - b) / 2).
  assert (Hd0 : 0 <= d) by (unfold d; lra).
  assert (Hd1 : d <= PI) by (unfold d; lra).
  assert (Hs0 : 0 <= sin d) by (apply sin_ge_0; assumption).
  assert (Hs1 : sin d <= d).
  { destruct (Req_dec d 0) as [->|Hne]; [rewrite sin_0; lra|].
    left. apply sin_lt_x. lra. }
  pose proof (COS_bound ((a + b) / 2)) as [_ Hc].
  replace (a - b) with (2 * d) by (unfold d; field).
  assert (cos ((a + b) / 2) * sin d <= 1 * sin d)
    by (apply Rmult_le_compat_r; assumption).
  lra.
Qed.

End SegmentFacts.

Section SegmentProperties.

Import Fisheye.
Local Open Scope R_scope.

(** X1: inside the circle [segArea] is the textbook area of the circular
    segment cut off at height [v]:
    [r^2 arccos(v / r) - v sqrt(r^2 - v^2)]. *)
Theorem segArea_closed_form (v r : R) :
  0 < r -> - r <= v <= r ->
  segArea v r = r ^ 2 * acos (v / r) - v * sqrt (r ^ 2 - v ^ 2).
Proof.
  intros Hr Hv. unfold segArea. rewrite alpha_inside by lra.
  pose proof (ratio_bounds v r Hr Hv) as Hq.
  rewrite sin_2a, sin_acos, cos_acos by assumption.
  rewrite sqrt_ratio by assumption.
  replace 0.5 with (1 / 2) by lra. field. lra.
Qed.

Lemma segArea_closed_form_witness :
  segArea 3 5 = 5 ^ 2 * acos (3 / 5) - 3 * sqrt (5 ^ 2 - 3 ^ 2).
Proof. apply segArea_closed_form; lra. Defined.

(** X2: the segments above and below a chord make up the disc:
    [segArea(v, r) + segArea(-v, r) = pi r^2]; in particular the segment at
    [v = r] is empty, the one at [v = 0] is half the disc and the one at
    [v = -r] is the whole disc. *)
Theorem segArea_complement (v r : R) :
  0 < r -> - r <= v <= r ->
  segArea v r + segArea (- v) r = PI * r ^ 2.
Proof.
  intros Hr Hv. unfold segArea. rewrite !alpha_inside by lra.
  replace (- v / r) with (- (v / r)) by (field; lra).
  rewrite acos_opp.
  replace (2 * (PI - acos (v / r))) with (2 * PI - 2 * acos (v / r)) by ring.
  replace (sin (2 * PI - 2 * acos (v / r))) with (- sin (2 * acos (v / r))).
  - lra.
  - rewrite <- sin_neg.
    rewrite <- (sin_period (- (2 * acos (v / r))) 1).
    f_equal. simpl. ring.
Qed.

Lemma segArea_complement_witness :
  segArea 3 5 + segArea (- 3) 5 = PI * 5 ^ 2.
Proof. apply segArea_complement; lra. Defined.

(** X3: [segArea(v, r)] shrinks as [v] grows and stays between 0 and the
    area of the disc, so the row offsets that [pix2Idx] derives from it
    grow from the row [v = r] towards the row [v = -r]. *)
Theorem segArea_decreasing (v1 v2 r : R) :
  0 < r -> - r <= v1 -> v1 <= v2 -> v2 <= r ->
  0 <= segArea v2 r <= segArea v1 r /\ segArea v1 r <= PI * r ^ 2.
Proof.
  intros Hr H1 H12 H2.
  assert (mono : forall a b, - r <= a -> a <= b -> b <= r ->
                             segArea b r <= segArea a r).
  { intros a b Ha Hab Hb. unfold segArea. rewrite !alpha_inside by lra.
    pose proof (ratio_bounds a r Hr ltac:(lra)) as Qa.
    pose proof (ratio_bounds b r Hr ltac:(lra)) as Qb.
    assert (Hq : a / r <= b / r).
    { unfold Rdiv. apply Rmult_le_compat_r; [|assumption].
      left. apply Rinv_0_lt_compat. assumption. }
    pose proof (acos_decr (a / r) (b / r) ltac:(lra) Hq ltac:(lra)) as Hac.
    pose proof (acos_bound (a / r)) as Ba. pose proof (acos_bound (b / r)) as Bb.
    pose proof (sin_diff_le (2 * acos (a / r)) (2 * acos (b / r))
                            ltac:(lra) ltac:(lra)) as Hs.
    assert (Hr2 : 0 <= 0.5 * r ^ 2) by nra.
    apply Rmult_le_compat_l; [assumption|lra]. }
  assert (top : segArea r r = 0).
  { unfold segArea. rewrite alpha_inside by lra.
    replace (r / r) with 1 by (field; lra). rewrite acos_1.
    replace (2 * 0) with 0 by ring. rewrite sin_0. ring. }
  assert (bot : segArea (- r) r = PI * r ^ 2).
  {
    unfold segArea. rewrite alpha_inside by lra.
    replace (- r / r) with (Ropp 1) by (field; lra).
    rewrite acos_opp, acos_1.
    replace (2 * (PI - 0)) with (2 * PI) by ring. rewrite sin_2PI. lra. }
  split; [split|].
  - rewrite <- top. apply mono; lra.
  - apply mono; lra.
  - rewrite <- bot. apply mono; lra.
Qed.

Lemma segArea_decreasing_witness :
  0 <= segArea 4 5 <= segArea 3 5 /\ segArea 3 5 <= PI * 5 ^ 2.
Proof. apply segArea_decreasing; lra. Defined.

(** X4: [alpha(v, r)] is the central angle subtended by the chord at
    height [v]: the chord has length [2 r sin(alpha / 2)]. *)
Theorem chordLen_alpha (v r : R) :
  0 < r -> - r <= v <= r ->
  chordLen v r = 2 * r * sin (alpha v r / 2).
Proof.
  intros Hr Hv. unfold chordLen. rewrite alpha_inside by lra.
  destruct (Rle_dec v r) as [_|n]; [|lra].
  replace (2 * acos (v / r) / 2) with (acos (v / r)) by field.
  rewrite sin_acos by (apply ratio_bounds; assumption).
  rewrite sqrt_ratio by assumption. field. lra.
Qed.

Lemma chordLen_alpha_witness :
  chordLen 3 5 = 2 * 5 * sin (alpha 3 5 / 2).
Proof. apply chordLen_alpha; lra. Defined.

End SegmentProperties.

Section ViewRayFacts.

Import Fisheye.
Local Open Scope R_scope.

Lemma cos_quarter_sign (d : R) :
  0 <= d -> d < 3 ->
  (0 < cos (0.5 * PI * d) <-> d < 1) /\ (cos (0.5 * PI * d) < 0 <-> 1 < d).
Proof.
  intros H0 H3. pose proof PI_RGT_0 as Hpi.
  destruct (Rtotal_order d 1) as [Hlt|[->|Hgt]].
  - assert (0 < cos (0.5 * PI * d)) by (apply cos_gt_0; nra).
    split; split; intros; lra.
  - replace (0.5 * PI * 1) with (PI / 2) by lra. rewrite cos_PI2.
    split; split; intros; lra.
  - assert (cos (0.5 * PI * d) < 0) by (apply cos_lt_0; nra).
    split; split; intros; lra.
Qed.

Lemma sqrt_lt_1_iff (x : R) : 0 <= x -> (sqrt x < 1 <-> x < 1).
Proof.
  intros Hx. split; intros H.
  - destruct (Rlt_le_dec x 1) as [|Hc]; [assumption|exfalso].
    apply sqrt_le_1_alt in Hc. rewrite sqrt_1 in Hc. lra.
  - rewrite <- sqrt_1. apply sqrt_lt_1_alt. lra.
Qed.

Lemma sqrt_gt_1_iff (x : R) : 0 <= x -> (1 < sqrt x <-> 1 < x).
Proof.
  intros Hx. split; intros H.
  - destruct (Rlt_le_dec 1 x) as [|Hc]; [assumption|exfalso].
    apply sqrt_le_1_alt in Hc. rewrite sqrt_1 in Hc. lra.
  - rewrite <- sqrt_1. apply sqrt_lt_1_alt. lra.
Qed.

(** A pixel that [pix2Idx] does not reject lies strictly inside the
    circle. *)
Lemma pix2Idx_accepts (x y rad : Z) :
  (0 <= pix2Idx (x, y) rad)%Z ->
  ((x - rad) ^ 2 + (y - rad) ^ 2 < rad ^ 2)%Z.
Proof.
  intros Hi. unfold pix2Idx in Hi.
  destruct (Rgt_dec _ _) as [_|Hn]; [lia|].
  apply lt_IZR. unfold EPSILON in Hn. lra.
Qed.

(** The view ray of a pixel strictly inside the circle points into the
    image. *)
Lemma inside_Dz_pos (x y rad : Z) :
  (0 < rad)%Z ->
  ((x - rad) ^ 2 + (y - rad) ^ 2 < rad ^ 2)%Z ->
  0 < snd (vwRay (0.5 * IZR x / IZR rad, 0.5 * IZR y / IZR rad)).
Proof.
  intros Hr Hin. unfold vwRay. cbn [snd].
  assert (HR : 0 < IZR rad) by (apply IZR_lt; assumption).
  apply IZR_lt in Hin.
  rewrite plus_IZR in Hin.
  replace ((x - rad) ^ 2)%Z with ((x - rad) * (x - rad))%Z in Hin by lia.
  replace ((y - rad) ^ 2)%Z with ((y - rad) * (y - rad))%Z in Hin by lia.
  replace (rad ^ 2)%Z with (rad * rad)%Z in Hin by lia.
  rewrite !mult_IZR, !minus_IZR in Hin.
  set (q := (2 * (0.5 * IZR x / IZR rad) - 1) ^ 2 +
            (2 * (0.5 * IZR y / IZR rad) - 1) ^ 2).
  assert (Eq : q = ((IZR x - IZR rad) * (IZR x - IZR rad) +
                    (IZR y - IZR rad) * (IZR y - IZR rad)) /
                   (IZR rad * IZR rad)).
  { unfold q. replace 0.5 with (1 / 2) by lra. field. lra. }
  assert (Hq0 : 0 <= q)
    by (unfold q; apply Rplus_le_le_0_compat; apply pow2_ge_0).
  assert (Hq1 : q < 1).
  { rewrite Eq. apply Rmult_lt_reg_r with (IZR rad * IZR rad); [nra|].
    unfold Rdiv. rewrite Rmult_assoc, Rinv_l by nra. lra. }
  assert (Hd0 : 0 <= sqrt q) by apply sqrt_pos.
  assert (Hd1 : sqrt q < 1) by (apply sqrt_lt_1_iff; assumption).
  apply (cos_quarter_sign (sqrt q)); lra.
Qed.

Lemma vwRay_centre : vwRay (0.5, 0.5) = (0, 0, 1).
Proof.
  unfold vwRay.
  replace (2 * 0.5 - 1) with 0 by lra.
  replace (0 ^ 2 + 0 ^ 2) with 0 by ring. rewrite sqrt_0.
  destruct (Rgt_dec 0 EPSILON) as [H|_]; [unfold EPSILON in H; lra|].
  replace (0.5 * PI * 0) with 0 by ring. rewrite cos_0.
  replace (0 * 0) with 0 by ring. reflexivity.
Qed.

End ViewRayFacts.

Section ViewRayProperties.

Import Fisheye.
Local Open Scope R_scope.

Lemma ray_components (v : R * R * R) :
  v = (fst (fst v), snd (fst v), snd v).
Proof. destruct v as [[a b] c]. reflexivity. Qed.

(** X5: off the image centre (at a normalised distance above [EPSILON])
    the view ray that [vwRay] returns is a unit vector; at the centre
    itself it is the optical axis [(0, 0, 1)]. *)
Theorem vwRay_unit :
  (forall px py Dx Dy Dz,
      EPSILON < sqrt ((2 * px - 1) ^ 2 + (2 * py - 1) ^ 2) ->
      vwRay (px, py) = (Dx, Dy, Dz) ->
      Dx ^ 2 + Dy ^ 2 + Dz ^ 2 = 1) /\
  vwRay (0.5, 0.5) = (0, 0, 1).
Proof.
  split.
  - intros px py Dx Dy Dz Hd E. unfold vwRay in E.
    set (rx := 2 * px - 1) in *. set (ry := 2 * py - 1) in *.
    set (dr := sqrt (rx ^ 2 + ry ^ 2)) in *.
    set (c := cos (0.5 * PI * dr)) in *.
    destruct (Rgt_dec dr EPSILON) as [_|n]; [|exfalso; apply n; exact Hd].
    injection E as <- <- <-. change (c * (c * 1)) with (c ^ 2).
    assert (Hdr : 0 < dr) by (unfold EPSILON in Hd; lra).
    assert (Hdd : dr * dr = rx ^ 2 + ry ^ 2) by (apply sqrt_sqrt; nra).
    assert (Hc : 0 <= 1 - c ^ 2).
    { pose proof (COS_bound (0.5 * PI * dr)) as [C1 C2]. fold c in C1, C2. nra. }
    assert (Hs : sqrt (1 - c ^ 2) * sqrt (1 - c ^ 2) = 1 - c ^ 2)
      by (apply sqrt_sqrt; assumption).
    set (s := sqrt (1 - c ^ 2)) in *.
    transitivity ((rx ^ 2 + ry ^ 2) * (s * s) / (dr * dr) + c ^ 2);
      [field; lra|].
    rewrite Hs, <- Hdd. field. lra.
  - exact vwRay_centre.
Qed.

Lemma vwRay_unit_witness :
  EPSILON < sqrt ((2 * 1 - 1) ^ 2 + (2 * 0.5 - 1) ^ 2) /\
  fst (fst (vwRay (1, 0.5))) ^ 2 + snd (fst (vwRay (1, 0.5))) ^ 2 +
  snd (vwRay (1, 0.5)) ^ 2 = 1.
Proof.
  assert (H : EPSILON < sqrt ((2 * 1 - 1) ^ 2 + (2 * 0.5 - 1) ^ 2)).
  { replace ((2 * 1 - 1) ^ 2 + (2 * 0.5 - 1) ^ 2) with 1 by lra.
    rewrite sqrt_1. unfold EPSILON. lra. }
  split; [exact H|].
  exact (proj1 vwRay_unit 1 0.5 _ _ _ H (ray_components (vwRay (1, 0.5)))).
Defined.

(** X6: over the unit square of normalised pixel coordinates the sign of
    the Z component tells the field of view: it is positive inside the
    image circle, zero on it and negative outside, as the docstring of
    [vwRay] says of the image corners. *)
Theorem vwRay_field_of_view (px py Dx Dy Dz : R) :
  0 <= px <= 1 -> 0 <= py <= 1 ->
  vwRay (px, py) = (Dx, Dy, Dz) ->
  (0 < Dz <-> (2 * px - 1) ^ 2 + (2 * py - 1) ^ 2 < 1) /\
  (Dz < 0 <-> 1 < (2 * px - 1) ^ 2 + (2 * py - 1) ^ 2).
Proof.
  intros Hx Hy E. unfold vwRay in E. injection E as _ _ <-.
  set (q := (2 * px - 1) ^ 2 + (2 * py - 1) ^ 2).
  assert (Hq0 : 0 <= q)
    by (unfold q; apply Rplus_le_le_0_compat; apply pow2_ge_0).
  assert (Hq2 : q <= 2).
  { assert ((2 * px - 1) ^ 2 <= 1) by nra.
    assert ((2 * py - 1) ^ 2 <= 1) by nra.
    unfold q. lra. }
  assert (Hd0 : 0 <= sqrt q) by apply sqrt_pos.
  assert (Hd3 : sqrt q < 3).
  { destruct (Rlt_le_dec (sqrt q) 3) as [|Hc]; [assumption|exfalso].
    assert (sqrt q * sqrt q = q) by (apply sqrt_sqrt; assumption). nra. }
  destruct (cos_quarter_sign (sqrt q) Hd0 Hd3) as [H1 H2].
  change ((0 < cos (0.5 * PI * sqrt q) <-> q < 1) /\
          (cos (0.5 * PI * sqrt q) < 0 <-> 1 < q)).
  rewrite H1, H2, sqrt_lt_1_iff, sqrt_gt_1_iff by assumption.
  split; reflexivity.
Qed.

Lemma vwRay_field_of_view_witness :
  0 <= 1 <= 1 /\
  (0 < snd (vwRay (1, 1)) <-> (2 * 1 - 1) ^ 2 + (2 * 1 - 1) ^ 2 < 1) /\
  (snd (vwRay (1, 1)) < 0 <-> 1 < (2 * 1 - 1) ^ 2 + (2 * 1 - 1) ^ 2).
Proof.
  assert (H : 0 <= 1 <= 1) by lra.
  split; [exact H|].
  exact (vwRay_field_of_view 1 1 _ _ _ H H (ray_components (vwRay (1, 1)))).
Defined.

(** X7: the exception 'Valid index outside FoV' of [getCoeffs] cannot be
    raised: for a positive radius, a pixel to which [pix2Idx] gives an
    index that passes the test [idx >= 0] has a view ray with a positive
    Z component. *)
Theorem getCoeffs_pixel_in_view (x y rad : Z) (Dx Dy Dz : R) :
  (0 < rad)%Z ->
  (0 <= pix2Idx (x, y) rad)%Z ->
  vwRay (0.5 * IZR x / IZR rad, 0.5 * IZR y / IZR rad) = (Dx, Dy, Dz) ->
  0 < Dz.
Proof.
  intros Hr Hi E.
  pose proof (inside_Dz_pos x y rad Hr (pix2Idx_accepts x y rad Hi)) as H.
  rewrite E in H. exact H.
Qed.

Lemma getCoeffs_pixel_in_view_witness :
  (0 < 5)%Z /\ (0 <= pix2Idx (4, 9) 5)%Z /\
  0 < snd (vwRay (0.5 * IZR 4 / IZR 5, 0.5 * IZR 9 / IZR 5)).
Proof.
  assert (Hr : (0 < 5)%Z) by lia.
  assert (Hi : (0 <= pix2Idx (4, 9) 5)%Z) by (rewrite pix2Idx_4_9_5; lia).
  split; [exact Hr|]. split; [exact Hi|].
  exact (getCoeffs_pixel_in_view 4 9 5 _ _ _ Hr Hi (ray_components _)).
Defined.

End ViewRayProperties.

Section IndexFacts.

Import Fisheye.

Lemma int_offset (u : Z) :
  int (IZR u + 1.5) = if u <=? -2 then u + 2 else u + 1.
Proof.
  destruct (u <=? -2) eqn:E.
  - apply Z.leb_le in E. apply IZR_le in E.
    apply int_neg_spec; rewrite ?plus_IZR; lra.
  - apply Z.leb_gt in E.
    assert (H : -1 <= u) by lia. apply IZR_le in H.
    apply int_nonneg_spec; rewrite ?plus_IZR; lra.
Qed.

Lemma pix2Idx_outside (x y radius : Z) :
  radius ^ 2 <= (x - radius) ^ 2 + (y - radius) ^ 2 ->
  pix2Idx (x, y) radius = -1.
Proof.
  intros H. unfold pix2Idx.
  destruct (Rgt_dec _ _) as [_|Hn]; [reflexivity|exfalso].
  apply Hn. apply IZR_le in H. unfold EPSILON. lra.
Qed.

End IndexFacts.

Section IndexProperties.

Import Fisheye Symm Spec.

(** X8: on the row [y = 2 radius - 1], the first row of the image circle
    that holds pixels, the index is the column offset alone:
    [x - radius + 1] from the column left of the centre on, and
    [x - radius + 2] further left, whatever the solver. *)
Theorem pix2Idx_last_row (x radius : Z) :
  0 < radius ->
  (x - radius) ^ 2 + (radius - 1) ^ 2 < radius ^ 2 ->
  pix2Idx (x, 2 * radius - 1) radius =
  if x - radius <=? -2 then x - radius + 2 else x - radius + 1.
Proof.
  intros Hr Hin. rewrite pix2Idx_second_row by assumption.
  apply int_offset.
Qed.

Lemma pix2Idx_last_row_witness :
  pix2Idx (5, 2 * 9 - 1) 9 = if 5 - 9 <=? -2 then 5 - 9 + 2 else 5 - 9 + 1.
Proof. apply pix2Idx_last_row; lia. Defined.

(** X9: for every radius from 3 on, [pix2Idx] gives the index 0 to two
    different pixels inside the circle, so no function of the index can
    return the pixel for both. *)
Theorem pix2Idx_not_injective (radius : Z) :
  3 <= radius ->
  exists p q : Z * Z,
    p <> q /\ pix2Idx p radius = 0 /\ pix2Idx q radius = 0 /\
    forall inverse : Z -> Z -> option (Z * Z),
      inverse (pix2Idx p radius) radius <> Some p \/
      inverse (pix2Idx q radius) radius <> Some q.
Proof.
  intros Hr.
  assert (Ep : pix2Idx (radius - 2, 2 * radius - 1) radius = 0).
  { rewrite pix2Idx_second_row by nia.
    replace (radius - 2 - radius) with (-2) by lia. apply (int_offset (-2)). }
  assert (Eq : pix2Idx (radius - 1, 2 * radius - 1) radius = 0).
  { rewrite pix2Idx_second_row by nia.
    replace (radius - 1 - radius) with (-1) by lia. apply (int_offset (-1)). }
  exists (radius - 2, 2 * radius - 1), (radius - 1, 2 * radius - 1).
  split; [intros H; injection H; lia|].
  split; [exact Ep|]. split; [exact Eq|].
  intros inverse. rewrite Ep, Eq.
  destruct (inverse 0 radius) as [[a b]|].
  - destruct (Z.eq_dec a (radius - 2)) as [->|Hne].
    + right. intros H. injection H. lia.
    + left. intros H. injection H. intros. contradiction.
  - left. discriminate.
Qed.

Lemma pix2Idx_not_injective_witness :
  exists p q : Z * Z,
    p <> q /\ pix2Idx p 3 = 0 /\ pix2Idx q 3 = 0 /\
    forall inverse : Z -> Z -> option (Z * Z),
      inverse (pix2Idx p 3) 3 <> Some p \/
      inverse (pix2Idx q 3) 3 <> Some q.
Proof. apply pix2Idx_not_injective. lia. Defined.

(** X10: the value -1 does not tell the pixels outside the circle from
    those inside: [pix2Idx] returns -1 for every pixel on or outside the
    circle, and for every radius from 6 on it also returns -1 for a pixel
    inside the circle, and a smaller index still from radius 9 on. *)
Theorem pix2Idx_sentinel :
  (forall x y radius,
      radius ^ 2 <= (x - radius) ^ 2 + (y - radius) ^ 2 ->
      pix2Idx (x, y) radius = -1) /\
  (forall radius,
      6 <= radius ->
      (radius - 3 - radius) ^ 2 + (2 * radius - 1 - radius) ^ 2 < radius ^ 2 /\
      pix2Idx (radius - 3, 2 * radius - 1) radius = -1) /\
  (forall radius,
      9 <= radius ->
      (radius - 4 - radius) ^ 2 + (2 * radius - 1 - radius) ^ 2 < radius ^ 2 /\
      pix2Idx (radius - 4, 2 * radius - 1) radius = -2).
Proof.
  split; [exact pix2Idx_outside|]. split.
  - intros radius Hr. split; [nia|].
    rewrite pix2Idx_second_row by nia.
    replace (radius - 3 - radius) with (-3) by lia. apply (int_offset (-3)).
  - intros radius Hr. split; [nia|].
    rewrite pix2Idx_second_row by nia.
    replace (radius - 4 - radius) with (-4) by lia. apply (int_offset (-4)).
Qed.

Lemma pix2Idx_sentinel_witness :
  pix2Idx (0, 0) 5 = -1 /\ pix2Idx (3, 11) 6 = -1 /\ pix2Idx (5, 17) 9 = -2.
Proof.
  split; [apply (proj1 pix2Idx_sentinel); lia|]. split.
  - apply (proj1 (proj2 pix2Idx_sentinel) 6). lia.
  - apply (proj2 (proj2 pix2Idx_sentinel) 9). lia.
Defined.

(** X11: the radius that [FullResSymmetry.clusters] derives from the
    number of coefficients is the least positive integer whose disc area
    [pi r^2] exceeds that number; hence [idx2Pix] returns a pixel, not
    [None], for every bin of [range(numCoeff)], whatever the solver. *)
Theorem FullRes_radius_least
        (newton : (R -> R) -> R -> (R -> R) -> R) (numCoeff : Z) :
  0 <= numCoeff ->
  1 <= radius numCoeff /\
  (IZR numCoeff < PI * IZR (radius numCoeff ^ 2))%R /\
  (PI * IZR ((radius numCoeff - 1) ^ 2) <= IZR numCoeff)%R /\
  forall idx, 0 <= idx < numCoeff ->
              idx2Pix newton idx (radius numCoeff) <> None.
Proof.
  intros Hn. destruct (radius_covers numCoeff Hn) as [Hc Hr].
  split; [exact Hr|]. split; [exact Hc|]. split.
  - unfold radius in *.
    pose proof PI_RGT_0 as Hpi.
    assert (Hq : (0 <= IZR numCoeff / PI)%R).
    { apply Rmult_le_pos; [apply IZR_le; lia|].
      left. apply Rinv_0_lt_compat. assumption. }
    pose proof (sqrt_pos (IZR numCoeff / PI)) as Hs.
    set (s := sqrt (IZR numCoeff / PI)) in *.
    unfold int in *. destruct (Rle_dec 0 (s + 1)) as [_|Hc']; [|lra].
    destruct (base_Int_part (s + 1)) as [H1 H2].
    set (r := Int_part (s + 1)) in *.
    replace ((r - 1) ^ 2) with ((r - 1) * (r - 1)) by lia.
    rewrite mult_IZR, minus_IZR.
    assert (Hs2 : (s * s = IZR numCoeff / PI)%R) by (apply sqrt_sqrt; assumption).
    assert (Hr0 : (0 <= IZR r - 1)%R).
    { apply IZR_le in Hr. lra. }
    assert (Hle : ((IZR r - 1) * (IZR r - 1) <= s * s)%R) by nra.
    replace (IZR numCoeff) with (PI * (IZR numCoeff / PI))%R by (field; lra).
    apply Rmult_le_compat_l; lra.
  - intros idx Hi. destruct (idx2Pix_some newton numCoeff idx Hi) as [pix E].
    rewrite E. discriminate.
Qed.

Lemma FullRes_radius_least_witness :
  1 <= radius 479789 /\
  (IZR 479789 < PI * IZR (radius 479789 ^ 2))%R /\
  (PI * IZR ((radius 479789 - 1) ^ 2) <= IZR 479789)%R /\
  forall idx, 0 <= idx < 479789 ->
              idx2Pix (fun _ x0 _ => x0) idx (radius 479789) <> None.
Proof. apply FullRes_radius_least. lia. Defined.

End IndexProperties.
Section CacheFacts2.

Import Symm Spec.

Variable newton : (R -> R) -> R -> (R -> R) -> R.

Lemma cached_store (r : option resolution) (k : option Z) (n : Z)
      (c : Clusters) :
  cached {| _resolution := r; _numCoeff := Some n; _clusters := Some c;
            _numCoeffs := k |} n = Some c.
Proof. unfold cached. simpl. now rewrite Z.eqb_refl. Qed.

(** A call that raises leaves the attributes of the cache as they were,
    and the whole object in the classes that do not go through
    [patches]; with [patches] the subdivision factor has been stored
    before the exception. *)
Lemma clusters_raise_state (p : policy) (self : SymmetryBase) (n : Z) (e : exn) :
  fst (clusters newton p self n) = Raise e ->
  snd (clusters newton p self n) =
  match p with
  | ReinhartRotational | ReinhartCurve =>
      {| _resolution := Some (as_float (round_sqrt (n - 1) 144));
         _numCoeff := _numCoeff self; _clusters := _clusters self;
         _numCoeffs := _numCoeffs self |}
  | _ => self
  end.
Proof.
  destruct p; simpl.
  - unfold KlemsSymmetry_clusters.
    destruct (cached self n) as [c|]; [discriminate|].
    destruct (negb (n =? 145)); [reflexivity|discriminate].
  - unfold ReinhartRotSymmetry_clusters.
    destruct (cached self n) as [c|]; [discriminate|].
    rewrite (rows_pair self).
    destruct (fst (rows new n)) as [[r cl]|e']; [discriminate|reflexivity].
  - unfold ReinhartCurveSymmetry_clusters.
    destruct (cached self n) as [c|]; [discriminate|].
    rewrite (rows_pair self). cbv beta iota zeta.
    match goal with
    | |- fst (match ?x with _ => _ end) = _ -> _ => destruct x
    end; [discriminate|reflexivity].
  - unfold ReinhartProfSymmetry_clusters.
    destruct (cached self n) as [c|]; discriminate.
  - intros H. pose proof (clusters_cached newton FullResolution self n) as Hc.
    simpl in Hc. rewrite H in Hc. revert H.
    unfold FullResSymmetry_clusters.
    destruct (cached self n) as [c|]; [discriminate|].
    destruct (n <? 0) eqn:En; [reflexivity|].
    destruct (FullRes_partition newton n ltac:(lia)) as [cl [E _]].
    rewrite E in Hc. discriminate.
Qed.

(** After a normal return of a class other than the curve symmetry the
    object holds the size and the clusters returned. *)
Lemma clusters_return_state (p : policy) (self : SymmetryBase) (n : Z)
      (c : Clusters) :
  p <> ReinhartCurve ->
  fst (clusters newton p self n) = Ok c ->
  cached (snd (clusters newton p self n)) n = Some c.
Proof.
  intros Hp.
  destruct p; try contradiction; simpl;
    [ unfold KlemsSymmetry_clusters
    | unfold ReinhartRotSymmetry_clusters
    | unfold ReinhartProfSymmetry_clusters
    | unfold FullResSymmetry_clusters ];
    destruct (cached self n) as [c0|] eqn:Ec;
    try (simpl; intros H; injection H as <-; exact Ec).
  - destruct (negb (n =? 145)); [discriminate|].
    simpl. intros H. injection H as <-. apply cached_store.
  - rewrite (rows_pair self).
    destruct (fst (rows new n)) as [[r cl]|e']; [|discriminate].
    simpl. intros H. injection H as <-. apply cached_store.
  - simpl. intros H. injection H as <-. apply cached_store.
  - destruct (n <? 0); [discriminate|].
    match goal with |- fst (match ?x with _ => _ end) = _ -> _ => destruct x end;
      [|discriminate].
    simpl. intros H. injection H as <-. apply cached_store.
Qed.

(** A normal return of the curve symmetry that is not a hit stores the
    size in [_numCoeffs]. *)
Lemma Curve_return_state (self : SymmetryBase) (n : Z) (c : Clusters) :
  cached self n = None ->
  fst (ReinhartCurveSymmetry_clusters self n) = Ok c ->
  snd (ReinhartCurveSymmetry_clusters self n) =
  {| _resolution := Some (as_float (round_sqrt (n - 1) 144));
     _numCoeff := _numCoeff self; _clusters := Some c;
     _numCoeffs := Some n |}.
Proof.
  intros Hc. unfold ReinhartCurveSymmetry_clusters. rewrite Hc.
  rewrite (rows_pair self). cbv beta iota zeta.
  match goal with
  | |- fst (match ?x with _ => _ end) = _ -> _ => destruct x
  end; [|discriminate].
  simpl. intros H. injection H as <-. reflexivity.
Qed.

Lemma clusters_hit (p : policy) (self : SymmetryBase) (n : Z) (c : Clusters) :
  cached self n = Some c -> clusters newton p self n = (Ok c, self).
Proof.
  intros H. destruct p; simpl;
    [ unfold KlemsSymmetry_clusters
    | unfold ReinhartRotSymmetry_clusters
    | unfold ReinhartCurveSymmetry_clusters
    | unfold ReinhartProfSymmetry_clusters
    | unfold FullResSymmetry_clusters ];
    rewrite H; reflexivity.
Qed.

End CacheFacts2.

Section CacheProperties.

Import Symm Spec.

(** X12: the one-slot cache is transparent: on every object that calls
    of [clusters] can produce from a new one, whatever sizes were asked
    before and whether those calls raised or not, [clusters(numCoeff)]
    returns, or raises, what a new object does. *)
Theorem clusters_history_independent
        (newton : (R -> R) -> R -> (R -> R) -> R)
        (p : policy) (self : SymmetryBase) (numCoeff : Z) :
  reachable (clusters newton p) self ->
  fst (clusters newton p self numCoeff) = fst (clusters newton p new numCoeff).
Proof.
  intros Hr. apply clusters_consistent. apply reachable_consistent. exact Hr.
Qed.

Lemma clusters_history_independent_witness :
  fst (clusters (fun _ x0 _ => x0) Klems
         (snd (clusters (fun _ x0 _ => x0) Klems
                 (snd (clusters (fun _ x0 _ => x0) Klems new 145)) 7)) 145) =
  fst (clusters (fun _ x0 _ => x0) Klems new 145).
Proof.
  apply clusters_history_independent.
  apply reachable_call. apply reachable_call. apply reachable_new.
Defined.



End CacheProperties.

Section RowFacts.

Import Symm Spec.

Lemma rnaz_at_div (MF : Z) (k : nat) :
  1 <= MF ->
  rnaz_at MF k = MF * nth (Z.to_nat (Z.of_nat k / MF)) [30; 30; 24; 24; 18; 12; 6] 0.
Proof.
  intros H. unfold rnaz_at, tnaz_at. do 2 f_equal.
  rewrite <- (Z2Nat.id MF) at 2 by lia.
  rewrite <- Nat2Z.inj_div, Nat2Z.id. reflexivity.
Qed.

Lemma rnaz_at_pos (MF : Z) (k : nat) :
  1 <= MF -> (k < 7 * Z.to_nat MF)%nat -> 6 * MF <= rnaz_at MF k <= 30 * MF.
Proof.
  intros HM Hk. unfold rnaz_at, tnaz_at.
  assert (Hd : (k / Z.to_nat MF < 7)%nat)
    by (apply Nat.Div0.div_lt_upper_bound; lia).
  revert Hd. generalize (k / Z.to_nat MF)%nat. intros j Hd.
  do 7 (destruct j as [|j]; [cbn [nth]; lia|]). lia.
Qed.

Lemma bound_row (MF : Z) (k : nat) :
  (k < 7 * Z.to_nat MF)%nat ->
  bound MF (S k) = bound MF k + rnaz_at MF k.
Proof.
  intros Hk. unfold bound.
  destruct (Nat.leb_spec (S k) (7 * Z.to_nat MF)); [|lia].
  destruct (Nat.leb_spec k (7 * Z.to_nat MF)); [|lia].
  apply psum_S.
Qed.

End RowFacts.

Section RowProperties.

Import Symm Spec.

(** X14: for [numCoeff = 144 MF^2 + 1] with [MF >= 1], [patches] returns
    [7 MF] rows; row [r] has [MF * tnaz[r // MF]] patches, between [6 MF]
    and [30 MF]; [racc] holds the running totals of these, is strictly
    increasing, and ends with all the bins but the zenith,
    [numCoeff - 1], followed by [numCoeff]. *)
Theorem patches_rows (self : SymmetryBase) (MF : Z) :
  1 <= MF ->
  exists rnaz racc,
    fst (patches self (144 * MF ^ 2 + 1)) = Ok (7 * MF, rnaz, racc) /\
    len rnaz = 7 * MF /\ len racc = 7 * MF + 1 /\
    (forall r, 0 <= r < 7 * MF ->
       nth (Z.to_nat r) rnaz 0 =
       MF * nth (Z.to_nat (r / MF)) [30; 30; 24; 24; 18; 12; 6] 0 /\
       6 * MF <= nth (Z.to_nat r) rnaz 0 <= 30 * MF) /\
    nth 0 racc 0 = nth 0 rnaz 0 /\
    (forall r, 1 <= r < 7 * MF ->
       nth (Z.to_nat r) racc 0 =
       nth (Z.to_nat (r - 1)) racc 0 + nth (Z.to_nat r) rnaz 0) /\
    nth (Z.to_nat (7 * MF - 1)) racc 0 = 144 * MF ^ 2 /\
    nth (Z.to_nat (7 * MF)) racc 0 = 144 * MF ^ 2 + 1.
Proof.
  intros HM.
  destruct (patches_ok (Z.to_nat MF) ltac:(lia))
    as [rnaz [racc [E [Hl1 [Hn1 [Hl2 Hn2]]]]]].
  cbv zeta in E, Hn1, Hn2. rewrite Z2Nat.id in E, Hn1, Hn2 by lia.
  exists rnaz, racc. split; [rewrite (patches_pair self); exact E|].
  split; [unfold len; rewrite Hl1; lia|].
  split; [unfold len; rewrite Hl2; lia|].
  split; [|split; [|split; [|split]]].
  - intros r Hr. rewrite Hn1 by lia. split.
    + rewrite rnaz_at_div by lia. now rewrite Z2Nat.id by lia.
    + apply rnaz_at_pos; lia.
  - rewrite (Hn2 0%nat), (Hn1 0%nat) by lia.
    rewrite (bound_row MF 0) by lia. rewrite bound_0. lia.
  - intros r Hr. rewrite !Hn2, Hn1 by lia.
    replace (S (Z.to_nat (r - 1))) with (Z.to_nat r) by lia.
    apply bound_row. lia.
  - rewrite Hn2 by lia.
    replace (S (Z.to_nat (7 * MF - 1))) with (7 * Z.to_nat MF)%nat by lia.
    unfold bound. destruct (Nat.leb_spec (7 * Z.to_nat MF) (7 * Z.to_nat MF)); [|lia].
    pose proof (psum_rnaz (Z.to_nat MF) ltac:(lia)) as Hp.
    rewrite Z2Nat.id in Hp by lia. exact Hp.
  - rewrite Hn2 by lia.
    replace (S (Z.to_nat (7 * MF))) with (7 * Z.to_nat MF + 1)%nat by lia.
    pose proof (bound_last (Z.to_nat MF) ltac:(lia)) as Hp.
    rewrite Z2Nat.id in Hp by lia. exact Hp.
Qed.

Lemma patches_rows_witness :
  exists rnaz racc,
    fst (patches new (144 * 4 ^ 2 + 1)) = Ok (7 * 4, rnaz, racc) /\
    len rnaz = 7 * 4 /\ len racc = 7 * 4 + 1 /\
    (forall r, 0 <= r < 7 * 4 ->
       nth (Z.to_nat r) rnaz 0 =
       4 * nth (Z.to_nat (r / 4)) [30; 30; 24; 24; 18; 12; 6] 0 /\
       6 * 4 <= nth (Z.to_nat r) rnaz 0 <= 30 * 4) /\
    nth 0 racc 0 = nth 0 rnaz 0 /\
    (forall r, 1 <= r < 7 * 4 ->
       nth (Z.to_nat r) racc 0 =
       nth (Z.to_nat (r - 1)) racc 0 + nth (Z.to_nat r) rnaz 0) /\
    nth (Z.to_nat (7 * 4 - 1)) racc 0 = 144 * 4 ^ 2 /\
    nth (Z.to_nat (7 * 4)) racc 0 = 144 * 4 ^ 2 + 1.
Proof. apply patches_rows. lia. Defined.

(** X15: the rotational Reinhart symmetry returns one cluster per row and
    one for the zenith, the zenith first: for [numCoeff = 144 MF^2 + 1]
    with [MF >= 1] there are [7 MF + 1] clusters, cluster 0 is the single
    bin [numCoeff - 1], cluster [j] for [j >= 1] is a run of consecutive
    bins of the length [MF * tnaz[(7 MF - j) // MF]] that ends where
    cluster [j - 1] begins, and the last cluster begins at bin 0. *)
Theorem ReinhartRot_rows (MF : Z) :
  1 <= MF ->
  exists cl first,
    fst (ReinhartRotSymmetry_clusters new (144 * MF ^ 2 + 1)) = Ok cl /\
    len cl = 7 * MF + 1 /\
    nth 0 cl [] = [144 * MF ^ 2] /\
    first 0 = 144 * MF ^ 2 /\
    first (7 * MF) = 0 /\
    forall j, 1 <= j <= 7 * MF ->
      nth (Z.to_nat j) cl [] = range (first j) (first (j - 1)) /\
      first (j - 1) - first j =
      MF * nth (Z.to_nat ((7 * MF - j) / MF)) [30; 30; 24; 24; 18; 12; 6] 0.
Proof.
  intros HM. set (m := Z.to_nat MF).
  assert (Hm : (1 <= m)%nat) by (unfold m; lia).
  pose proof (rows_ok m Hm) as E. cbv zeta in E.
  replace (Z.of_nat m) with MF in E by (unfold m; lia).
  set (row := fun i : nat => range (bound MF i) (bound MF (S i))) in *.
  exists (rev (map row (seq 0 (7 * m + 1)))),
         (fun j => bound MF (Z.to_nat (7 * MF - j))).
  assert (Hlen : length (map row (seq 0 (7 * m + 1))) = (7 * m + 1)%nat)
    by now rewrite length_map, length_seq.
  assert (Hnth : forall j : nat, (j <= 7 * m)%nat ->
            nth j (rev (map row (seq 0 (7 * m + 1)))) [] = row (7 * m - j)%nat).
  { intros j Hj. rewrite rev_nth by lia. rewrite Hlen.
    replace (7 * m + 1 - S j)%nat with (7 * m - j)%nat by lia.
    rewrite (nth_indep _ [] (row 0%nat)) by lia.
    rewrite map_nth, seq_nth by lia. reflexivity. }
  assert (Hlast : bound MF (7 * m + 1) = 144 * MF ^ 2 + 1).
  { pose proof (bound_last m Hm) as Hp. unfold m in Hp.
    rewrite Z2Nat.id in Hp by lia. exact Hp. }
  assert (Htop : bound MF (7 * m) = 144 * MF ^ 2).
  { unfold bound. fold m. rewrite Nat.leb_refl.
    pose proof (psum_rnaz m Hm) as Hp. unfold m in Hp.
    rewrite Z2Nat.id in Hp by lia. exact Hp. }
  split; [|split; [|split; [|split; [|split]]]].
  - unfold ReinhartRotSymmetry_clusters.
    rewrite cached_new, (rows_pair new), E. reflexivity.
  - unfold len. rewrite length_rev, Hlen. unfold m. lia.
  - rewrite (Hnth 0%nat) by lia. unfold row.
    replace (7 * m - 0)%nat with (7 * m)%nat by lia.
    replace (S (7 * m)) with (7 * m + 1)%nat by lia.
    rewrite Hlast, Htop. rewrite range_cons by lia.
    rewrite range_empty by lia. reflexivity.
  - replace (Z.to_nat (7 * MF - 0)) with (7 * m)%nat by (unfold m; lia).
    exact Htop.
  - replace (7 * MF - 7 * MF) with 0 by lia. apply bound_0.
  - intros j Hj. rewrite Hnth by (unfold m; lia). unfold row.
    replace (7 * m - Z.to_nat j)%nat with (Z.to_nat (7 * MF - j))
      by (unfold m; lia).
    replace (Z.to_nat (7 * MF - (j - 1))) with (S (Z.to_nat (7 * MF - j))) by lia.
    split; [reflexivity|].
    rewrite bound_row by (fold m; unfold m; lia).
    rewrite rnaz_at_div by lia. rewrite Z2Nat.id by lia. lia.
Qed.

Lemma ReinhartRot_rows_witness :
  exists cl first,
    fst (ReinhartRotSymmetry_clusters new (144 * 4 ^ 2 + 1)) = Ok cl /\
    len cl = 7 * 4 + 1 /\
    nth 0 cl [] = [144 * 4 ^ 2] /\
    first 0 = 144 * 4 ^ 2 /\
    first (7 * 4) = 0 /\
    forall j, 1 <= j <= 7 * 4 ->
      nth (Z.to_nat j) cl [] = range (first j) (first (j - 1)) /\
      first (j - 1) - first j =
      4 * nth (Z.to_nat ((7 * 4 - j) / 4)) [30; 30; 24; 24; 18; 12; 6] 0.
Proof. apply ReinhartRot_rows. lia. Defined.

End RowProperties.
Section SearchFacts.

Import Float Symm Spec.

Lemma cluster_search_positions (cl : Clusters) (lo x : Z) :
  map fst (filter (fun '(i, c) => contains c x)
                  (combine (range lo (lo + len cl)) cl)) =
  map (fun i => lo + Z.of_nat i)
      (filter (fun i => contains (nth i cl []) x) (seq 0 (length cl))).
Proof.
  revert lo. induction cl as [|c cl IH]; intros lo.
  - rewrite range_empty by (unfold len; simpl; lia). reflexivity.
  - rewrite range_cons by (unfold len; simpl length; lia).
    replace (lo + len (c :: cl)) with (lo + 1 + len cl)
      by (unfold len; simpl length; lia).
    assert (Er : map (fun i => lo + Z.of_nat i)
                     (filter (fun i => contains (nth i (c :: cl) []) x)
                             (seq 1 (length cl))) =
                 map fst (filter (fun '(i, c0) => contains c0 x)
                                 (combine (range (lo + 1) (lo + 1 + len cl)) cl))).
    { rewrite IH, <- seq_shift, filter_map_swap, map_map.
      apply map_ext. intros i. lia. }
    change (seq 0 (length (c :: cl))) with (0%nat :: seq 1 (length cl)).
    cbn [combine filter]. change (nth 0 (c :: cl) []) with c.
    destruct (contains c x); cbn [map fst]; rewrite Er;
      [f_equal; lia|reflexivity].
Qed.

Lemma singleton_spec (l : list nat) (i : nat) :
  NoDup l -> (forall j, In j l <-> j = i) -> l = [i].
Proof.
  intros Hnd H. destruct l as [|a l].
  - exfalso. apply (proj2 (H i) eq_refl).
  - assert (a = i) by (apply H; now left). subst a.
    destruct l as [|b l]; [reflexivity|exfalso].
    assert (b = i) by (apply H; right; now left). subst b.
    inversion Hnd as [|? ? Hn _]. apply Hn. now left.
Qed.

Lemma positions_single (cl : Clusters) (x : Z) (i : nat) :
  filter (fun i => contains (nth i cl []) x) (seq 0 (length cl)) = [i] <->
  ((i < length cl)%nat /\ contains (nth i cl []) x = true /\
   forall j, (j < length cl)%nat -> contains (nth j cl []) x = true -> j = i).
Proof.
  split.
  - intros E.
    assert (Hin : forall j, In j [i] <->
                            In j (seq 0 (length cl)) /\
                            contains (nth j cl []) x = true).
    { intros j. rewrite <- E. apply filter_In. }
    destruct (proj1 (Hin i) ltac:(now left)) as [H1 H2].
    apply in_seq in H1. split; [lia|]. split; [exact H2|].
    intros j Hj Hc.
    assert (In j [i]) by (apply Hin; split; [apply in_seq; lia|exact Hc]).
    simpl in H. destruct H as [H|[]]. congruence.
  - intros [Hi [Hc Hu]]. apply singleton_spec.
    + apply NoDup_filter, seq_NoDup.
    + intros j. rewrite filter_In, in_seq. split.
      * intros [Hj Hcj]. apply Hu; [lia|exact Hcj].
      * intros ->. split; [lia|exact Hc].
Qed.

Lemma search_owned (cl : Clusters) (x i0 : Z) :
  map fst (filter (fun '(i, c) => contains c x) (enumerate cl)) = [i0] ->
  0 <= i0 < len cl /\ owned_once cl x.
Proof.
  unfold enumerate. intros E.
  change (range 0 (len cl)) with (range 0 (0 + len cl)) in E.
  rewrite (cluster_search_positions cl 0 x) in E.
  destruct (filter (fun i => contains (nth i cl []) x) (seq 0 (length cl)))
    as [|i [|j l]] eqn:Ef; try discriminate.
  cbn [map] in E. injection E as <-.
  apply positions_single in Ef. destruct Ef as [Hi H].
  split; [unfold len; lia|]. exists i. split; assumption.
Qed.

Lemma owned_search (cl : Clusters) (x : Z) :
  owned_once cl x ->
  exists i, (i < length cl)%nat /\
    map fst (filter (fun '(i, c) => contains c x) (enumerate cl)) = [Z.of_nat i].
Proof.
  intros [i [Hi H]]. exists i. split; [exact Hi|].
  unfold enumerate. change (range 0 (len cl)) with (range 0 (0 + len cl)).
  rewrite (cluster_search_positions cl 0 x).
  rewrite (proj2 (positions_single cl x i)) by (split; assumption).
  reflexivity.
Qed.

Lemma for_each_raise {I S : Type} (P : nat -> S -> Prop) (idxs : list I)
      (body : I -> S -> result S) (acc : S) (e : exn) :
  P 0%nat acc ->
  (forall k a i a', nth_error idxs k = Some i -> P k a ->
                    body i a = Ok a' -> P (Datatypes.S k) a') ->
  for_each idxs acc body = Raise e ->
  exists k i a, nth_error idxs k = Some i /\ P k a /\ body i a = Raise e.
Proof.
  revert P acc. induction idxs as [|i rest IH]; intros P acc H0 Hstep E.
  - discriminate.
  - simpl in E. destruct (body i acc) as [a1|e1] eqn:E1.
    + simpl in E.
      destruct (IH (fun k a => P (Datatypes.S k) a) a1) as [k [j [a [Hj [HP Hb]]]]].
      * apply (Hstep 0%nat acc i a1 eq_refl H0 E1).
      * intros k a j a' Hj HP Hb. apply (Hstep (Datatypes.S k) a j a' Hj HP Hb).
      * exact E.
      * exists (Datatypes.S k), j, a. auto.
    + simpl in E. injection E as ->. exists 0%nat, i, acc. auto.
Qed.

Lemma accumulate_step (cl : Clusters) (k : Z) (q : float) (acc : list float) :
  length acc = length cl ->
  match accumulate cl (k, q) acc with
  | Ok acc' => length acc' = length cl /\ owned_once cl k
  | Raise e =>
      ~ owned_once cl k /\
      (e = ValueError "bin not found" \/
       e = ValueError "bin assigned to mutiple clusters")
  end.
Proof.
  intros Hl. unfold accumulate. cbv zeta.
  destruct (map fst (filter (fun '(i, c) => contains c k) (enumerate cl)))
    as [|i0 [|i1 l]] eqn:Es.
  - split; [|now left]. intros Ho.
    destruct (owned_search cl k Ho) as [i [_ E]]. congruence.
  - destruct (search_owned cl k i0 Es) as [Hi Ho]. unfold len in Hi.
    replace i0 with (Z.of_nat (Z.to_nat i0)) by lia.
    rewrite (getitem_nat acc _ (Zero false)) by lia. cbn [bind].
    rewrite setitem_nat by lia.
    split; [now rewrite update_length|exact Ho].
  - split; [|now right]. intros Ho.
    destruct (owned_search cl k Ho) as [i [_ E]]. congruence.
Qed.

End SearchFacts.

Section ClusterCoeffsProperties.

Import Float Symm Spec.

(** X16: the check inside [clusterCoeffs] is exact.  For a file of two
    numbers or more for which [clusters] returns, and whatever the
    numbers are, [clusterCoeffs] returns normally if and only if every
    bin of [range(len(coeffs))] lies in exactly one of the clusters, and
    otherwise it raises one of its two ValueErrors, 'bin not found' or
    'bin assigned to mutiple clusters'. *)
Theorem clusterCoeffs_returns_iff (sum : list float -> float) (m : method)
        (self : SymmetryBase) (coeffs : list float) (cl : Clusters) :
  2 <= len coeffs ->
  fst (m self (len coeffs)) = Ok cl ->
  ((exists out, fst (clusterCoeffs sum m self coeffs) = Ok out) <->
   (forall b, 0 <= b < len coeffs -> owned_once cl b)) /\
  (forall e, fst (clusterCoeffs sum m self coeffs) = Raise e ->
             e = ValueError "bin not found" \/
             e = ValueError "bin assigned to mutiple clusters").
Proof.
  intros Hne Hm.
  destruct (m self (len coeffs)) as [r self'] eqn:Em. simpl in Hm. subst r.
  rewrite (clusterCoeffs_accumulate sum m self self' coeffs cl Hne Em).
  assert (Hz : length (zerosF (len cl)) = length cl) by apply zerosF_length.
  split; [split|].
  - intros [out E].
    destruct (for_each (enumerate coeffs) (zerosF (len cl)) (accumulate cl))
      as [sums|e] eqn:Ef; [|discriminate].
    apply (for_each_preserves
             (fun k acc => length acc = length cl /\
                           forall b, 0 <= b < Z.of_nat k -> owned_once cl b)) in Ef.
    + rewrite enumerate_length in Ef. exact (proj2 Ef).
    + split; [exact Hz|]. intros b Hb. lia.
    + intros k a [i q] a' Hk [Hl Hb] Ha.
      apply nth_error_enumerate in Hk. destruct Hk as [-> _].
      pose proof (accumulate_step cl (Z.of_nat k) q a Hl) as Hs.
      rewrite Ha in Hs. destruct Hs as [Hl' Ho]. split; [exact Hl'|].
      intros b Hb'. destruct (Z.eq_dec b (Z.of_nat k)) as [->|Hn];
        [exact Ho|apply Hb; lia].
  - intros Ho.
    destruct (for_each_invariant
                (fun (k : nat) (acc : list float) => length acc = length cl)
                (enumerate coeffs) (accumulate cl) (zerosF (len cl)) Hz)
      as [sums [E _]].
    + intros k a [i q] Hk Hl.
      apply nth_error_enumerate in Hk. destruct Hk as [-> Hq].
      assert (Hkn : (k < length coeffs)%nat)
        by (apply nth_error_Some; rewrite Hq; discriminate).
      pose proof (accumulate_step cl (Z.of_nat k) q a Hl) as Hs.
      destruct (accumulate cl (Z.of_nat k, q) a) as [a'|e].
      * exists a'. split; [reflexivity|exact (proj1 Hs)].
      * exfalso. apply (proj1 Hs). apply Ho. unfold len. lia.
    + rewrite E. eexists. reflexivity.
  - intros e E.
    destruct (for_each (enumerate coeffs) (zerosF (len cl)) (accumulate cl))
      as [sums|e'] eqn:Ef; [discriminate|].
    simpl in E. injection E as ->.
    destruct (for_each_raise
                (fun (k : nat) (acc : list float) => length acc = length cl)
                (enumerate coeffs) (accumulate cl) (zerosF (len cl)) e Hz)
      as [k [[i q] [a [_ [Hl Hb]]]]].
    + intros k a [i q] a' _ Hl Ha.
      pose proof (accumulate_step cl i q a Hl) as Hs.
      rewrite Ha in Hs. exact (proj1 Hs).
    + exact Ef.
    + pose proof (accumulate_step cl i q a Hl) as Hs.
      rewrite Hb in Hs. exact (proj2 Hs).
Qed.

Lemma clusterCoeffs_returns_iff_witness :
  2 <= len (repeat (Finite 1) 145) /\
  ((exists out,
       fst (clusterCoeffs sum_left KlemsSymmetry_clusters new
              (repeat (Finite 1) 145)) = Ok out) <->
   (forall b, 0 <= b < len (repeat (Finite 1) 145) ->
              owned_once [[0]; range 1 45; range 45 93; range 93 145] b)) /\
  (forall e,
      fst (clusterCoeffs sum_left KlemsSymmetry_clusters new
             (repeat (Finite 1) 145)) = Raise e ->
      e = ValueError "bin not found" \/
      e = ValueError "bin assigned to mutiple clusters").
Proof.
  assert (Hn : 2 <= len (repeat (Finite 1) 145)) by (vm_compute; discriminate).
  split; [exact Hn|].
  apply (clusterCoeffs_returns_iff sum_left KlemsSymmetry_clusters new
           (repeat (Finite 1) 145)).
  - exact Hn.
  - reflexivity.
Defined.

End ClusterCoeffsProperties.

Section ClusterCountFacts.

Import Float Symm Spec.

Variable newton : (R -> R) -> R -> (R -> R) -> R.

Lemma bind_ok {A B : Type} (m : result A) (k : A -> result B) (b : B) :
  bind m k = Ok b -> exists a, m = Ok a /\ k a = Ok b.
Proof. destruct m as [a|e]; [eauto|discriminate]. Qed.

Lemma Ok_inj {A : Type} (a b : A) : Ok a = Ok b -> a = b.
Proof. intros H. injection H. trivial. Qed.

Lemma rows_ok_size (n r : Z) (cl : Clusters) :
  fst (rows new n) = Ok (r, cl) ->
  exists MF, 1 <= MF /\ n = 144 * MF ^ 2 + 1 /\ r = 7 * MF /\
             len cl = 7 * MF + 1.
Proof.
  intros E.
  assert (Hp : exists r0, fst (patches new n) = Ok r0).
  { unfold rows in E. rewrite (patches_pair new) in E.
    cbv beta iota in E. cbn [fst] in E.
    destruct (fst (patches new n)) as [r0|e]; [eauto|discriminate]. }
  destruct Hp as [r0 Hp].
  destruct (patches_ok_size n r0 Hp) as [MF [HM ->]].
  pose proof (rows_ok (Z.to_nat MF) ltac:(lia)) as Ho. cbv zeta in Ho.
  rewrite Z2Nat.id in Ho by lia. rewrite Ho in E. injection E as <- <-.
  exists MF. split; [exact HM|]. split; [reflexivity|]. split; [reflexivity|].
  unfold len. rewrite length_rev, length_map, length_seq. lia.
Qed.

Lemma Curve_count (n : Z) (cl : Clusters) :
  fst (ReinhartCurveSymmetry_clusters new n) = Ok cl -> len cl = 15.
Proof.
  unfold ReinhartCurveSymmetry_clusters. rewrite cached_new.
  rewrite (rows_pair new). cbv beta iota zeta.
  match goal with
  | |- fst (match ?init with _ => _ end) = _ -> _ =>
      destruct init as [c|e] eqn:E; [|discriminate]
  end.
  cbn [fst]. intros H. injection H as <-.
  apply bind_ok in E. destruct E as [[r clust] [_ E]].
  repeat (apply bind_ok in E; destruct E as [? [_ E]]).
  injection E as <-. reflexivity.
Qed.

Lemma clusters_count (p : policy) (n : Z) (cl : Clusters) :
  fst (clusters newton p new n) = Ok cl ->
  match p with
  | Klems => n = 145 /\ len cl = 4
  | ReinhartRotational =>
      exists MF, 1 <= MF /\ n = 144 * MF ^ 2 + 1 /\ len cl = 7 * MF + 1
  | ReinhartCurve => len cl = 15
  | ReinhartProfile => len cl = 13
  | FullResolution => 0 <= n /\ len cl = 80
  end.
Proof.
  destruct p; cbn [clusters].
  - unfold KlemsSymmetry_clusters. rewrite cached_new.
    destruct (n =? 145) eqn:E; cbn [negb]; [|discriminate].
    cbn [fst]. intros H. injection H as <-. split; [lia|reflexivity].
  - unfold ReinhartRotSymmetry_clusters. rewrite cached_new.
    rewrite (rows_pair new).
    destruct (fst (rows new n)) as [[r c]|e] eqn:E; [|discriminate].
    cbn [fst]. intros H. injection H as <-.
    destruct (rows_ok_size n r c E) as [MF [H1 [H2 [_ H3]]]]. eauto.
  - apply Curve_count.
  - unfold ReinhartProfSymmetry_clusters. rewrite cached_new.
    cbn [fst]. intros H. injection H as <-. reflexivity.
  - intros H. destruct (Z.ltb_spec n 0) as [Hn|Hn].
    + exfalso. unfold FullResSymmetry_clusters in H. rewrite cached_new in H.
      apply Z.ltb_lt in Hn. rewrite Hn in H. discriminate.
    + rewrite FullRes_new in H by assumption. apply Ok_inj in H. subst cl.
      split; [assumption|]. unfold len. now rewrite length_map, range_length.
Qed.

End ClusterCountFacts.

Section ClusterCountProperties.

Import Float Symm Spec.

(** X18: a vector that [clusterCoeffs] returns has one entry per cluster
    of the class: 4 for Klems (and then there were 145 coefficients),
    [7 MF + 1] for the rotational Reinhart symmetry on [144 MF^2 + 1]
    coefficients, 15 for the curve symmetry, 13 for the profile symmetry
    and 80 for the full resolution, whatever the number of coefficients
    and the solver; so with the full resolution symmetry, the one that
    gdivclust.py instantiates, the clustered vectors of all coefficient
    files have the same shape. *)
Theorem clusterCoeffs_length
        (sum : list float -> float)
        (newton : (R -> R) -> R -> (R -> R) -> R)
        (p : policy) (self : SymmetryBase) (coeffs : list float)
        (out : list float) :
  consistent (clusters newton p) self ->
  fst (clusterCoeffs sum (clusters newton p) self coeffs) = Ok out ->
  match p with
  | Klems => len coeffs = 145 /\ len out = 4
  | ReinhartRotational =>
      exists MF, 1 <= MF /\ len coeffs = 144 * MF ^ 2 + 1 /\
                 len out = 7 * MF + 1
  | ReinhartCurve => len out = 15
  | ReinhartProfile => len out = 13
  | FullResolution => len out = 80
  end.
Proof.
  intros Hc E.
  destruct (clusterCoeffs_result sum _ self coeffs out E)
    as [_ [cl [Ecl [-> _]]]].
  rewrite (clusters_consistent newton p self (len coeffs) Hc) in Ecl.
  apply clusters_count in Ecl.
  assert (El : len (map (fun c => div c (sum (member_sums cl coeffs)))
                        (member_sums cl coeffs)) = len cl)
    by (unfold len, member_sums; rewrite !length_map; lia).
  rewrite El. destruct p; try exact Ecl. exact (proj2 Ecl).
Qed.

Lemma clusterCoeffs_length_witness :
  len (repeat (Finite 1) 145) = 145 /\
  len (map (fun s => div s (sum_left
                              (member_sums
                                 [[0]; range 1 45; range 45 93; range 93 145]
                                 (repeat (Finite 1) 145))))
           (member_sums [[0]; range 1 45; range 45 93; range 93 145]
                        (repeat (Finite 1) 145))) = 4.
Proof.
  apply (clusterCoeffs_length sum_left (fun _ x0 _ => x0) Klems new
           (repeat (Finite 1) 145)).
  - apply consistent_new.
  - cbn [clusters].
    rewrite (clusterCoeffs_run sum_left KlemsSymmetry_clusters new
               (snd (KlemsSymmetry_clusters new 145))
               (repeat (Finite 1) 145)
               [[0]; range 1 45; range 45 93; range 93 145]).
    + reflexivity.
    + vm_compute. discriminate.
    + reflexivity.
    + apply Klems_partition.
Defined.

End ClusterCountProperties.

Section SizeErrorFacts.

Import Float Symm Spec.

Variable newton : (R -> R) -> R -> (R -> R) -> R.

Lemma clusterCoeffs_raise (sum : list float -> float) (p : policy)
      (self : SymmetryBase) (coeffs : list float) (e : exn) :
  consistent (clusters newton p) self ->
  2 <= len coeffs ->
  fst (clusters newton p new (len coeffs)) = Raise e ->
  clusterCoeffs sum (clusters newton p) self coeffs =
  (Raise e, snd (clusters newton p self (len coeffs))).
Proof.
  intros Hc Hn E.
  rewrite <- (clusters_consistent newton p self (len coeffs) Hc) in E.
  unfold clusterCoeffs. rewrite (loadtxt_array _ Hn).
  assert (E0 : (len coeffs =? 0) = false) by lia.
  rewrite E0.
  destruct (clusters newton p self (len coeffs)) as [r s].
  simpl in E. subst r. reflexivity.
Qed.

Lemma rows_bad_size (n : Z) :
  1 <= n ->
  (forall MF, 0 <= MF -> n <> 144 * MF ^ 2 + 1) ->
  fst (rows new n) =
  Raise (ValueError "Invalid number of Reinhart coefficients").
Proof.
  intros Hn H. unfold rows. rewrite (patches_pair new).
  cbv beta iota. cbn [fst]. rewrite (patches_bad_size n Hn H). reflexivity.
Qed.

End SizeErrorFacts.

Section SizeErrorProperties.

Import Float Symm Spec.

(** X20: the files that [clusterCoeffs] rejects.  A file without
    numbers raises the ValueError 'failed reading coefficients' and a
    file of one number the TypeError of [len], both before [clusters] is
    called and whatever the class.  With the Klems symmetry a file of two
    numbers or more other than 145 raises 'Invalid number of Klems
    coefficients' and leaves the object as it was; with the rotational
    and the curve symmetry a file of two numbers or more whose length is
    not [144 MF^2 + 1] for any [MF >= 0] raises 'Invalid number of
    Reinhart coefficients' and leaves the subdivision factor it tried
    in [_resolution], the other attributes as they were. *)
Theorem clusterCoeffs_rejected_sizes
        (sum : list float -> float)
        (newton : (R -> R) -> R -> (R -> R) -> R) :
  (forall m self,
      clusterCoeffs sum m self [] =
      (Raise (ValueError "failed reading coefficients"), self)) /\
  (forall m self x,
      clusterCoeffs sum m self [x] =
      (Raise (TypeError "len() of unsized object"), self)) /\
  (forall self coeffs,
      consistent (clusters newton Klems) self ->
      2 <= len coeffs -> len coeffs <> 145 ->
      clusterCoeffs sum (clusters newton Klems) self coeffs =
      (Raise (ValueError "Invalid number of Klems coefficients"), self)) /\
  (forall p self coeffs,
      p = ReinhartRotational \/ p = ReinhartCurve ->
      consistent (clusters newton p) self ->
      2 <= len coeffs ->
      (forall MF, 0 <= MF -> len coeffs <> 144 * MF ^ 2 + 1) ->
      clusterCoeffs sum (clusters newton p) self coeffs =
      (Raise (ValueError "Invalid number of Reinhart coefficients"),
       {| _resolution := Some (as_float (round_sqrt (len coeffs - 1) 144));
          _numCoeff := _numCoeff self; _clusters := _clusters self;
          _numCoeffs := _numCoeffs self |})).
Proof.
  split; [reflexivity|]. split; [reflexivity|]. split.
  - intros self coeffs Hc Hne Hn.
    assert (E : fst (clusters newton Klems new (len coeffs)) =
                Raise (ValueError "Invalid number of Klems coefficients")).
    { cbn [clusters]. unfold KlemsSymmetry_clusters. rewrite cached_new.
      assert (E : (len coeffs =? 145) = false) by (apply Z.eqb_neq; assumption).
      rewrite E. reflexivity. }
    rewrite (clusterCoeffs_raise newton sum Klems self coeffs _ Hc Hne E).
    rewrite <- (clusters_consistent newton Klems self (len coeffs) Hc) in E.
    rewrite (clusters_raise_state newton Klems self (len coeffs) _ E).
    reflexivity.
  - intros p self coeffs Hp Hc Hne Hn.
    assert (E : fst (clusters newton p new (len coeffs)) =
                Raise (ValueError "Invalid number of Reinhart coefficients")).
    { assert (Hn1 : 1 <= len coeffs) by lia.
      pose proof (rows_bad_size (len coeffs) Hn1 Hn) as Hr.
      destruct Hp as [-> | ->]; cbn [clusters].
      - unfold ReinhartRotSymmetry_clusters.
        rewrite cached_new, (rows_pair new), Hr. reflexivity.
      - unfold ReinhartCurveSymmetry_clusters.
        rewrite cached_new, (rows_pair new), Hr. reflexivity. }
    rewrite (clusterCoeffs_raise newton sum p self coeffs _ Hc Hne E).
    rewrite <- (clusters_consistent newton p self (len coeffs) Hc) in E.
    rewrite (clusters_raise_state newton p self (len coeffs) _ E).
    destruct Hp as [-> | ->]; reflexivity.
Qed.

Lemma clusterCoeffs_rejected_sizes_witness :
  clusterCoeffs sum_left KlemsSymmetry_clusters new [Finite 1] =
  (Raise (TypeError "len() of unsized object"), new) /\
  clusterCoeffs sum_left KlemsSymmetry_clusters new (repeat (Finite 1) 146) =
  (Raise (ValueError "Invalid number of Klems coefficients"), new) /\
  clusterCoeffs sum_left ReinhartRotSymmetry_clusters new
    (repeat (Finite 1) 146) =
  (Raise (ValueError "Invalid number of Reinhart coefficients"),
   {| _resolution := Some (as_float (Some 1)); _numCoeff := None;
      _clusters := None; _numCoeffs := None |}).
Proof.
  split; [|split].
  - apply (proj1 (proj2 (clusterCoeffs_rejected_sizes sum_left
                           (fun _ x0 _ => x0)))).
  - apply (proj1 (proj2 (proj2 (clusterCoeffs_rejected_sizes sum_left
                                  (fun _ x0 _ => x0))))).
    + apply consistent_new.
    + vm_compute. discriminate.
    + discriminate.
  - apply (proj2 (proj2 (proj2 (clusterCoeffs_rejected_sizes sum_left
                                  (fun _ x0 _ => x0))))
                 ReinhartRotational new (repeat (Finite 1) 146)).
    + now left.
    + apply consistent_new.
    + vm_compute. discriminate.
    + intros MF HM. change (len (repeat (Finite 1) 146)) with 146.
      assert (H : MF <= 1 \/ 2 <= MF) by lia.
      destruct H as [H|H]; [|nia].
      assert (H' : MF = 0 \/ MF = 1) by lia.
      destruct H' as [-> | ->]; discriminate.
Defined.

End SizeErrorProperties.
Section SolidAngleBinFacts.

Import SolidAngles Spec.
Local Open Scope R_scope.

Lemma in_rows_of (MF : Z) (f : Z -> R) (x : R) :
  In x (rows_of MF f) -> exists t, (1 <= t <= 7 * MF)%Z /\ x = f t.
Proof.
  unfold rows_of. intros H. apply in_flat_map in H.
  destruct H as [t [Ht Hx]]. apply in_range in Ht.
  apply repeat_spec in Hx. exists t. split; [lia|exact Hx].
Qed.

Lemma row_angle_range (MF t : Z) :
  (1 <= MF)%Z -> (1 <= t <= 7 * MF)%Z ->
  0 < IZR t * polar_step MF < PI / 2.
Proof.
  intros HM Ht. pose proof (polar_step_pos MF ltac:(lia)) as Hp.
  pose proof (polar_step_quarter MF ltac:(lia)) as Hq.
  assert (H1 : 1 <= IZR t) by (apply IZR_le; lia).
  assert (H2 : IZR t <= IZR (7 * MF)) by (apply IZR_le; lia).
  split; [nra|]. rewrite <- Hq. nra.
Qed.

Lemma cap_angle_range (MF : Z) :
  (1 <= MF)%Z -> 0 < polar_step MF / 2 < PI / 2.
Proof.
  intros HM. destruct (polar_step_range MF HM) as [[H1 H2] _].
  pose proof PI_RGT_0. lra.
Qed.

Lemma cos_open (x : R) : 0 < x < PI / 2 -> 0 < cos x < 1.
Proof.
  intros [H0 H1]. pose proof PI_RGT_0 as Hpi. split.
  - apply cos_gt_0; lra.
  - rewrite <- cos_0. apply cos_decreasing_1; lra.
Qed.

Lemma cap_cosOmega_half (MF : Z) :
  (1 <= MF)%Z -> cap_cosOmega MF = (1 + cos (polar_step MF / 2)) / 2.
Proof.
  intros HM. unfold cap_cosOmega, cap_dOmega.
  pose proof (cos_open _ (cap_angle_range MF HM)) as Hc.
  pose proof PI_RGT_0 as Hpi. field. lra.
Qed.

Lemma sorted_app {A : Type} (R : A -> A -> Prop) (l1 l2 : list A) :
  StronglySorted R l1 -> StronglySorted R l2 ->
  (forall x y, In x l1 -> In y l2 -> R x y) ->
  StronglySorted R (l1 ++ l2).
Proof.
  induction l1 as [|a l1 IH]; intros H1 H2 H; [exact H2|].
  cbn [app]. inversion H1 as [|? ? Hs Hf]; subst. constructor.
  - apply IH; [assumption|assumption|]. intros; apply H; [now right|assumption].
  - apply Forall_app. split; [assumption|].
    apply Forall_forall. intros y Hy. apply H; [now left|assumption].
Qed.

Lemma sorted_repeat {A : Type} (R : A -> A -> Prop) (x : A) (n : nat) :
  R x x -> StronglySorted R (repeat x n).
Proof.
  intros Hx. induction n as [|n IH]; [constructor|].
  cbn [repeat]. constructor; [exact IH|].
  apply Forall_forall. intros y Hy. apply repeat_spec in Hy. now subst.
Qed.

Lemma sorted_rev {A : Type} (R : A -> A -> Prop) (l : list A) :
  StronglySorted R l -> StronglySorted (fun x y => R y x) (rev l).
Proof.
  induction 1 as [|a l Hs IH Hf]; [constructor|].
  cbn [rev]. apply sorted_app.
  - exact IH.
  - constructor; [constructor|constructor].
  - intros x y Hx Hy. destruct Hy as [<-|[]].
    apply in_rev in Hx. rewrite Forall_forall in Hf. apply Hf. exact Hx.
Qed.

Lemma rows_of_sorted (MF : Z) (f : Z -> R) :
  (forall s t : Z, (1 <= s)%Z -> (s <= t)%Z -> (t <= 7 * MF)%Z -> f t <= f s) ->
  StronglySorted (fun x y => y <= x) (rows_of MF f).
Proof.
  intros Hf. unfold rows_of.
  assert (G : forall (n : nat) (lo : Z),
             (1 <= lo)%Z -> (lo + Z.of_nat n = 7 * MF + 1)%Z ->
             StronglySorted (fun x y => y <= x)
               (flat_map (fun t => repeat (f t) (Z.to_nat (azimuth_at MF t)))
                         (range lo (7 * MF + 1)))).
  { induction n as [|n IH]; intros lo Hlo Hn.
    - rewrite range_empty by lia. constructor.
    - rewrite range_cons by lia. cbn [flat_map]. apply sorted_app.
      + apply sorted_repeat. apply Rle_refl.
      + apply IH; lia.
      + intros x y Hx Hy. apply repeat_spec in Hx. subst x.
        apply in_flat_map in Hy. destruct Hy as [t [Ht Hy]].
        apply in_range in Ht. apply repeat_spec in Hy. subst y.
        apply Hf; lia. }
  destruct (Z_le_gt_dec 0 MF) as [HM|HM].
  - apply (G (Z.to_nat (7 * MF)) 1%Z); lia.
  - rewrite range_empty by lia. constructor.
Qed.

Lemma dOmega_entries_pos (MF : Z) (x : R) :
  (1 <= MF)%Z ->
  In x (cap_dOmega MF :: rows_of MF (row_dOmega MF)) -> 0 < x.
Proof.
  intros HM Hx.
  pose proof PI_RGT_0 as Hpi.
  pose proof (polar_step_pos MF ltac:(lia)) as Hp.
  pose proof (cos_open _ (cap_angle_range MF HM)) as Hc.
  destruct Hx as [<-|Hx].
  - unfold cap_dOmega. nra.
  - apply in_rows_of in Hx. destruct Hx as [t [Ht ->]].
    unfold row_dOmega.
    pose proof (row_angle_range MF t HM Ht) as Ha.
    assert (Hs : 0 < sin (IZR t * polar_step MF))
      by (apply sin_gt_0; lra).
    assert (Hz : 0 < IZR (azimuth_at MF t))
      by (apply IZR_lt, azimuth_at_pos; assumption).
    apply Rdiv_lt_0_compat; [|assumption].
    repeat (apply Rmult_lt_0_compat; try assumption). lra.
Qed.

Lemma cosOmega_entries_open (MF : Z) (c : R) :
  (1 <= MF)%Z ->
  In c (cap_cosOmega MF :: rows_of MF (row_cosOmega MF)) -> 0 < c < 1.
Proof.
  intros HM Hin.
  pose proof (cos_open _ (cap_angle_range MF HM)) as Hc.
  destruct Hin as [<-|Hin].
  - rewrite cap_cosOmega_half by assumption. lra.
  - apply in_rows_of in Hin. destruct Hin as [t [Ht ->]].
    unfold row_cosOmega. apply cos_open. apply row_angle_range; assumption.
Qed.

End SolidAngleBinFacts.

Section SolidAngleBinProperties.

Import SolidAngles Spec.
Local Open Scope R_scope.



(** X22: the arrays are ordered from the horizon to the zenith, as the
    comment before the final reversal says: for every [MF >= 1] the
    cosines that [reinhartSolidAngles] returns never decrease along the
    array, the cosine of the polar cap is the largest, and it is
    [(1 + cos(theta1)) / 2] for the polar angle [theta1] of the cap. *)
Theorem reinhartSolidAngles_ordered (MF : Z) :
  (1 <= MF)%Z ->
  exists dOmega cosOmega,
    reinhartSolidAngles MF = Ok (dOmega, cosOmega) /\
    StronglySorted Rle cosOmega /\
    last cosOmega 0 = (1 + cos (polar_step MF / 2)) / 2.
Proof.
  intros HM. rewrite reinhartSolidAngles_closed by assumption.
  do 2 eexists. split; [reflexivity|]. split.
  - apply (sorted_rev (fun x y => y <= x)). constructor.
    + apply rows_of_sorted. intros s t Hs Hst Ht. unfold row_cosOmega.
      pose proof (row_angle_range MF s HM ltac:(lia)) as Rs.
      pose proof (row_angle_range MF t HM ltac:(lia)) as Rt.
      pose proof (polar_step_pos MF ltac:(lia)) as Hp.
      assert (Hle : IZR s <= IZR t) by (apply IZR_le; assumption).
      apply cos_decr_1; nra.
    + apply Forall_forall. intros x Hx.
      apply in_rows_of in Hx. destruct Hx as [t [Ht ->]].
      rewrite cap_cosOmega_half by assumption. unfold row_cosOmega.
      pose proof (row_angle_range MF t HM Ht) as Rt.
      pose proof (cap_angle_range MF HM) as Rc.
      pose proof (polar_step_pos MF ltac:(lia)) as Hp.
      assert (H1 : 1 <= IZR t) by (apply IZR_le; lia).
      assert (Hd : cos (IZR t * polar_step MF) <= cos (polar_step MF / 2))
        by (apply cos_decr_1; nra).
      pose proof (cos_open _ Rc). lra.
  - cbn [rev]. rewrite last_last. apply cap_cosOmega_half. assumption.
Qed.

Lemma reinhartSolidAngles_ordered_witness :
  exists dOmega cosOmega,
    reinhartSolidAngles 4 = Ok (dOmega, cosOmega) /\
    StronglySorted Rle cosOmega /\
    last cosOmega 0 = (1 + cos (polar_step 4 / 2)) / 2.
Proof. apply reinhartSolidAngles_ordered. lia. Defined.

End SolidAngleBinProperties.

Section SolidAngleDomainFacts.

Import SolidAngles Spec.
Local Open Scope R_scope.

Lemma reinhartSolidAngles_zero :
  reinhartSolidAngles 0 = Ok ([2 * PI], [1 / 2]).
Proof.
  unfold reinhartSolidAngles, linspace.
  change (2 * 0 * 7 + 2 <? 0)%Z with false. cbn [bind]. cbv zeta.
  rewrite (polarAngles_closed 0) by lia.
  pose proof (polarAngM_closed 0 ltac:(lia)) as EM. cbv zeta in EM.
  rewrite EM. cbn [bind].
  change (range 1 (7 * 0 + 2)) with [1%Z]. cbn [map].
  change (getitem [0; ?x] 1) with (Ok x). cbn [bind].
  change (zeros (0 ^ 2 * 144 + 1)) with [0].
  change (setitem [0] 0 ?x) with (Ok [x]). cbn [bind].
  change (getitem [?x] 0) with (Ok x). cbn [bind].
  change (len [0; ?x] - 1)%Z with 1%Z.
  change (range 1 1) with (@nil Z). cbn [for_each bind].
  change (setitem_from1 [?x] []) with (Ok [x]). cbn [bind rev app].
  assert (Ea : IZR (2 * 1 - 1) * (polar_step 0 / 2) = PI / 2).
  { unfold polar_step. simpl. field. }
  rewrite Ea, cos_PI2. pose proof PI_RGT_0.
  replace (2 * PI * (1 - 0)) with (2 * PI) by lra.
  replace (PI * (1 - 0 ^ 2) / (2 * PI)) with (1 / 2) by (field; lra).
  reflexivity.
Qed.

End SolidAngleDomainFacts.

Section SolidAngleDomainProperties.

Import SolidAngles Spec.
Local Open Scope R_scope.

(** X23: [reinhartSolidAngles] accepts every subdivision factor from 0
    on and no negative one.  For [MF >= 0] it returns two arrays of
    [144 MF^2 + 1] entries; for [MF = 0] these are the single bin of the
    whole hemisphere, of solid angle [2 pi] and cosine [1/2]; for
    [MF < 0] the call of [linspace] raises a ValueError. *)
Theorem reinhartSolidAngles_domain (MF : Z) :
  ((0 <= MF)%Z ->
   exists dOmega cosOmega,
     reinhartSolidAngles MF = Ok (dOmega, cosOmega) /\
     len dOmega = (144 * MF ^ 2 + 1)%Z /\ len cosOmega = (144 * MF ^ 2 + 1)%Z) /\
  ((MF < 0)%Z ->
   reinhartSolidAngles MF =
   Raise (ValueError "Number of samples must be non-negative")) /\
  reinhartSolidAngles 0 = Ok ([2 * PI], [1 / 2]).
Proof.
  split; [|split].
  - intros HM. destruct (Z.eq_dec MF 0) as [->|Hne].
    + rewrite reinhartSolidAngles_zero. do 2 eexists.
      split; [reflexivity|]. split; reflexivity.
    + rewrite reinhartSolidAngles_closed by lia. do 2 eexists.
      split; [reflexivity|].
      unfold len. rewrite !length_rev. cbn [length].
      rewrite !rows_of_length by lia. split; lia.
  - intros HM. unfold reinhartSolidAngles, linspace.
    assert (E : (2 * MF * 7 + 2 <? 0)%Z = true) by lia.
    rewrite E. reflexivity.
  - exact reinhartSolidAngles_zero.
Qed.

Lemma reinhartSolidAngles_domain_witness :
  (exists dOmega cosOmega,
      reinhartSolidAngles 4 = Ok (dOmega, cosOmega) /\
      len dOmega = (144 * 4 ^ 2 + 1)%Z /\ len cosOmega = (144 * 4 ^ 2 + 1)%Z) /\
  reinhartSolidAngles (-1) =
  Raise (ValueError "Number of samples must be non-negative").
Proof.
  split.
  - apply (proj1 (reinhartSolidAngles_domain 4)). lia.
  - apply (proj1 (proj2 (reinhartSolidAngles_domain (-1)))). lia.
Defined.

End SolidAngleDomainProperties.

Section ShellFacts.

Import Shell.

Variable system : list event -> string -> Z.

Lemma executed_app (l1 l2 : list event) :
  executed (l1 ++ l2) = executed l1 ++ executed l2.
Proof. unfold executed. apply flat_map_app. Qed.

Lemma printed_app (l1 l2 : list event) :
  printed (l1 ++ l2) = printed l1 ++ printed l2.
Proof. unfold printed. apply flat_map_app. Qed.

(** The loop of a dry run: nothing is executed, every command is
    printed. *)
Lemma dry_loop (echo pipe : bool) (cs : list string) (log : list event)
      (ret : option value) :
  let '(log', ret') := fold_left (step system echo true pipe) cs (log, ret) in
  executed log' = executed log /\
  printed log' = printed log ++ cs /\
  ret' = match cs with
         | [] => ret
         | _ :: _ => Some (if pipe then File "/dev/null" else Status 0)
         end.
Proof.
  revert log ret. induction cs as [|c cs IH]; intros log ret.
  - cbn [fold_left]. rewrite app_nil_r. auto.
  - cbn [fold_left]. unfold step at 2. rewrite orb_true_r. cbn [negb].
    destruct pipe.
    + specialize (IH ((log ++ [Echo c]) ++ [Open "/dev/null"])
                     (Some (File "/dev/null"))).
      destruct (fold_left _ cs _) as [log' ret'].
      destruct IH as [He [Hp Hr]].
      rewrite !executed_app in He. rewrite !printed_app in Hp.
      cbn in He, Hp. rewrite !app_nil_r in He. rewrite app_nil_r in Hp.
      split; [exact He|]. split; [rewrite Hp, <- app_assoc; reflexivity|].
      rewrite Hr. destruct cs; reflexivity.
    + specialize (IH (log ++ [Echo c]) (Some (Status 0))).
      destruct (fold_left _ cs _) as [log' ret'].
      destruct IH as [He [Hp Hr]].
      rewrite !executed_app in He. rewrite !printed_app in Hp.
      cbn in He, Hp. rewrite !app_nil_r in He.
      split; [exact He|]. split; [rewrite Hp, <- app_assoc; reflexivity|].
      rewrite Hr. destruct cs; reflexivity.
Qed.

(** The loop of a real run without a pipe. *)
Lemma run_loop (echo : bool) (cs : list string) (log : list event)
      (ret : option value) :
  let '(log', ret') := fold_left (step system echo false false) cs (log, ret) in
  executed log' = executed log ++ cs /\
  printed log' = printed log ++ (if echo then cs else []) /\
  match cs with
  | [] => ret' = ret
  | _ :: _ => exists before, ret' = Some (Status (system before (last cs EmptyString)))
  end.
Proof.
  revert log ret. induction cs as [|c cs IH]; intros log ret.
  - cbn [fold_left]. rewrite !app_nil_r. destruct echo; rewrite ?app_nil_r; auto.
  - cbn [fold_left]. unfold step at 2. rewrite orb_false_r. cbn [negb].
    set (log1 := if echo then log ++ [Echo c] else log).
    specialize (IH (log1 ++ [System c]) (Some (Status (system log1 c)))).
    destruct (fold_left _ cs _) as [log' ret'].
    destruct IH as [He [Hp Hr]].
    rewrite executed_app in He. rewrite printed_app in Hp.
    assert (E1 : executed log1 = executed log).
    { unfold log1. destruct echo; [|reflexivity].
      rewrite executed_app. cbn. now rewrite app_nil_r. }
    assert (P1 : printed log1 = printed log ++ (if echo then [c] else [])).
    { unfold log1. destruct echo; [|now rewrite app_nil_r].
      now rewrite printed_app. }
    rewrite E1 in He. rewrite P1 in Hp. cbn in He, Hp.
    rewrite app_nil_r in Hp.
    split; [rewrite He, <- app_assoc; reflexivity|]. split.
    + rewrite Hp, <- app_assoc. destruct echo; reflexivity.
    + destruct cs as [|c' cs].
      * exists log1. rewrite Hr. reflexivity.
      * destruct Hr as [before Hr]. exists before. rewrite Hr. reflexivity.
Qed.

End ShellFacts.

Section ShellProperties.

Import Shell.

(** X24: a dry run of [doItBabee] ([dummy = True]) hands no command to
    the shell, whatever [echo] and [pipe] are, and prints every command
    that a real run would execute: the commands one by one, or their
    concatenation with [' |\n'] for a pipe; it returns the exit status 0,
    or the file object of [/dev/null] for a pipe. *)
Theorem doItBabee_dry_run
        (system : list event -> string -> Z)
        (commands : list string) (echo pipe : bool) :
  let '(log, out) := doItBabee system commands echo true pipe in
  executed log = [] /\
  printed log = (if pipe then [join pipe_separator commands] else commands) /\
  (pipe = true -> out = Return (File "/dev/null")) /\
  (pipe = false -> commands <> [] -> out = Return (Status 0)).
Proof.
  unfold doItBabee.
  pose proof (dry_loop system echo pipe
                (if pipe then [join pipe_separator commands] else commands)
                [] None) as H.
  destruct (fold_left _ _ _) as [log ret].
  destruct H as [He [Hp Hr]]. cbn in He, Hp.
  split; [exact He|]. split; [exact Hp|]. split.
  - intros ->. rewrite Hr. reflexivity.
  - intros -> Hne. rewrite Hr. destruct commands; [contradiction|reflexivity].
Qed.

(** X25: a real run of [doItBabee] without a pipe runs the commands with
    [os.system] once each, in the order given, prints them first when
    [echo] is set, and returns the exit status of the last one; with a
    pipe it starts the one concatenated command.  The call fails, with
    [ret] unbound, exactly when it is given no command and no pipe is
    asked for, dry run or not. *)
Theorem doItBabee_runs
        (system : list event -> string -> Z)
        (commands : list string) (echo : bool) :
  (let '(log, out) := doItBabee system commands echo false false in
   executed log = commands /\
   printed log = (if echo then commands else []) /\
   (commands <> [] ->
    exists before,
      out = Return (Status (system before (last commands EmptyString))))) /\
  (let '(log, out) := doItBabee system commands echo false true in
   executed log = [join pipe_separator commands] /\
   out = Return (Pipe (join pipe_separator commands))) /\
  (forall dummy pipe,
      snd (doItBabee system commands echo dummy pipe) = UnboundLocalError <->
      pipe = false /\ commands = []).
Proof.
  split; [|split].
  - unfold doItBabee.
    pose proof (run_loop system echo commands [] None) as H.
    destruct (fold_left _ _ _) as [log ret].
    destruct H as [He [Hp Hr]]. cbn in He, Hp.
    split; [exact He|]. split; [exact Hp|].
    intros Hne. destruct commands as [|c cs]; [contradiction|].
    destruct Hr as [before ->]. eauto.
  - unfold doItBabee. cbn [fold_left]. unfold step. cbn [negb].
    destruct echo; cbn; auto.
  - intros dummy pipe. unfold doItBabee. destruct pipe.
    + cbn [fold_left]. unfold step.
      destruct (echo || dummy), (negb dummy); cbn;
        split; try discriminate; intros [? _]; discriminate.
    + destruct dummy.
      * pose proof (dry_loop system echo false commands [] None) as H.
        destruct (fold_left _ _ _) as [log ret].
        destruct H as [_ [_ ->]]. cbn [snd].
        destruct commands; split; try discriminate; auto.
        intros [_ ?]. discriminate.
      * pose proof (run_loop system echo commands [] None) as H.
        destruct (fold_left _ _ _) as [log ret].
        destruct H as [_ [_ Hr]]. cbn [snd].
        destruct commands as [|c cs].
        -- subst ret. split; auto.
        -- destruct Hr as [before ->]. split; [discriminate|].
           intros [_ ?]. discriminate.
Qed.

End ShellProperties.

Section SimulateFacts.

Import SolidAngles Spec Numpy Simulate.
Local Open Scope R_scope.

Lemma sum_pos (l : list R) :
  l <> [] -> (forall x, In x l -> 0 < x) -> 0 < sum l.
Proof.
  induction l as [|x l IH]; intros Hne H; [contradiction|].
  rewrite sum_cons. assert (0 < x) by (apply H; now left).
  destruct l as [|y l]; [rewrite sum_nil; lra|].
  assert (0 < sum (y :: l)).
  { apply IH; [discriminate|]. intros; apply H; now right. }
  lra.
Qed.

Lemma mul_cons (x y : R) (a b : list R) : mul (x :: a) (y :: b) = x * y :: mul a b.
Proof. reflexivity. Qed.

Lemma mul_length (a b : list R) :
  length a = length b -> length (mul a b) = length a.
Proof.
  intros H. unfold mul. rewrite length_map, length_combine. lia.
Qed.

Lemma mul_nth (a b : list R) (i : nat) :
  length a = length b -> nth i (mul a b) 0 = nth i a 0 * nth i b 0.
Proof.
  revert b i. induction a as [|x a IH]; intros [|y b] i H; try discriminate.
  - destruct i; simpl; ring.
  - rewrite mul_cons. destruct i as [|i]; [reflexivity|].
    cbn [nth]. apply IH. simpl in H. lia.
Qed.

(** The solid angles cancel: dividing by [dOmega / S] and multiplying by
    [dOmega] again leaves the factor [S]. *)
Lemma weights_cancel (S : R) (rc d c : list R) :
  S <> 0 -> (forall x, In x d -> x <> 0) ->
  length rc = length d -> length d = length c ->
  mul (mul (map (fun '(x, w) => x / w)
                (combine rc (map (fun d => d / S) d))) d) c =
  map (fun p => p * S) (mul rc c).
Proof.
  intros HS. revert d c. induction rc as [|x rc IH];
    intros [|y d] [|z c] Hd H1 H2; try discriminate; [reflexivity|].
  cbn [map combine]. rewrite !mul_cons. cbn [map]. f_equal.
  - assert (y <> 0) by (apply Hd; now left). field. split; assumption.
  - apply IH; [intros; apply Hd; now right|simpl in *; lia|simpl in *; lia].
Qed.

Lemma sum_mul_pos (rc c : list R) :
  length rc = length c ->
  (forall x, In x rc -> 0 <= x) -> (exists x, In x rc /\ x <> 0) ->
  (forall x, In x c -> 0 < x) ->
  0 < sum (mul rc c).
Proof.
  revert c. induction rc as [|x rc IH]; intros [|y c] Hl Hp [z [Hz Hnz]] Hc;
    try discriminate; [contradiction|].
  rewrite mul_cons, sum_cons.
  assert (Hx : 0 <= x) by (apply Hp; now left).
  assert (Hy : 0 < y) by (apply Hc; now left).
  assert (Hrest : 0 <= sum (mul rc c)).
  { clear IH Hz Hnz z. simpl in Hl.
    assert (Hp' : forall x, In x rc -> 0 <= x) by (intros; apply Hp; now right).
    assert (Hc' : forall x, In x c -> 0 < x) by (intros; apply Hc; now right).
    clear Hp Hc Hx Hy. revert c Hl Hc'.
    induction rc as [|a rc IH]; intros [|b c] Hl Hc'; try discriminate.
    - unfold mul. cbn [combine map]. rewrite sum_nil. lra.
    - rewrite mul_cons, sum_cons.
      assert (0 <= a) by (apply Hp'; now left).
      assert (0 < b) by (apply Hc'; now left).
      assert (0 <= sum (mul rc c)).
      { apply IH; [intros; apply Hp'; now right|simpl in Hl; lia|
                   intros; apply Hc'; now right]. }
      nra. }
  destruct Hz as [->|Hz].
  - assert (0 < z * y) by (apply Rmult_lt_0_compat; lra). lra.
  - assert (0 < sum (mul rc c)).
    { apply IH; [simpl in Hl; lia|intros; apply Hp; now right|eauto|
                 intros; apply Hc; now right]. }
    nra.
Qed.

Lemma any_true (a : list R) : (exists x, In x a /\ x <> 0) -> any a = true.
Proof.
  intros [x [Hx Hn]]. unfold any. apply existsb_exists.
  exists x. split; [exact Hx|]. destruct (Req_dec_T x 0); [contradiction|reflexivity].
Qed.

Lemma solid_angles_4 :
  exists dOmega cosOmega,
    reinhartSolidAngles 4 = Ok (dOmega, cosOmega) /\
    length dOmega = 2305%nat /\ length cosOmega = 2305%nat /\
    (forall x, In x dOmega -> 0 < x) /\
    (forall c, In c cosOmega -> 0 < c < 1).
Proof.
  rewrite reinhartSolidAngles_closed by lia. do 2 eexists.
  split; [reflexivity|].
  rewrite !length_rev. cbn [length]. rewrite !rows_of_length by lia.
  split; [reflexivity|]. split; [reflexivity|]. split.
  - intros x Hx. apply in_rev in Hx. apply (dOmega_entries_pos 4); [lia|exact Hx].
  - intros c Hc. apply in_rev in Hc.
    apply (cosOmega_entries_open 4); [lia|exact Hc].
Qed.

End SimulateFacts.

Section SimulateProperties.

Import SolidAngles Spec Numpy Simulate.
Local Open Scope R_scope.

(** X26: the coefficients that the simulation writes do not depend on the
    solid angles.  For 2305 radiance contributions that are non-negative
    and not all zero, [getCoeffs] of gdivsim-reinhart.py raises nothing,
    the irradiance is positive, and coefficient [i] is the contribution
    of bin [i] times the cosine of the bin, divided by the sum of these
    products over all bins; the coefficients are non-negative numbers
    that sum to 1. *)
Theorem simulated_coefficients (radContrib : list R) :
  length radContrib = 2305%nat ->
  (forall x, In x radContrib -> 0 <= x) ->
  (exists x, In x radContrib /\ x <> 0) ->
  exists dOmega cosOmega normalised irrad w,
    reinhartSolidAngles MF = Ok (dOmega, cosOmega) /\
    getCoeffs radContrib = Done (normalised, irrad, map Number w) /\
    0 < irrad /\
    length w = 2305%nat /\
    (forall i, (i < 2305)%nat ->
       nth i w 0 =
       nth i radContrib 0 * nth i cosOmega 0 / sum (mul radContrib cosOmega) /\
       0 <= nth i w 0) /\
    sum w = 1.
Proof.
  intros Hl Hp Hnz.
  destruct solid_angles_4 as [d [c [E [Ld [Lc [Hd Hc]]]]]].
  assert (HS : 0 < sum d).
  { apply sum_pos; [|exact Hd]. intros ->. discriminate. }
  assert (HP : 0 < sum (mul radContrib c)).
  { apply sum_mul_pos; try assumption; [lia|]. intros x Hx. apply Hc, Hx. }
  set (P := sum (mul radContrib c)) in *.
  exists d, c.
  exists (map (fun '(x, w) => x / w)
              (combine radContrib (map (fun d0 => d0 / sum d) d))).
  exists (P * sum d). exists (map (fun p => p / P) (mul radContrib c)).
  split; [exact E|].
  assert (Ew : mul (mul (map (fun '(x, w) => x / w)
                             (combine radContrib (map (fun d0 => d0 / sum d) d))) d) c =
               map (fun p => p * sum d) (mul radContrib c)).
  { apply weights_cancel; [lra| |lia|lia].
    intros x Hx. apply Hd in Hx. lra. }
  assert (Ei : sum (map (fun p => p * sum d) (mul radContrib c)) = P * sum d).
  { rewrite (sum_map_scale (sum d) (fun p => p)), map_id. reflexivity. }
  split; [|split; [|split; [|split]]].
  - unfold getCoeffs. rewrite (any_true radContrib Hnz). cbn [negb].
    change MF with 4%Z. rewrite E.
    assert (El : (len radContrib =? len (map (fun d0 => (d0 / sum d)%R) d))%Z = true).
    { apply Z.eqb_eq. unfold len. rewrite length_map. lia. }
    rewrite El. cbn [negb]. cbv zeta. rewrite Ew, Ei.
    f_equal. f_equal. rewrite !map_map. apply map_ext. intros p.
    unfold divide. destruct (Req_dec_T (P * sum d) 0) as [Hz|_]; [nra|].
    f_equal. field. split; lra.
  - nra.
  - rewrite length_map, mul_length; lia.
  - intros i Hi.
    set (f := fun p => p / P).
    rewrite (nth_indep (map f _) 0 (f 0))
      by (rewrite length_map, mul_length; lia).
    rewrite (map_nth f), mul_nth by lia. unfold f. split; [reflexivity|].
    assert (0 <= nth i radContrib 0) by (apply Hp, nth_In; lia).
    assert (0 < nth i c 0) by (apply Hc, nth_In; lia).
    apply Rmult_le_pos; [nra|]. left. apply Rinv_0_lt_compat. exact HP.
  - unfold Rdiv. rewrite (sum_map_scale (/ P) (fun p => p)), map_id.
    fold P. field. lra.
Qed.

Lemma simulated_coefficients_witness :
  exists dOmega cosOmega normalised irrad w,
    reinhartSolidAngles MF = Ok (dOmega, cosOmega) /\
    getCoeffs (repeat 1 2305) = Done (normalised, irrad, map Number w) /\
    0 < irrad /\
    length w = 2305%nat /\
    (forall i, (i < 2305)%nat ->
       nth i w 0 =
       nth i (repeat 1 2305) 0 * nth i cosOmega 0 /
       sum (mul (repeat 1 2305) cosOmega) /\
       0 <= nth i w 0) /\
    sum w = 1.
Proof.
  apply simulated_coefficients.
  - apply repeat_length.
  - intros x Hx. apply repeat_spec in Hx. subst x. lra.
  - exists 1. split; [now left|lra].
Defined.

End SimulateProperties.
Section ClusterFacts.

Import Float Symm Spec Cluster.

Variable newton : (R -> R) -> R -> (R -> R) -> R.

Lemma clusterCoeffs_state (sum : list float -> float) (m : method)
      (self : SymmetryBase) (coeffs : list float) :
  2 <= len coeffs ->
  snd (clusterCoeffs sum m self coeffs) = snd (m self (len coeffs)).
Proof.
  intros Hn. unfold clusterCoeffs. rewrite (loadtxt_array _ Hn).
  assert (E0 : (len coeffs =? 0) = false) by lia.
  rewrite E0. destruct (m self (len coeffs)) as [[cl|e] s]; [|reflexivity].
  cbv zeta. destruct (for_each _ _ _); reflexivity.
Qed.

(** What [clusterCoeffs] returns or raises does not depend on what the
    object has been asked before. *)
Lemma clusterCoeffs_consistent (sum : list float -> float) (p : policy)
      (self : SymmetryBase) (coeffs : list float) :
  consistent (clusters newton p) self ->
  fst (clusterCoeffs sum (clusters newton p) self coeffs) =
  fst (clusterCoeffs sum (clusters newton p) new coeffs).
Proof.
  intros Hc.
  destruct (loadtxt_cases coeffs) as [[-> _]|[[x [-> _]]|[Hn El]]];
    try reflexivity.
  pose proof (clusters_consistent newton p self (len coeffs) Hc) as E.
  destruct (clusters newton p self (len coeffs)) as [r s] eqn:E1.
  destruct (clusters newton p new (len coeffs)) as [r' s'] eqn:E2.
  cbn [fst] in E. subst r'. destruct r as [cl|e].
  - rewrite (clusterCoeffs_accumulate sum _ self s coeffs cl Hn E1).
    rewrite (clusterCoeffs_accumulate sum _ new s' coeffs cl Hn E2).
    destruct (for_each _ _ _); reflexivity.
  - unfold clusterCoeffs. rewrite El.
    destruct (len coeffs =? 0); [reflexivity|]. rewrite E1, E2. reflexivity.
Qed.

(** The full resolution symmetry clusters every file of two numbers or
    more, into 80 entries. *)
Lemma FullRes_clusterCoeffs (sum : list float -> float) (coeffs : list float) :
  2 <= len coeffs ->
  exists v, fst (clusterCoeffs sum (symm newton) new coeffs) = Ok v /\
            len v = 80.
Proof.
  intros Hn.
  destruct (clusters_new_partition newton FullResolution (len coeffs)
                                   (len_nonneg coeffs)) as [cl [E P]].
  pose proof (clusters_count newton FullResolution (len coeffs) cl E) as [_ Hc].
  destruct (clusters newton FullResolution new (len coeffs)) as [r s] eqn:Em.
  cbn [fst] in E. subst r.
  pose proof (clusterCoeffs_run sum _ new s coeffs cl Hn Em P) as Er.
  eexists. split.
  - unfold symm. change (FullResSymmetry_clusters newton)
      with (clusters newton FullResolution).
    rewrite Er. reflexivity.
  - unfold len, member_sums in *. rewrite !length_map. lia.
Qed.

End ClusterFacts.

Section ClusterProperties.

Import Float Symm Spec Cluster.



End ClusterProperties.
Section MeasureFacts.

Import Fisheye Numpy Measure Spec.
Local Open Scope R_scope.

Lemma bins_of_app (rad : Z) (l1 l2 : list record) (bins : list R * list R) :
  bins_of rad (l1 ++ l2) bins =
  match bins_of rad l1 bins with
  | Failed f => Failed f
  | Done bins => bins_of rad l2 bins
  end.
Proof.
  revert bins. induction l1 as [|r l1 IH]; intros bins; [reflexivity|].
  cbn [app bins_of]. destruct (bin rad r bins); [apply IH|reflexivity].
Qed.

(** A pixel with a negative index leaves the bins alone. *)
Lemma bin_skip (rad x y : Z) (c : R) (bins : list R * list R) :
  (pix2Idx (x, y) rad < 0)%Z -> bin rad (x, y, c) bins = Done bins.
Proof.
  intros H. unfold bin. destruct bins as [rc om].
  assert (E : (0 <=? pix2Idx (x, y) rad)%Z = false) by lia.
  rewrite E. reflexivity.
Qed.

End MeasureFacts.

Section MeasureFacts2.

Import Fisheye Numpy Measure Spec.
Local Open Scope R_scope.

Lemma update_update {A : Type} (a : list A) (n : nat) (x y : A) :
  update (update a n x) n y = update a n y.
Proof.
  revert n. induction a as [|h t IH]; intros [|n]; cbn [update];
    try reflexivity.
  now rewrite IH.
Qed.

Lemma bin_length (rad : Z) (rec : record) (rc om rc' om' : list R) :
  bin rad rec (rc, om) = Done (rc', om') ->
  length rc' = length rc /\ length om' = length om.
Proof.
  unfold bin. destruct rec as [[x y] c].
  destruct (0 <=? pix2Idx (x, y) rad)%Z.
  - destruct (setitem rc (pix2Idx (x, y) rad) c) as [rc1|e] eqn:E1; [|discriminate].
    destruct (vwRay _) as [[Dx Dy] Dz].
    destruct (Rlt_dec Dz 0); [discriminate|].
    destruct (pixOmega (x, y) rad) as [w|f]; [|discriminate].
    destruct (setitem om (pix2Idx (x, y) rad) (w * Dz)) as [om1|e] eqn:E2;
      [|discriminate].
    intros H. injection H as <- <-.
    unfold setitem in E1, E2.
    destruct (_ || _)%bool in E1; [discriminate|].
    destruct (_ || _)%bool in E2; [discriminate|].
    injection E1 as <-. injection E2 as <-.
    now rewrite !update_length.
  - intros H. injection H as <- <-. auto.
Qed.

Lemma bins_of_length (rad : Z) (l : list record) (rc om rc' om' : list R) :
  bins_of rad l (rc, om) = Done (rc', om') ->
  length rc' = length rc /\ length om' = length om.
Proof.
  revert rc om. induction l as [|r l IH]; intros rc om H.
  - cbn [bins_of] in H. injection H as <- <-. auto.
  - cbn [bins_of] in H.
    destruct (bin rad r (rc, om)) as [[rc1 om1]|f] eqn:E; [|discriminate].
    apply bin_length in E. apply IH in H. destruct E, H. split; congruence.
Qed.

(** A pixel of index 0 in arrays that have a bin 0: the write to bin 0
    is all that happens, and what is written for the solid angle does not
    depend on the arrays. *)
Lemma bin_zero (rad x y : Z) :
  (0 < rad)%Z -> pix2Idx (x, y) rad = 0%Z ->
  exists w, forall (c : R) (rc om : list R),
    (0 < length rc)%nat -> (0 < length om)%nat ->
    bin rad (x, y, c) (rc, om) = Done (update rc 0 c, update om 0 w).
Proof.
  intros Hr Hi.
  pose proof (inside_Dz_pos x y rad Hr
                (pix2Idx_accepts x y rad ltac:(lia))) as Hz.
  assert (Hw : exists w, pixOmega (x, y) rad = Done w).
  { unfold pixOmega.
    assert (E : (2 * rad =? 0)%Z = false) by lia. rewrite E.
    cbv zeta. destruct (existsb _ _); eauto. }
  destruct Hw as [w Hw].
  exists (w * snd (vwRay (0.5 * IZR x / IZR rad, 0.5 * IZR y / IZR rad))).
  intros c rc om Hrc Hom. unfold bin. rewrite Hi, Hw.
  change (0 <=? 0)%Z with true. cbv iota.
  change (setitem rc 0 c) with (setitem rc (Z.of_nat 0) c).
  rewrite (setitem_nat rc 0) by lia.
  destruct (vwRay (0.5 * IZR x / IZR rad, 0.5 * IZR y / IZR rad))
    as [[Dx Dy] Dz]. cbn [snd] in Hz |- *.
  destruct (Rlt_dec Dz 0) as [Hc|_]; [lra|].
  change (setitem om 0 (w * Dz)) with (setitem om (Z.of_nat 0) (w * Dz)).
  rewrite (setitem_nat om 0) by lia. reflexivity.
Qed.

Lemma int_ge_1 (x : R) : 1 <= x -> (1 <= int x)%Z.
Proof.
  intros Hx. unfold int. destruct (Rle_dec 0 x) as [_|n]; [|lra].
  destruct (base_Int_part x) as [H1 H2].
  assert (0 < IZR (Int_part x)) by lra.
  apply lt_IZR in H. lia.
Qed.

Lemma numIdx_pos (rad : Z) :
  (1 <= rad)%Z -> (1 <= int (PI * IZR (rad ^ 2) + 0.5))%Z.
Proof.
  intros Hr. apply int_ge_1. pose proof PI_lower as Hpi.
  assert (H : 1 <= IZR (rad ^ 2)) by (apply IZR_le; nia).
  nra.
Qed.

End MeasureFacts2.

Section MeasureProperties.

Import Fisheye Numpy Measure Spec.
Local Open Scope R_scope.

(** X28: pixels that [getCoeffs] ignores.  A line of [pvalue] whose pixel
    gets a negative index from [pix2Idx] changes nothing in what
    [getCoeffs] writes or raises, wherever it stands among the lines;
    for every image radius from 9 on this is the case of the pixel
    [(rad - 4, 2 rad - 1)], which lies inside the image circle; and for
    an image radius of 0, as in a dry run, every line is ignored and
    nothing is written. *)
Theorem getCoeffs_ignored_pixels (resolution : option (Z * Z)) :
  let rad := image_radius resolution in
  (forall before after x y c,
      (pix2Idx (x, y) rad < 0)%Z ->
      getCoeffs resolution (before ++ (x, y, c) :: after) =
      getCoeffs resolution (before ++ after)) /\
  ((9 <= rad)%Z ->
   ((rad - 4 - rad) ^ 2 + (2 * rad - 1 - rad) ^ 2 < rad ^ 2)%Z /\
   forall before after c,
     getCoeffs resolution (before ++ ((rad - 4)%Z, (2 * rad - 1)%Z, c) :: after) =
     getCoeffs resolution (before ++ after)) /\
  (rad = 0%Z -> forall records, getCoeffs resolution records = Done None).
Proof.
  intros rad.
  assert (skip : forall before after x y c,
             (pix2Idx (x, y) rad < 0)%Z ->
             getCoeffs resolution (before ++ (x, y, c) :: after) =
             getCoeffs resolution (before ++ after)).
  { intros before after x y c Hneg. unfold getCoeffs. fold rad. cbv zeta.
    rewrite !bins_of_app.
    destruct (bins_of rad before _) as [bins|f]; [|reflexivity].
    cbn [bins_of]. rewrite bin_skip by assumption. reflexivity. }
  split; [exact skip|]. split.
  - intros Hr. split; [nia|]. intros before after c. apply skip.
    rewrite pix2Idx_second_row by nia.
    replace (rad - 4 - rad)%Z with (-4)%Z by lia.
    rewrite (int_offset (-4)). reflexivity.
  - intros E records. unfold getCoeffs. fold rad. rewrite E. cbv zeta.
    assert (Hn : int (PI * IZR (0 ^ 2) + 0.5) = 0%Z).
    { apply int_nonneg_spec; simpl; lra. }
    rewrite Hn. cbn [Z.to_nat repeat].
    assert (Hb : bins_of 0 records ([], []) = Done ([], [])).
    { induction records as [|[[x y] c] l IH]; [reflexivity|].
      cbn [bins_of]. rewrite bin_skip; [exact IH|].
      rewrite pix2Idx_outside by nia. lia. }
    rewrite Hb. reflexivity.
Qed.

Lemma getCoeffs_ignored_pixels_witness :
  getCoeffs (Some (18, 18)%Z) [((5, 17)%Z, 1)] = getCoeffs (Some (18, 18)%Z) [] /\
  getCoeffs None [((5, 17)%Z, 1)] = Done None.
Proof.
  assert (E : image_radius (Some (18, 18)%Z) = 9%Z).
  { unfold image_radius. change (Z.min 18 18) with 18%Z.
    apply int_nonneg_spec; lra. }
  split.
  - pose proof (proj2 (proj1 (proj2 (getCoeffs_ignored_pixels (Some (18, 18)%Z)))
                             ltac:(rewrite E; lia)) [] [] 1) as H.
    rewrite E in H. exact H.
  - apply (proj2 (proj2 (getCoeffs_ignored_pixels None))). reflexivity.
Defined.

(** X29: a later pixel overwrites an earlier one that has the same
    index.  For every image radius from 3 on the neighbouring pixels
    [(rad - 2, 2 rad - 1)] and [(rad - 1, 2 rad - 1)] lie inside the image
    circle and share the bin 0: when their lines follow each other, the
    radiance contribution of the first has no effect on what [getCoeffs]
    writes or raises. *)
Theorem getCoeffs_overwrites (resolution : option (Z * Z))
        (before after : list record) (c1 c2 : R) :
  let rad := image_radius resolution in
  (3 <= rad)%Z ->
  ((rad - 2 - rad) ^ 2 + (2 * rad - 1 - rad) ^ 2 < rad ^ 2)%Z /\
  ((rad - 1 - rad) ^ 2 + (2 * rad - 1 - rad) ^ 2 < rad ^ 2)%Z /\
  getCoeffs resolution
    (before ++ ((rad - 2)%Z, (2 * rad - 1)%Z, c1) ::
               ((rad - 1)%Z, (2 * rad - 1)%Z, c2) :: after) =
  getCoeffs resolution
    (before ++ ((rad - 1)%Z, (2 * rad - 1)%Z, c2) :: after).
Proof.
  intros rad Hr. split; [nia|]. split; [nia|].
  assert (Ep : pix2Idx ((rad - 2)%Z, (2 * rad - 1)%Z) rad = 0%Z).
  { rewrite pix2Idx_second_row by nia.
    replace (rad - 2 - rad)%Z with (-2)%Z by lia. apply (int_offset (-2)). }
  assert (Eq : pix2Idx ((rad - 1)%Z, (2 * rad - 1)%Z) rad = 0%Z).
  { rewrite pix2Idx_second_row by nia.
    replace (rad - 1 - rad)%Z with (-1)%Z by lia. apply (int_offset (-1)). }
  destruct (bin_zero rad _ _ ltac:(lia) Ep) as [wp Hp].
  destruct (bin_zero rad _ _ ltac:(lia) Eq) as [wq Hq].
  unfold getCoeffs. fold rad. cbv zeta. rewrite !bins_of_app.
  pose proof (numIdx_pos rad ltac:(lia)) as Hn.
  destruct (bins_of rad before _) as [[rc om]|f] eqn:Eb; [|reflexivity].
  apply bins_of_length in Eb. rewrite !repeat_length in Eb.
  destruct Eb as [L1 L2].
  cbn [bins_of].
  rewrite (Hp c1 rc om) by lia.
  rewrite (Hq c2 (update rc 0 c1) (update om 0 wp))
    by (rewrite update_length; lia).
  rewrite (Hq c2 rc om) by lia.
  rewrite !update_update. reflexivity.
Qed.

Lemma getCoeffs_overwrites_witness :
  getCoeffs (Some (10, 10)%Z) [((3, 9)%Z, 1); ((4, 9)%Z, 2)] =
  getCoeffs (Some (10, 10)%Z) [((4, 9)%Z, 2)].
Proof.
  assert (E : image_radius (Some (10, 10)%Z) = 5%Z).
  { unfold image_radius. change (Z.min 10 10) with 10%Z.
    apply int_nonneg_spec; lra. }
  pose proof (getCoeffs_overwrites (Some (10, 10)%Z) [] [] 1 2) as H.
  cbv zeta in H. rewrite E in H. apply H. lia.
Defined.

End MeasureProperties.

Section MeasureFacts3.

Import Fisheye Numpy Measure Spec.
Local Open Scope R_scope.

Lemma keep_length (m : list bool) (a b : list R) :
  length a = length m -> length b = length m ->
  length (keep m a) = length (keep m b).
Proof.
  revert a b. induction m as [|x m IH]; intros [|y a] [|z b] Ha Hb;
    try discriminate; [reflexivity|].
  unfold keep in *. cbn [combine filter snd].
  destruct x; cbn [map length]; [f_equal|]; apply IH; simpl in *; lia.
Qed.

Lemma keep_mask (f : R -> bool) (a : list R) (c : R) :
  In c (keep (map f a) a) -> f c = true.
Proof.
  unfold keep. induction a as [|x a IH]; [contradiction|].
  cbn [map combine filter snd]. destruct (f x) eqn:E.
  - cbn [map fst]. intros [<-|H]; [exact E|apply IH, H].
  - apply IH.
Qed.

Lemma pixOmega_done (pix : Z * Z) (radius : Z) :
  radius <> 0%Z -> exists w, pixOmega pix radius = Done w /\ 0 <= w.
Proof.
  intros Hr. unfold pixOmega. destruct pix as [x y].
  assert (E : (2 * radius =? 0)%Z = false) by lia. rewrite E.
  cbv zeta. destruct (existsb _ _).
  - exists 0. split; [reflexivity|lra].
  - eexists. split; [reflexivity|apply Rabs_pos].
Qed.

(** The image of radius 1 with its central pixel alone. *)
Lemma getCoeffs_centre (c : R) :
  0 <= c ->
  exists w, 0 <= w /\
    getCoeffs (Some (2, 2)%Z) [((1, 1)%Z, c)] =
    Done (Some ([c], 0 + c * w, [divide (c * w) (0 + c * w)])).
Proof.
  intros Hc.
  destruct (pixOmega_done (1, 1)%Z 1 ltac:(lia)) as [w0 [Ew Hw]].
  exists (w0 * 1). split; [lra|].
  unfold getCoeffs.
  assert (Er : image_radius (Some (2, 2)%Z) = 1%Z).
  { unfold image_radius. change (Z.min 2 2) with 2%Z.
    apply int_nonneg_spec; lra. }
  rewrite Er. cbv zeta.
  assert (En : int (PI * IZR (1 ^ 2) + 0.5) = 3%Z).
  { pose proof PI_lower. pose proof PI_upper.
    apply int_nonneg_spec; simpl; lra. }
  rewrite En. change (repeat (-1) (Z.to_nat 3)) with [-1; -1; -1].
  assert (Ei : pix2Idx (1, 1)%Z 1 = 1%Z).
  { change (pix2Idx (1, 1)%Z 1) with (pix2Idx (1, 2 * 1 - 1)%Z 1).
    rewrite pix2Idx_second_row by lia. apply (int_offset 0). }
  cbn [bins_of]. unfold bin. rewrite Ei, Ew.
  change (0 <=? 1)%Z with true. cbv iota.
  change (setitem [-1; -1; -1] 1 c) with (Ok [-1; c; -1]). cbv iota.
  replace (0.5 * IZR 1 / IZR 1) with 0.5 by lra.
  rewrite vwRay_centre.
  destruct (Rlt_dec 1 0) as [H|_]; [lra|].
  change (setitem [-1; -1; -1] 1 (w0 * 1)) with (Ok [-1; w0 * 1; -1]).
  cbv iota. cbn [map].
  destruct (Rle_dec 0 (-1)) as [H|_]; [lra|].
  destruct (Rle_dec 0 c) as [_|H]; [|contradiction].
  reflexivity.
Qed.

End MeasureFacts3.

Section MeasureProperties2.

Import Fisheye Numpy Measure Spec.
Local Open Scope R_scope.

(** X30: what [getCoeffs] writes.  Whenever it writes its three files,
    there is at least one radiance contribution, none of the
    contributions written is negative (a bin that received a negative
    contribution is dropped like an empty one), there is one coefficient
    per contribution, and if the irradiance is not zero the coefficients
    are numbers that sum to 1. *)
Theorem getCoeffs_written (resolution : option (Z * Z))
        (records : list record)
        (radContribs : list R) (irrad : R) (coeffs : list npreal) :
  getCoeffs resolution records = Done (Some (radContribs, irrad, coeffs)) ->
  radContribs <> [] /\
  (forall c, In c radContribs -> 0 <= c) /\
  length coeffs = length radContribs /\
  (irrad <> 0 ->
   exists w, coeffs = map Number w /\ SolidAngles.sum w = 1).
Proof.
  unfold getCoeffs. cbv zeta.
  set (rad := image_radius resolution).
  set (n := Z.to_nat (int (PI * IZR (rad ^ 2) + 0.5))).
  destruct (bins_of rad records (repeat (-1) n, repeat (-1) n))
    as [[rc om]|f] eqn:Eb; [|discriminate].
  apply bins_of_length in Eb. rewrite !repeat_length in Eb.
  destruct Eb as [L1 L2].
  set (mask := map (fun c => if Rle_dec 0 c then true else false) rc).
  fold (keep mask rc). fold (keep mask om).
  destruct (len (keep mask rc) =? 0)%Z eqn:E0; [discriminate|].
  intros H. injection H as <- <- <-.
  assert (Lk : length (keep mask rc) = length (keep mask om)).
  { apply keep_length; unfold mask; rewrite length_map; lia. }
  split; [|split; [|split]].
  - intros Hn. rewrite Hn in E0. discriminate.
  - intros c Hin. apply (keep_mask _ rc c) in Hin. cbv beta in Hin.
    destruct (Rle_dec 0 c); [assumption|discriminate].
  - rewrite length_map, mul_length; [reflexivity|exact Lk].
  - intros Hi.
    exists (map (fun x => x / SolidAngles.sum (SolidAngles.mul (keep mask rc) (keep mask om)))
                (SolidAngles.mul (keep mask rc) (keep mask om))).
    split.
    + rewrite map_map. apply map_ext. intros x. unfold divide.
      destruct (Req_dec_T _ 0) as [Hz|_]; [contradiction|reflexivity].
    + unfold Rdiv. rewrite (sum_map_scale _ (fun x => x)), map_id.
      field. exact Hi.
Qed.

Lemma getCoeffs_written_witness :
  exists w,
    [1] <> [] /\
    (forall c, In c [1] -> 0 <= c) /\
    length [divide (1 * w) (0 + 1 * w)] = length [1] /\
    (0 + 1 * w <> 0 ->
     exists v, [divide (1 * w) (0 + 1 * w)] = map Number v /\
               SolidAngles.sum v = 1).
Proof.
  destruct (getCoeffs_centre 1 ltac:(lra)) as [w [_ E]].
  exists w. exact (getCoeffs_written _ _ _ _ _ E).
Defined.

End MeasureProperties2.
